(** * Moment2: second-moment beam transport (src/moment2.cpp)

    A shallow embedding of the Moment2 state and element family and of the
    configuration lookups they perform.

    Modelling conventions.
    - A C++ [double] is a real number of the Standard Library: arithmetic is
      exact and every scalar is finite.  The one place where the source
      relies on a non-number, the quiet NaN written into the two
      energy-cache keys, is modelled by [option]: see [energy_cache].
    - A uBLAS [matrix<double>] is its two sizes and its row-major storage
      ([data()]); a uBLAS [vector<double>] is a list.
    - Code that throws returns a [result]; the exception kinds are [error].
    - Storage that a constructor leaves uninitialised is read from an
      explicit [indet : nat -> R] argument. *)

From Stdlib Require Import Reals Lra Lia List String Bool Arith.
Import ListNotations.

Open Scope R_scope.

(** ** Exceptions *)

Inductive error : Type :=
| key_error          (* Config: no such key *)
| bad_any_cast       (* boost::bad_any_cast *)
| invalid_argument   (* std::invalid_argument *)
| runtime_error.     (* std::runtime_error *)

Inductive result (A : Type) : Type :=
| Ok (a : A)
| Throw (e : error).

Arguments Ok {A} a.
Arguments Throw {A} e.

Definition bind {A B : Type} (r : result A) (k : A -> result B) : result B :=
  match r with
  | Ok a => k a
  | Throw e => Throw e
  end.

Notation "x <- r ;; k" := (bind r (fun x => k))
  (at level 61, r at next level, right associativity).

Definition failed {A : Type} (r : result A) : Prop :=
  exists e, r = Throw e.

(** ** util.h and constants.h *)

(** Modelled from the spec: util.h is not among the sources.  [sqr] and
    [cube] are the square and the cube (spec 4.2 writes the square of
    gamma where the source calls [sqr]). *)
Definition sqr (x : R) : R := x * x.
Definition cube (x : R) : R := x * x * x.

(** Modelled from the spec: constants.h is not among the sources.  [C0] is
    the speed of light ("speedOfLight", in m/s) and [MtoMM] the "unitScale"
    from metres to millimetres.  No theorem below depends on their values. *)
Definition C0 : R := 299792458.
Definition MtoMM : R := 1000.
Definition M_PI : R := PI.

(** ** uBLAS vectors and matrices *)

Fixpoint sum_n (n : nat) (f : nat -> R) : R :=
  match n with
  | O => 0
  | S k => sum_n k f + f k
  end.

Fixpoint set_nth {A : Type} (n : nat) (v : A) (l : list A) : list A :=
  match l, n with
  | [], _ => []
  | _ :: t, O => v :: t
  | h :: t, S k => h :: set_nth k v t
  end.

Definition vector := list R.

Record matrix : Type := mkMatrix {
  size1 : nat;
  size2 : nat;
  data : list R
}.

(** [M(i,j)], row-major. *)
Definition mget (M : matrix) (i j : nat) : R :=
  nth (i * size2 M + j) (data M) 0.

(** [M(i,j) = v]. *)
Definition mset (M : matrix) (i j : nat) (v : R) : matrix :=
  mkMatrix (size1 M) (size2 M) (set_nth (i * size2 M + j) v (data M)).

(** The matrix of the given sizes whose (i,j) entry is [f i j]. *)
Definition mbuild (n m : nat) (f : nat -> nat -> R) : matrix :=
  mkMatrix n m (flat_map (fun i => map (f i) (seq 0 m)) (seq 0 n)).

Definition identity_matrix (n : nat) : matrix :=
  mbuild n n (fun i j => if Nat.eqb i j then 1 else 0).

(** [prod(A, B)] for two matrices. *)
Definition prod (A B : matrix) : matrix :=
  mbuild (size1 A) (size2 B)
         (fun i j => sum_n (size2 A) (fun k => mget A i k * mget B k j)).

(** [prod(A, v)] for a matrix and a vector. *)
Definition prod_mv (A : matrix) (v : vector) : vector :=
  map (fun i => sum_n (size2 A) (fun k => mget A i k * nth k v 0))
      (seq 0 (size1 A)).

(** [trans(A)]. *)
Definition trans (A : matrix) : matrix :=
  mbuild (size2 A) (size1 A) (fun i j => mget A j i).

(** Storage and sizes agree. *)
Definition wf (M : matrix) : Prop :=
  List.length (data M) = (size1 M * size2 M)%nat.

Definition square (n : nat) (M : matrix) : Prop :=
  size1 M = n /\ size2 M = n /\ wf M.

Definition symmetric (M : matrix) : Prop :=
  forall i j, (i < size1 M)%nat -> (j < size2 M)%nat -> mget M i j = mget M j i.

(** [std::copy(init.begin(), init.end(), dst.begin())] for [init] no longer
    than [dst]: the first cells of [dst] are overwritten. *)
Definition copy_into (init dst : list R) : list R :=
  init ++ skipn (List.length init) dst.


(** ** Config (base.h)

    [Config] wraps a [std::map<std::string, boost::any>].  The value kinds
    the Moment2 code reads are doubles, strings and vectors of doubles; the
    nested configurations read by [Machine] are left out. *)

Inductive any : Type :=
| any_double (d : R)
| any_string (s : string)
| any_vector (v : list R).

Definition Config : Type := list (string * any).

(** Modelled from the spec: [Config::getAny] is declared in base.h and
    defined outside the sources.  Per the header's contract for [get] and
    spec 4.1 it fails with [key_error] when the key is absent and returns
    the stored value otherwise. *)
Fixpoint getAny (c : Config) (s : string) : result any :=
  match c with
  | [] => Throw key_error
  | (k, v) :: rest => if String.eqb k s then Ok v else getAny rest s
  end.

Definition has (c : Config) (s : string) : bool :=
  match getAny c s with Ok _ => true | Throw _ => false end.

(** [boost::any_cast<T>] at the three kinds. *)
Definition any_cast_double (a : any) : result R :=
  match a with any_double d => Ok d | _ => Throw bad_any_cast end.

Definition any_cast_string (a : any) : result string :=
  match a with any_string s => Ok s | _ => Throw bad_any_cast end.

Definition any_cast_vector (a : any) : result (list R) :=
  match a with any_vector v => Ok v | _ => Throw bad_any_cast end.

(** [Config::get<T>(name)]. *)
Definition get_double (c : Config) (s : string) : result R :=
  a <- getAny c s ;; any_cast_double a.

Definition get_string (c : Config) (s : string) : result string :=
  a <- getAny c s ;; any_cast_string a.

Definition get_vector (c : Config) (s : string) : result (list R) :=
  a <- getAny c s ;; any_cast_vector a.

(** [Config::get<double>(name, def)]: both exceptions are caught. *)
Definition get_double_def (c : Config) (s : string) (def : R) : R :=
  match get_double c s with
  | Ok v => v
  | Throw _ => def
  end.

(** ** Moment2State *)

(** Modelled from the spec: moment2.h is not among the sources.  The state
    has [maxsize] = 7 coordinates, in the order x, x', y, y', phase,
    energy offset, homogeneous term. *)
Definition maxsize : nat := 7.
Definition PS_X : nat := 0.
Definition PS_PX : nat := 1.
Definition PS_Y : nat := 2.
Definition PS_PY : nat := 3.
Definition PS_S : nat := 4.
Definition PS_PS : nat := 5.

Record Moment2State : Type := mkState {
  next_elem : nat;          (* StateBase *)
  pos : R;
  Ekinetic : R;
  sync_phase : R;
  gamma : R;
  beta : R;
  moment0 : vector;
  state : matrix
}.

(** The relativistic factors as the constructor derives them. *)
Definition gamma_of (Ekinetic Erest : R) : R := (Ekinetic + Erest) / Erest.
Definition beta_of (gamma : R) : R := sqrt (1 + 1 / sqr gamma).

(** One of the two guarded vector reads of the constructor: a missing key
    keeps the default, a value of another kind or a vector that is too
    long is an [invalid_argument]. *)
Definition read_initial (c : Config) (key : string) (dst : list R)
  : result (list R) :=
  match get_vector c key with
  | Ok init =>
      if (List.length dst <? List.length init)%nat then Throw invalid_argument
      else Ok (copy_into init dst)
  | Throw key_error => Ok dst
  | Throw bad_any_cast => Throw invalid_argument
  | Throw e => Throw e
  end.

(** Modelled from the spec: the constructors of [StateBase] and
    [StateBase::assign] are defined outside the sources.  A state that is
    built or cloned starts at element 0, and assign "copies all fields". *)
Definition StateBase_ctor : nat := 0.
Definition StateBase_assign (other_next_elem : nat) : nat := other_next_elem.

(** [Moment2State::Moment2State(const Config&)]. *)
Definition Moment2State_ctor (c : Config) : result Moment2State :=
  let pos := get_double_def c "L" 0 in
  let Ekinetic := get_double_def c "IonEk" 0 in
  let sync_phase := get_double_def c "IonFy" 0 in
  m0 <- read_initial c "moment0" (repeat 0 maxsize) ;;
  st <- read_initial c "initial" (data (identity_matrix maxsize)) ;;
  let Erest := get_double_def c "Es" 1 in
  let gamma := gamma_of Ekinetic Erest in
  let beta := beta_of gamma in
  Ok (mkState StateBase_ctor pos Ekinetic sync_phase gamma beta m0
              (mkMatrix maxsize maxsize st)).

(** [Moment2State::Moment2State(const Moment2State&, clone_tag)].  The
    initialiser list names [pos], [Ekinetic], [moment0] and [state] only:
    [sync_phase], [gamma] and [beta] are left uninitialised and hold
    whatever the storage held, [indet 0], [indet 1] and [indet 2]. *)
Definition Moment2State_clone (o : Moment2State) (indet : nat -> R)
  : Moment2State :=
  mkState StateBase_ctor (pos o) (Ekinetic o) (indet 0%nat) (indet 1%nat)
          (indet 2%nat) (moment0 o) (state o).

(** [Moment2State::assign].  Every state of the model is a [Moment2State],
    so the [dynamic_cast] succeeds. *)
Definition Moment2State_assign (ST O : Moment2State) : Moment2State :=
  mkState (StateBase_assign (next_elem O)) (pos O) (Ekinetic O)
          (sync_phase O) (gamma O) (beta O) (moment0 O) (state O).

(** ** Matrix inversion

    [inverse] is the repository's; [lu_factorize] and [lu_substitute] are
    Boost uBLAS (lu.hpp, triangular.hpp), which it calls.  They are
    written here as the algorithms those headers implement: LU
    factorisation in place with partial pivoting, then a unit-lower and an
    upper triangular solve.  The triangular solves skip an update whose
    factor is 0; the update written out subtracts 0 there. *)

Definition Rne_dec (x y : R) : {x <> y} + {x = y} :=
  match Req_dec_T x y with
  | left e => right e
  | right n => left n
  end.

(** [index_norm_inf]: the first index of an entry of largest modulus. *)
Fixpoint index_norm_inf_loop (v : list R) (i i_norm_inf : nat) (t : R) : nat :=
  match v with
  | [] => i_norm_inf
  | x :: rest =>
      let u := Rabs x in
      if Rgt_dec u t then index_norm_inf_loop rest (S i) i u
      else index_norm_inf_loop rest (S i) i_norm_inf t
  end.

Definition index_norm_inf (v : list R) : nat := index_norm_inf_loop v 0 0 0.

(** [row(m, a).swap(row(m, b))]. *)
Definition swap_row (m : matrix) (a b : nat) : matrix :=
  mbuild (size1 m) (size2 m)
         (fun r c => if Nat.eqb r a then mget m b c
                     else if Nat.eqb r b then mget m a c
                     else mget m r c).

(** One turn of the loop of [lu_factorize], on column [i]. *)
Definition lu_factorize_step (i : nat) (acc : matrix * list nat * nat)
  : matrix * list nat * nat :=
  let '(m, pm, singular) := acc in
  let i_norm_inf :=
    (i + index_norm_inf (map (fun r => mget m r i) (seq i (size1 m - i))))%nat in
  let '(m1, pm1, singular1) :=
    if Rne_dec (mget m i_norm_inf i) 0 then
      let '(m', pm') :=
        if negb (Nat.eqb i_norm_inf i)
        then (swap_row m i_norm_inf i, set_nth i i_norm_inf pm)
        else (m, pm) in
      let d := 1 / mget m' i i in
      (mbuild (size1 m) (size2 m)
              (fun r c => if (Nat.ltb i r && Nat.eqb c i)%bool
                          then mget m' r c * d else mget m' r c),
       pm', singular)
    else (m, pm, if Nat.eqb singular 0 then (i + 1)%nat else singular) in
  (mbuild (size1 m) (size2 m)
          (fun r c => if (Nat.ltb i r && Nat.ltb i c)%bool
                      then mget m1 r c - mget m1 r i * mget m1 i c
                      else mget m1 r c),
   pm1, singular1).

(** [lu_factorize(m, pm)]: the factors, the row exchanges and the 1-based
    index of the first zero pivot (0 when there is none). *)
Definition lu_factorize (m : matrix) (pm : list nat) : matrix * list nat * nat :=
  fold_left (fun acc i => lu_factorize_step i acc)
            (seq 0 (Nat.min (size1 m) (size2 m))) (m, pm, 0%nat).

(** [swap_rows(pm, mv)]. *)
Definition swap_rows (pm : list nat) (mv : matrix) : matrix :=
  fold_left (fun e i =>
               if negb (Nat.eqb i (nth i pm i)) then swap_row e i (nth i pm i)
               else e)
            (seq 0 (List.length pm)) mv.

(** [inplace_solve(m, e, unit_lower_tag())], row [n]. *)
Definition solve_unit_lower_step (m : matrix) (e : matrix) (n : nat) : matrix :=
  mbuild (size1 e) (size2 e)
         (fun r c => if Nat.ltb n r then mget e r c - mget m r n * mget e n c
                     else mget e r c).

(** [inplace_solve(m, e, upper_tag())], row [n]. *)
Definition solve_upper_step (m : matrix) (e : matrix) (n : nat) : matrix :=
  let e' := mbuild (size1 e) (size2 e)
                   (fun r c => if Nat.eqb r n then mget e r c / mget m n n
                               else mget e r c) in
  mbuild (size1 e) (size2 e)
         (fun r c => if Nat.ltb r n then mget e' r c - mget m r n * mget e' n c
                     else mget e' r c).

Definition lu_substitute (m : matrix) (pm : list nat) (mv : matrix) : matrix :=
  let e0 := swap_rows pm mv in
  let e1 := fold_left (solve_unit_lower_step m) (seq 0 (size1 e0)) e0 in
  fold_left (solve_upper_step m) (rev (seq 0 (size1 e1))) e1.

(** [inverse(out, in)]; [out] is overwritten, so it is the result. *)
Definition inverse (inp : matrix) : result matrix :=
  let scratch := inp in
  let pm := seq 0 (size1 scratch) in
  let '(lu, pm', singular) := lu_factorize scratch pm in
  if negb (Nat.eqb singular 0) then Throw runtime_error
  else Ok (lu_substitute lu pm' (identity_matrix (size1 scratch))).


(** ** Elements *)

Record ElementVoid : Type := mkVoid {
  name : string;
  index : nat;
  p_conf : Config
}.

(** Modelled from the spec: [ElementVoid::ElementVoid(const Config&)] is
    defined outside the sources.  Spec 3 gives every element a name, an
    index (set by the Machine once the element is in its sequence) and a
    snapshot of its configuration; the name is read under the key "name". *)
Definition ElementVoid_ctor (c : Config) : result ElementVoid :=
  nm <- get_string c "name" ;;
  Ok (mkVoid nm 0 c).

(** The two cache keys.  The source writes them together only: both are the
    quiet NaN after construction and after [assign], both are numbers after
    a cache miss.  [energy_cache = None] is the pair of NaNs, with which
    every comparison [Ekinetic != last_Kenergy_in] is true. *)
Record cache_keys : Type := mkKeys {
  last_Kenergy_in : R;
  last_Kenergy_out : R
}.

Record Moment2ElementBase : Type := mkBase {
  void : ElementVoid;
  length : R;
  FSampLength : R;
  phase_factor : R;
  Erest : R;
  transfer : matrix;
  transfer_raw : matrix;
  misalign : matrix;
  misalign_inv : matrix;
  scratch : matrix;
  energy_cache : option cache_keys
}.

Definition with_transfer_raw (b : Moment2ElementBase) (M : matrix) :=
  mkBase (void b) (length b) (FSampLength b) (phase_factor b) (Erest b)
         (transfer b) M (misalign b) (misalign_inv b) (scratch b)
         (energy_cache b).

Definition with_scratch (b : Moment2ElementBase) (M : matrix) :=
  mkBase (void b) (length b) (FSampLength b) (phase_factor b) (Erest b)
         (transfer b) (transfer_raw b) (misalign b) (misalign_inv b) M
         (energy_cache b).

(** A [maxsize] x [maxsize] matrix whose storage is uninitialised. *)
Definition uninitialised (indet : nat -> R) (off : nat) : matrix :=
  mbuild maxsize maxsize (fun i j => indet (off + i * maxsize + j)%nat).

(** [Moment2ElementBase::Moment2ElementBase(const Config&)].  [transfer]
    and [scratch] are allocated and not filled; [misalign_inv] is filled by
    [inverse]. *)
Definition Moment2ElementBase_ctor (c : Config) (indet : nat -> R)
  : result Moment2ElementBase :=
  v <- ElementVoid_ctor c ;;
  let transfer := uninitialised indet 0 in
  let transfer_raw := identity_matrix maxsize in
  let misalign := identity_matrix maxsize in
  let scratch := uninitialised indet (maxsize * maxsize) in
  let length := get_double_def c "L" 0 in
  Frf <- get_double c "Frf" ;;
  let FSampLength := C0 / Frf * MtoMM in
  let phase_factor := length * 2 * M_PI / FSampLength in
  Erest <- get_double c "IonEs" ;;
  misalign_inv <- inverse misalign ;;
  Ok (mkBase v length FSampLength phase_factor Erest transfer transfer_raw
             misalign misalign_inv scratch None).

(** [Moment2ElementBase::assign]: [misalign_inv] is not copied; the cache
    is spoiled.  [ElementVoid::assign] is declared outside the sources and
    the base part is left as it is. *)
Definition Moment2ElementBase_assign (b O : Moment2ElementBase)
  : Moment2ElementBase :=
  mkBase (void b) (length O) (FSampLength O) (phase_factor O) (Erest O)
         (transfer O) (transfer_raw O) (misalign O) (misalign_inv b)
         (scratch b) None.

(** The energy-dependent term written into [transfer_raw(PS_S, PS_PS)]. *)
Definition energy_term (b : Moment2ElementBase) (ST : Moment2State) : R :=
  -2 * M_PI / (FSampLength b * Erest b * cube (beta ST * gamma ST)) * length b.

(** [ST.Ekinetic != last_Kenergy_in]. *)
Definition cache_miss (b : Moment2ElementBase) (ST : Moment2State) : bool :=
  match energy_cache b with
  | None => true
  | Some k => if Rne_dec (Ekinetic ST) (last_Kenergy_in k) then true else false
  end.

(** The body of the [if] of the default [advance]: the element after it,
    and the two keys it has just written. *)
Definition recompute (b : Moment2ElementBase) (ST : Moment2State)
  : Moment2ElementBase * cache_keys :=
  let transfer_raw' := mset (transfer_raw b) PS_S PS_PS (energy_term b ST) in
  let scratch' := prod (misalign b) transfer_raw' in
  let transfer' := prod scratch' (misalign_inv b) in
  let k := mkKeys (Ekinetic ST) (Ekinetic ST) in
  (mkBase (void b) (length b) (FSampLength b) (phase_factor b) (Erest b)
          transfer' transfer_raw' (misalign b) (misalign_inv b) scratch'
          (Some k),
   k).

(** The body of the [if] of [ElementRFCavity::advance]. *)
Definition recompute_rf (b : Moment2ElementBase) (ST : Moment2State)
  : Moment2ElementBase * cache_keys :=
  let transfer_raw' := mset (transfer_raw b) PS_S PS_PS (energy_term b ST) in
  let transfer' := transfer_raw' in
  let k := mkKeys (Ekinetic ST) (Ekinetic ST + 1) in
  (mkBase (void b) (length b) (FSampLength b) (phase_factor b) (Erest b)
          transfer' transfer_raw' (misalign b) (misalign_inv b) (scratch b)
          (Some k),
   k).

(** The [if] statement: the element after it and the cache keys it then
    holds, which are numbers whether the branch was taken or not. *)
Definition energy_step
    (body : Moment2ElementBase -> Moment2State -> Moment2ElementBase * cache_keys)
    (b : Moment2ElementBase) (ST : Moment2State)
  : Moment2ElementBase * cache_keys :=
  match energy_cache b with
  | Some k =>
      if Rne_dec (Ekinetic ST) (last_Kenergy_in k) then body b ST else (b, k)
  | None => body b ST
  end.

(** The statements after the [if], the same in both [advance] bodies. *)
Definition transport (b : Moment2ElementBase) (k : cache_keys)
    (ST : Moment2State) : Moment2ElementBase * Moment2State :=
  let pos' := pos ST + length b in
  let Ekinetic' := last_Kenergy_out k in
  let sync_phase' := sync_phase ST + phase_factor b / beta ST in
  let moment0' := prod_mv (transfer b) (moment0 ST) in
  let scratch' := prod (transfer b) (state ST) in
  let state' := prod scratch' (trans (transfer b)) in
  (with_scratch b scratch',
   mkState (next_elem ST) pos' Ekinetic' sync_phase' (gamma ST) (beta ST)
           moment0' state').

(** [Moment2ElementBase::advance]. *)
Definition Moment2ElementBase_advance (b : Moment2ElementBase)
    (ST : Moment2State) : Moment2ElementBase * Moment2State :=
  let '(b1, k) := energy_step recompute b ST in
  transport b1 k ST.

(** [ElementRFCavity::advance]. *)
Definition ElementRFCavity_advance (b : Moment2ElementBase)
    (ST : Moment2State) : Moment2ElementBase * Moment2State :=
  let '(b1, k) := energy_step recompute_rf b ST in
  transport b1 k ST.

(** ** The element types *)

(** [Get2by2Matrix]: the block of one plane, at rows and columns [ind] and
    [ind+1] of [M]. *)
Definition Get2by2Matrix (L K : R) (ind : nat) (M : matrix) : matrix :=
  if Rgt_dec K 0 then
    (* Focusing. *)
    let sqrtK := sqrt K in
    let psi := sqrtK * L in
    let cs := cos psi in
    let sn := sin psi in
    let M := mset M (ind + 1) (ind + 1) cs in
    let M := mset M ind ind cs in
    let M := if Rne_dec sqrtK 0 then mset M ind (ind + 1) (sn / sqrtK)
             else mset M ind (ind + 1) L in
    if Rne_dec sqrtK 0 then mset M (ind + 1) ind (- sqrtK * sn)
    else mset M (ind + 1) ind 0
  else
    (* Defocusing. *)
    let sqrtK := sqrt (- K) in
    let psi := sqrtK * L in
    let cs := cosh psi in
    let sn := sinh psi in
    let M := mset M (ind + 1) (ind + 1) cs in
    let M := mset M ind ind cs in
    let M := if Rne_dec sqrtK 0 then mset M ind (ind + 1) (sn / sqrtK)
             else mset M ind (ind + 1) L in
    if Rne_dec sqrtK 0 then mset M (ind + 1) ind (sqrtK * sn)
    else mset M (ind + 1) ind 0.

(** The transverse block written by the constructor of [ElementSolenoid],
    in the order of the source. *)
Definition solenoid_matrix (L K : R) (M : matrix) : matrix :=
  let C := cos (K * L) in
  let S := sin (K * L) in
  let M := mset M PS_PY PS_PY (sqr C) in
  let M := mset M PS_Y PS_Y (sqr C) in
  let M := mset M PS_PX PS_PX (sqr C) in
  let M := mset M PS_X PS_X (sqr C) in
  let M := if Rne_dec K 0 then mset M PS_X PS_PX (S * C / K)
           else mset M PS_X PS_PX L in
  let M := mset M PS_X PS_Y (S * C) in
  let M := if Rne_dec K 0 then mset M PS_X PS_PY (sqr S / K)
           else mset M PS_X PS_PY 0 in
  let M := mset M PS_PX PS_X (- K * S * C) in
  let M := mset M PS_PX PS_Y (- K * sqr S) in
  let M := mset M PS_PX PS_PY (S * C) in
  let M := mset M PS_Y PS_X (- S * C) in
  let M := if Rne_dec K 0 then mset M PS_Y PS_PX (- sqr S / K)
           else mset M PS_Y PS_PX 0 in
  let M := if Rne_dec K 0 then mset M PS_Y PS_PY (S * C / K)
           else mset M PS_Y PS_PY L in
  let M := mset M PS_PY PS_X (K * sqr S) in
  let M := mset M PS_PY PS_PX (- S * C) in
  mset M PS_PY PS_Y (- K * S * C).

(** The transfer matrix written by the constructor of [ElementDrift]. *)
Definition drift_matrix (L : R) (M : matrix) : matrix :=
  let M := mset M PS_X PS_PX L in
  mset M PS_Y PS_PY L.

(** The concrete element types, one constructor per struct.  The source
    alone holds a state of its own. *)
Inductive Element : Type :=
| ElementSource (b : Moment2ElementBase) (istate : Moment2State)
| ElementMark (b : Moment2ElementBase)
| ElementDrift (b : Moment2ElementBase)
| ElementSBend (b : Moment2ElementBase)
| ElementQuad (b : Moment2ElementBase)
| ElementSolenoid (b : Moment2ElementBase)
| ElementRFCavity (b : Moment2ElementBase)
| ElementStripper (b : Moment2ElementBase)
| ElementEDipole (b : Moment2ElementBase)
| ElementGeneric (b : Moment2ElementBase).

Definition base (e : Element) : Moment2ElementBase :=
  match e with
  | ElementSource b _ | ElementMark b | ElementDrift b | ElementSBend b
  | ElementQuad b | ElementSolenoid b | ElementRFCavity b
  | ElementStripper b | ElementEDipole b | ElementGeneric b => b
  end.

Definition type_name (e : Element) : string :=
  match e with
  | ElementSource _ _ => "source"
  | ElementMark _ => "marker"
  | ElementDrift _ => "drift"
  | ElementSBend _ => "sbend"
  | ElementQuad _ => "quadrupole"
  | ElementSolenoid _ => "solenoid"
  | ElementRFCavity _ => "rfcavity"
  | ElementStripper _ => "stripper"
  | ElementEDipole _ => "edipole"
  | ElementGeneric _ => "generic"
  end.

Definition ElementSource_ctor (c : Config) (indet : nat -> R) : result Element :=
  b <- Moment2ElementBase_ctor c indet ;;
  istate <- Moment2State_ctor c ;;
  Ok (ElementSource b istate).

Definition ElementMark_ctor (c : Config) (indet : nat -> R) : result Element :=
  b <- Moment2ElementBase_ctor c indet ;;
  Ok (ElementMark
        (mkBase (void b) 0 (FSampLength b) 0 (Erest b) (transfer b)
                (transfer_raw b) (misalign b) (misalign_inv b) (scratch b)
                (energy_cache b))).

Definition ElementDrift_ctor (c : Config) (indet : nat -> R) : result Element :=
  b <- Moment2ElementBase_ctor c indet ;;
  let L := length b * MtoMM in
  Ok (ElementDrift (with_transfer_raw b (drift_matrix L (transfer_raw b)))).

Definition ElementSBend_ctor (c : Config) (indet : nat -> R) : result Element :=
  b <- Moment2ElementBase_ctor c indet ;;
  l <- get_double c "L" ;;
  let L := l * MtoMM in
  phi <- get_double c "phi" ;;
  let rho := L / phi in
  let K := get_double_def c "K" 0 / sqr MtoMM in
  let Kx := K + 1 / sqr rho in
  let Ky := - K in
  let M := Get2by2Matrix L Kx PS_X (transfer_raw b) in
  let M := Get2by2Matrix L Ky PS_Y M in
  Ok (ElementSBend (with_transfer_raw b M)).

Definition ElementQuad_ctor (c : Config) (indet : nat -> R) : result Element :=
  b <- Moment2ElementBase_ctor c indet ;;
  l <- get_double c "L" ;;
  let L := l * MtoMM in
  let K := get_double_def c "K" 0 / sqr MtoMM in
  let M := Get2by2Matrix L K PS_X (transfer_raw b) in
  let M := Get2by2Matrix L (- K) PS_Y M in
  Ok (ElementQuad (with_transfer_raw b M)).

Definition ElementSolenoid_ctor (c : Config) (indet : nat -> R)
  : result Element :=
  b <- Moment2ElementBase_ctor c indet ;;
  l <- get_double c "L" ;;
  let L := l * MtoMM in
  let K := get_double_def c "K" 0 / MtoMM in
  Ok (ElementSolenoid (with_transfer_raw b (solenoid_matrix L K (transfer_raw b)))).

Definition ElementRFCavity_ctor (c : Config) (indet : nat -> R)
  : result Element :=
  b <- Moment2ElementBase_ctor c indet ;;
  cav_type <- get_string c "cavtype" ;;
  l <- get_double c "L" ;;
  let L := l * MtoMM in
  Ok (ElementRFCavity (with_transfer_raw b (drift_matrix L (transfer_raw b)))).

Definition ElementStripper_ctor (c : Config) (indet : nat -> R)
  : result Element :=
  b <- Moment2ElementBase_ctor c indet ;;
  Ok (ElementStripper b).

Definition ElementEDipole_ctor (c : Config) (indet : nat -> R)
  : result Element :=
  b <- Moment2ElementBase_ctor c indet ;;
  Ok (ElementEDipole b).

Definition ElementGeneric_ctor (c : Config) (indet : nat -> R)
  : result Element :=
  b <- Moment2ElementBase_ctor c indet ;;
  init <- get_vector c "transfer" ;;
  if (List.length (data (transfer_raw b)) <? List.length init)%nat
  then Throw invalid_argument
  else Ok (ElementGeneric
             (with_transfer_raw b
                (mkMatrix (size1 (transfer_raw b)) (size2 (transfer_raw b))
                          (copy_into init (data (transfer_raw b)))))).

(** The element names registered by [registerMoment2] for "MomentMatrix2". *)
Inductive etype : Type :=
| source | marker | drift | sbend | quadrupole | solenoid | rfcavity
| stripper | edipole | generic.

(** The builder registered under each name. *)
Definition build (t : etype) : Config -> (nat -> R) -> result Element :=
  match t with
  | source => ElementSource_ctor
  | marker => ElementMark_ctor
  | drift => ElementDrift_ctor
  | sbend => ElementSBend_ctor
  | quadrupole => ElementQuad_ctor
  | solenoid => ElementSolenoid_ctor
  | rfcavity => ElementRFCavity_ctor
  | stripper => ElementStripper_ctor
  | edipole => ElementEDipole_ctor
  | generic => ElementGeneric_ctor
  end.

(** Which [advance] the element runs: the source and the RF cavity override
    the one of [Moment2ElementBase], the others inherit it. *)
Definition default_advance (e : Element) : bool :=
  match e with
  | ElementSource _ _ | ElementRFCavity _ => false
  | _ => true
  end.

Definition rebase (e : Element) (b : Moment2ElementBase) : Element :=
  match e with
  | ElementSource _ istate => ElementSource b istate
  | ElementMark _ => ElementMark b
  | ElementDrift _ => ElementDrift b
  | ElementSBend _ => ElementSBend b
  | ElementQuad _ => ElementQuad b
  | ElementSolenoid _ => ElementSolenoid b
  | ElementRFCavity _ => ElementRFCavity b
  | ElementStripper _ => ElementStripper b
  | ElementEDipole _ => ElementEDipole b
  | ElementGeneric _ => ElementGeneric b
  end.

(** The virtual call [elem->advance(state)]: the element and the state
    after it. *)
Definition advance (e : Element) (ST : Moment2State) : Element * Moment2State :=
  match e with
  | ElementSource b istate => (e, Moment2State_assign ST istate)
  | ElementRFCavity b =>
      let '(b', ST') := ElementRFCavity_advance b ST in (ElementRFCavity b', ST')
  | _ =>
      let '(b', ST') := Moment2ElementBase_advance (base e) ST in
      (rebase e b', ST')
  end.

(** ** Invariants of an element over its lifetime *)

(** An element's lifetime: it is built by the builder registered for its
    type, and from then on it is advanced, or assigned from another
    element. *)
Inductive lifetime : Element -> Prop :=
| life_built (t : etype) (c : Config) (indet : nat -> R) (e : Element) :
    build t c indet = Ok e -> lifetime e
| life_advance (e : Element) (ST : Moment2State) :
    lifetime e -> lifetime (fst (advance e ST))
| life_assign (e o : Element) :
    lifetime e -> lifetime o ->
    lifetime (rebase e (Moment2ElementBase_assign (base e) (base o))).

Record base_inv (b : Moment2ElementBase) : Prop := mkBaseInv {
  inv_misalign : misalign b = identity_matrix maxsize;
  inv_misalign_inv : misalign_inv b = identity_matrix maxsize;
  inv_raw : square maxsize (transfer_raw b);
  inv_transfer : energy_cache b = None \/ transfer b = transfer_raw b
}.

(** What the cached output energy is, given the cached input energy. *)
Definition keys_ok (e : Element) : Prop :=
  match energy_cache (base e) with
  | None => True
  | Some k =>
      match e with
      | ElementRFCavity _ => last_Kenergy_out k = last_Kenergy_in k + 1
      | _ => last_Kenergy_out k = last_Kenergy_in k
      end
  end.

Definition element_inv (e : Element) : Prop :=
  base_inv (base e) /\ keys_ok e.



(** ** A sample lattice element and bunch *)

Definition sample_conf : Config :=
  [("name"%string, any_string "e1"); ("L"%string, any_double 2);
   ("Frf"%string, any_double 80500000); ("IonEs"%string, any_double 931494320);
   ("cavtype"%string, any_string "0.041QWR")].

Definition sample_indet : nat -> R := fun _ => 0.

Definition sample_base : Moment2ElementBase :=
  mkBase (mkVoid "e1" 0 sample_conf) 2 (C0 / 80500000 * MtoMM)
         (2 * 2 * M_PI / (C0 / 80500000 * MtoMM)) 931494320
         (uninitialised sample_indet 0) (identity_matrix maxsize)
         (identity_matrix maxsize) (identity_matrix maxsize)
         (uninitialised sample_indet (maxsize * maxsize)) None.

Definition sample_drift : Element :=
  ElementDrift
    (with_transfer_raw sample_base
       (drift_matrix (2 * MtoMM) (identity_matrix maxsize))).

Definition sample_rfcavity : Element :=
  ElementRFCavity
    (with_transfer_raw sample_base
       (drift_matrix (2 * MtoMM) (identity_matrix maxsize))).

(** The state built from an empty configuration. *)
Definition sample_state : Moment2State :=
  mkState 0 0 0 0 (gamma_of 0 1) (beta_of (gamma_of 0 1)) (repeat 0 maxsize)
          (identity_matrix maxsize).

(** [beta] and [gamma] are the factors the constructor would derive from
    the state's kinetic energy and the rest energy [Es]. *)
Definition relativistic (Es : R) (ST : Moment2State) : Prop :=
  gamma ST = gamma_of (Ekinetic ST) Es /\ beta ST = beta_of (gamma ST).

(** A body for the [if] of [advance] that computes nothing and leaves a
    mark: the element it returns holds no cache keys, which the element
    that [energy_step] returns when it skips its body always does. *)
Definition marking_body (b : Moment2ElementBase) (ST : Moment2State)
  : Moment2ElementBase * cache_keys :=
  (mkBase (void b) (length b) (FSampLength b) (phase_factor b) (Erest b)
          (transfer b) (transfer_raw b) (misalign b) (misalign_inv b)
          (scratch b) None,
   mkKeys (Ekinetic ST) (Ekinetic ST)).

(** Whether [energy_step] runs the body it is given on [b] and [ST]: the
    [if] statement itself is run, on the marking body, and the mark is
    looked for.  [energy_step] treats every body alike, so this is the
    branch it takes with [recompute] and [recompute_rf] too. *)
Definition body_ran (b : Moment2ElementBase) (ST : Moment2State) : bool :=
  match energy_cache (fst (energy_step marking_body b ST)) with
  | None => true
  | Some _ => false
  end.



(** A configuration in which "Frf" has the wrong kind and "IonEs" is
    absent. *)
Definition bad_conf : Config :=
  [("name"%string, any_string "q1"); ("L"%string, any_double 2);
   ("Frf"%string, any_string "80.5e6")].

(** ** Introspection of a state *)

(** [StateBase::ArrayInfo], as [getArray] fills it: the name, the doubles
    [ptr] points at, the number of dimensions and the extents written
    into [dim]. *)
Record ArrayInfo : Type := mkInfo {
  info_name : string;
  info_ptr : list R;
  info_ndim : nat;
  info_dim : list nat
}.

(** [StateBase::getArray], defined in the header: no parameter. *)
Definition StateBase_getArray (idx : nat) : option ArrayInfo := None.

(** [Moment2State::getArray]; [None] is the return value [false]. *)
Definition Moment2State_getArray (ST : Moment2State) (idx : nat)
  : option ArrayInfo :=
  if Nat.eqb idx 0 then
    Some (mkInfo "state" (data (state ST)) 2
                 [size1 (state ST); size2 (state ST)])
  else if Nat.eqb idx 1 then
    Some (mkInfo "moment0" (moment0 ST) 1 [List.length (moment0 ST)])
  else if Nat.eqb idx 2 then Some (mkInfo "pos" [pos ST] 0 [])
  else if Nat.eqb idx 3 then Some (mkInfo "Ekinetic" [Ekinetic ST] 0 [])
  else if Nat.eqb idx 4 then Some (mkInfo "sync_phase" [sync_phase ST] 0 [])
  else if Nat.eqb idx 5 then Some (mkInfo "gamma" [gamma ST] 0 [])
  else if Nat.eqb idx 6 then Some (mkInfo "beta" [beta ST] 0 [])
  else StateBase_getArray (idx - 7).

(** The shape the constructor gives a state: [maxsize] first moments and
    a [maxsize] x [maxsize] matrix of second moments. *)
Definition shaped (ST : Moment2State) : Prop :=
  List.length (moment0 ST) = maxsize /\ square maxsize (state ST).

(** ** The registry *)

(** The name under which [registerMoment2] registers each builder. *)
Definition registered_name (t : etype) : string :=
  match t with
  | source => "source"
  | marker => "marker"
  | drift => "drift"
  | sbend => "sbend"
  | quadrupole => "quadrupole"
  | solenoid => "solenoid"
  | rfcavity => "rfcavity"
  | stripper => "stripper"
  | edipole => "edipole"
  | generic => "generic"
  end.

(** ** Consecutive calls of advance *)

(** One state through the elements of a list, in order: the elements and
    the state after the calls. *)
Fixpoint advance_all (es : list Element) (ST : Moment2State)
  : list Element * Moment2State :=
  match es with
  | [] => ([], ST)
  | e :: rest =>
      let '(e', ST') := advance e ST in
      let '(rest', ST'') := advance_all rest ST' in
      (e' :: rest', ST'')
  end.

(** One state [n] times through one element. *)
Fixpoint passes (n : nat) (e : Element) (ST : Moment2State)
  : Element * Moment2State :=
  match n with
  | O => (e, ST)
  | S k => let '(e', ST') := advance e ST in passes k e' ST'
  end.

Definition is_source (e : Element) : bool :=
  match e with ElementSource _ _ => true | _ => false end.

Definition is_rfcavity (e : Element) : bool :=
  match e with ElementRFCavity _ => true | _ => false end.

(** The path length and the phase slip of a list of elements. *)
Definition total_length (es : list Element) : R :=
  fold_right (fun e acc => length (base e) + acc) 0 es.

Definition total_phase_factor (es : list Element) : R :=
  fold_right (fun e acc => phase_factor (base e) + acc) 0 es.

(** The state [ST] with other first moments. *)
Definition with_moment0 (ST : Moment2State) (m : vector) : Moment2State :=
  mkState (next_elem ST) (pos ST) (Ekinetic ST) (sync_phase ST) (gamma ST)
          (beta ST) m (state ST).

(** The linear combination [a * u + b * v] of two vectors. *)
Fixpoint lincomb (a : R) (u : vector) (b : R) (v : vector) : vector :=
  match u, v with
  | x :: u', y :: v' => (a * x + b * y) :: lincomb a u' b v'
  | _, _ => []
  end.

(** The diagonal matrix with the given diagonal. *)
Definition diagonal_matrix (d : list R) : matrix :=
  mbuild (List.length d) (List.length d)
         (fun i j => if Nat.eqb i j then nth i d 0 else 0).

(** The determinant of the block at rows and columns [ind], [ind+1]. *)
Definition block_det (M : matrix) (ind : nat) : R :=
  mget M ind ind * mget M (ind + 1) (ind + 1)
  - mget M ind (ind + 1) * mget M (ind + 1) ind.

(** Every division of [advance] is by a number that is not zero. *)
Definition divisions_defined (b : Moment2ElementBase) (ST : Moment2State)
  : Prop :=
  FSampLength b * Erest b * cube (beta ST * gamma ST) <> 0 /\ beta ST <> 0.

(** What the constructor of [ElementMark] establishes and the default
    advance keeps: no length, no phase factor, the identity as raw
    transfer matrix, and equal cache keys. *)
Definition marker_like (b : Moment2ElementBase) : Prop :=
  length b = 0 /\ phase_factor b = 0 /\
  transfer_raw b = identity_matrix maxsize /\
  base_inv b /\
  match energy_cache b with
  | None => True
  | Some k => last_Kenergy_out k = last_Kenergy_in k
  end.

(** The marker built from [sample_conf]. *)
Definition sample_marker : Element :=
  ElementMark
    (mkBase (mkVoid "e1" 0 sample_conf) 0 (C0 / 80500000 * MtoMM) 0 931494320
            (uninitialised sample_indet 0) (identity_matrix maxsize)
            (identity_matrix maxsize) (identity_matrix maxsize)
            (uninitialised sample_indet (maxsize * maxsize)) None).

(** A configuration without a length, and the base part built from it. *)
Definition conf_without_L : Config :=
  [("name"%string, any_string "q1"); ("Frf"%string, any_double 80500000);
   ("IonEs"%string, any_double 931494320)].

Definition base_without_L : Moment2ElementBase :=
  mkBase (mkVoid "q1" 0 conf_without_L) 0 (C0 / 80500000 * MtoMM)
         (0 * 2 * M_PI / (C0 / 80500000 * MtoMM)) 931494320
         (uninitialised sample_indet 0) (identity_matrix maxsize)
         (identity_matrix maxsize) (identity_matrix maxsize)
         (uninitialised sample_indet (maxsize * maxsize)) None.

(** [sample_conf] with the first two cells of a transfer matrix, and the
    base part built from it. *)
Definition conf_generic : Config :=
  ("transfer"%string, any_vector [2; 3]) :: sample_conf.

Definition base_generic : Moment2ElementBase :=
  mkBase (mkVoid "e1" 0 conf_generic) 2 (C0 / 80500000 * MtoMM)
         (2 * 2 * M_PI / (C0 / 80500000 * MtoMM)) 931494320
         (uninitialised sample_indet 0) (identity_matrix maxsize)
         (identity_matrix maxsize) (identity_matrix maxsize)
         (uninitialised sample_indet (maxsize * maxsize)) None.

(** [sample_conf] with a bend angle, and the base part built from it. *)
Definition conf_sbend : Config :=
  ("phi"%string, any_double 1) :: sample_conf.

Definition base_sbend : Moment2ElementBase :=
  mkBase (mkVoid "e1" 0 conf_sbend) 2 (C0 / 80500000 * MtoMM)
         (2 * 2 * M_PI / (C0 / 80500000 * MtoMM)) 931494320
         (uninitialised sample_indet 0) (identity_matrix maxsize)
         (identity_matrix maxsize) (identity_matrix maxsize)
         (uninitialised sample_indet (maxsize * maxsize)) None.

(** A second sample bunch: the kinetic energy of [sample_state], other
    relativistic factors. *)
Definition sample_state2 : Moment2State :=
  mkState 0 0 0 0 2 3 [1; 0; 0; 0; 0; 1; 1] (identity_matrix maxsize).

(** * Facts

    ** Sums and matrices *)

Section MatrixFacts.

Lemma sum_n_ext (n : nat) (f g : nat -> R) :
  (forall k, (k < n)%nat -> f k = g k) -> sum_n n f = sum_n n g.
Proof.
  induction n as [|n IH]; intros H; simpl; [reflexivity|].
  rewrite IH by (intros; apply H; lia). rewrite H by lia. reflexivity.
Qed.

Lemma sum_n_plus (n : nat) (f g : nat -> R) :
  sum_n n (fun k => f k + g k) = sum_n n f + sum_n n g.
Proof. induction n as [|n IH]; simpl; [|rewrite IH]; ring. Qed.

Lemma sum_n_scal_r (n : nat) (f : nat -> R) (c : R) :
  sum_n n (fun k => f k * c) = sum_n n f * c.
Proof. induction n as [|n IH]; simpl; [|rewrite IH]; ring. Qed.

Lemma sum_n_scal_l (n : nat) (f : nat -> R) (c : R) :
  sum_n n (fun k => c * f k) = c * sum_n n f.
Proof. induction n as [|n IH]; simpl; [|rewrite IH]; ring. Qed.

Lemma sum_n_zero (n : nat) (f : nat -> R) :
  (forall k, (k < n)%nat -> f k = 0) -> sum_n n f = 0.
Proof.
  induction n as [|n IH]; intros H; simpl; [reflexivity|].
  rewrite IH by (intros; apply H; lia). rewrite H by lia. ring.
Qed.

(** Exchange of two finite sums. *)
Lemma sum_n_swap (n m : nat) (f : nat -> nat -> R) :
  sum_n n (fun k => sum_n m (fun l => f k l))
  = sum_n m (fun l => sum_n n (fun k => f k l)).
Proof.
  induction n as [|n IH]; simpl.
  - symmetry. apply sum_n_zero. reflexivity.
  - rewrite IH, <- sum_n_plus. reflexivity.
Qed.

(** A sum with a single non-zero term. *)
Lemma sum_n_single (n i : nat) (f : nat -> R) :
  (i < n)%nat -> (forall k, (k < n)%nat -> k <> i -> f k = 0) ->
  sum_n n f = f i.
Proof.
  induction n as [|n IH]; intros Hi H; [lia|]. simpl.
  destruct (Nat.eq_dec i n) as [->|Hne].
  - rewrite sum_n_zero by (intros; apply H; lia). ring.
  - rewrite IH by (try lia; intros; apply H; lia).
    rewrite (H n) by lia. ring.
Qed.

Lemma nth_rows (m : nat) (f : nat -> nat -> R) (n a i j : nat) :
  (i < n)%nat -> (j < m)%nat ->
  nth (i * m + j) (flat_map (fun r => map (f r) (seq 0 m)) (seq a n)) 0
  = f (a + i)%nat j.
Proof.
  revert a i. induction n as [|n IH]; intros a i Hi Hj; [lia|].
  simpl. destruct i as [|i].
  - rewrite app_nth1 by (rewrite length_map, length_seq; simpl; lia).
    simpl. rewrite (nth_indep _ 0 (f a 0%nat))
      by (rewrite length_map, length_seq; lia).
    rewrite map_nth, seq_nth by lia. f_equal; lia.
  - rewrite app_nth2 by (rewrite length_map, length_seq; simpl; lia).
    rewrite length_map, length_seq.
    replace (S i * m + j - m)%nat with (i * m + j)%nat by (simpl; lia).
    rewrite IH by lia. f_equal; lia.
Qed.

Lemma mget_mbuild (n m : nat) (f : nat -> nat -> R) (i j : nat) :
  (i < n)%nat -> (j < m)%nat -> mget (mbuild n m f) i j = f i j.
Proof.
  intros Hi Hj. unfold mget, mbuild. cbn [size2 data].
  rewrite nth_rows by assumption. reflexivity.
Qed.

Lemma length_rows (m : nat) (f : nat -> nat -> R) (n a : nat) :
  List.length (flat_map (fun r => map (f r) (seq 0 m)) (seq a n)) = (n * m)%nat.
Proof.
  revert a. induction n as [|n IH]; intros a; simpl; [reflexivity|].
  rewrite length_app, length_map, length_seq, IH. reflexivity.
Qed.

Lemma wf_mbuild (n m : nat) (f : nat -> nat -> R) : wf (mbuild n m f).
Proof. unfold wf, mbuild. cbn [size1 size2 data]. apply length_rows. Qed.

Lemma rows_ext (m : nat) (f g : nat -> nat -> R) (n a : nat) :
  (forall i j, (a <= i < a + n)%nat -> (j < m)%nat -> f i j = g i j) ->
  flat_map (fun r => map (f r) (seq 0 m)) (seq a n)
  = flat_map (fun r => map (g r) (seq 0 m)) (seq a n).
Proof.
  revert a. induction n as [|n IH]; intros a H; simpl; [reflexivity|].
  f_equal.
  - apply map_ext_in. intros j Hj. apply in_seq in Hj. apply H; lia.
  - apply IH. intros; apply H; lia.
Qed.

Lemma mbuild_ext (n m : nat) (f g : nat -> nat -> R) :
  (forall i j, (i < n)%nat -> (j < m)%nat -> f i j = g i j) ->
  mbuild n m f = mbuild n m g.
Proof.
  intros H. unfold mbuild. f_equal. apply rows_ext.
  intros; apply H; lia.
Qed.

(** Two well-formed matrices of the same sizes with the same entries are
    the same matrix. *)
Lemma matrix_ext (A B : matrix) :
  wf A -> wf B -> size1 A = size1 B -> size2 A = size2 B ->
  (forall i j, (i < size1 A)%nat -> (j < size2 A)%nat ->
               mget A i j = mget B i j) ->
  A = B.
Proof.
  destruct A as [n m a], B as [n' m' b]. unfold wf, mget.
  cbn [size1 size2 data]. intros Ha Hb <- <- H. f_equal.
  apply (nth_ext _ _ 0 0); [congruence|].
  intros k Hk. rewrite Ha in Hk.
  assert (Hm : (m <> 0)%nat) by (intros ->; lia).
  rewrite (Nat.div_mod_eq k m), (Nat.mul_comm m).
  apply H.
  - apply Nat.Div0.div_lt_upper_bound. lia.
  - apply Nat.mod_upper_bound. assumption.
Qed.

Lemma mbuild_mget (M : matrix) :
  wf M -> mbuild (size1 M) (size2 M) (mget M) = M.
Proof.
  intros H. apply matrix_ext; try reflexivity; try assumption.
  - apply wf_mbuild.
  - intros i j Hi Hj. cbn [mbuild size1 size2] in Hi, Hj.
    apply mget_mbuild; assumption.
Qed.

Lemma mbuild_eq (M : matrix) (f : nat -> nat -> R) :
  wf M ->
  (forall i j, (i < size1 M)%nat -> (j < size2 M)%nat -> f i j = mget M i j) ->
  mbuild (size1 M) (size2 M) f = M.
Proof.
  intros Hwf H. transitivity (mbuild (size1 M) (size2 M) (mget M)).
  - apply mbuild_ext. assumption.
  - apply mbuild_mget. assumption.
Qed.

Lemma length_set_nth {A : Type} (n : nat) (v : A) (l : list A) :
  List.length (set_nth n v l) = List.length l.
Proof.
  revert n. induction l as [|h t IH]; intros [|n]; simpl; auto.
Qed.

Lemma nth_set_nth {A : Type} (n k : nat) (v d : A) (l : list A) :
  (n < List.length l)%nat ->
  nth k (set_nth n v l) d = if Nat.eqb k n then v else nth k l d.
Proof.
  revert n k. induction l as [|h t IH]; intros [|n] [|k] H; simpl in *;
    try lia; try reflexivity.
  apply IH. lia.
Qed.

Lemma wf_mset (M : matrix) (i j : nat) (v : R) : wf M -> wf (mset M i j v).
Proof.
  unfold wf, mset. cbn [size1 size2 data]. rewrite length_set_nth. auto.
Qed.

Lemma flat_index_inj (m i j i' j' : nat) :
  (j < m)%nat -> (j' < m)%nat ->
  (i * m + j = i' * m + j')%nat -> i = i' /\ j = j'.
Proof.
  intros Hj Hj' H. apply (Nat.div_mod_unique m); try assumption. lia.
Qed.

(** Reading a matrix after one assignment. *)
Lemma mget_mset (M : matrix) (i j i' j' : nat) (v : R) :
  wf M -> (i < size1 M)%nat -> (j < size2 M)%nat -> (j' < size2 M)%nat ->
  mget (mset M i j v) i' j'
  = if (Nat.eqb i' i && Nat.eqb j' j)%bool then v else mget M i' j'.
Proof.
  intros Hwf Hi Hj Hj'. unfold mget, mset. cbn [size1 size2 data].
  rewrite nth_set_nth by (rewrite Hwf; nia).
  destruct (Nat.eqb_spec (i' * size2 M + j') (i * size2 M + j)) as [E|E].
  - destruct (flat_index_inj _ _ _ _ _ Hj' Hj E) as [-> ->].
    rewrite !Nat.eqb_refl. reflexivity.
  - destruct (Nat.eqb_spec i' i) as [->|]; [|reflexivity].
    destruct (Nat.eqb_spec j' j) as [->|]; [|reflexivity].
    congruence.
Qed.

Lemma mget_identity (n i j : nat) :
  (i < n)%nat -> (j < n)%nat ->
  mget (identity_matrix n) i j = if Nat.eqb i j then 1 else 0.
Proof. intros. unfold identity_matrix. rewrite mget_mbuild; auto. Qed.

Lemma square_identity (n : nat) : square n (identity_matrix n).
Proof. repeat split. apply wf_mbuild. Qed.

Lemma mget_prod (A B : matrix) (i j : nat) :
  (i < size1 A)%nat -> (j < size2 B)%nat ->
  mget (prod A B) i j = sum_n (size2 A) (fun k => mget A i k * mget B k j).
Proof. intros. unfold prod. rewrite mget_mbuild; auto. Qed.

Lemma mget_trans (A : matrix) (i j : nat) :
  (i < size2 A)%nat -> (j < size1 A)%nat -> mget (trans A) i j = mget A j i.
Proof. intros. unfold trans. rewrite mget_mbuild; auto. Qed.

(** The identity is a left and a right unit of [prod]. *)
Lemma prod_identity_l (M : matrix) :
  wf M -> prod (identity_matrix (size1 M)) M = M.
Proof.
  intros H. apply matrix_ext; try assumption; try reflexivity.
  - apply wf_mbuild.
  - cbn [prod mbuild size1 size2 identity_matrix]. intros i j Hi Hj.
    rewrite mget_prod by assumption.
    cbn [identity_matrix mbuild size2].
    rewrite (sum_n_single _ i) by
      (first [assumption
             |intros k Hk Hne; rewrite mget_identity by assumption;
              destruct (Nat.eqb_spec i k); [congruence|ring]]).
    rewrite mget_identity, Nat.eqb_refl by assumption. ring.
Qed.

Lemma prod_identity_r (M : matrix) :
  wf M -> prod M (identity_matrix (size2 M)) = M.
Proof.
  intros H. apply matrix_ext; try assumption; try reflexivity.
  - apply wf_mbuild.
  - cbn [prod mbuild size1 size2 identity_matrix]. intros i j Hi Hj.
    rewrite mget_prod by assumption.
    rewrite (sum_n_single _ j) by
      (first [assumption
             |intros k Hk Hne; rewrite mget_identity by assumption;
              destruct (Nat.eqb_spec k j); [congruence|ring]]).
    rewrite mget_identity, Nat.eqb_refl by assumption. ring.
Qed.

(** The congruence [T * S * trans T] of a symmetric [S] is symmetric. *)
Lemma congruence_symmetric (T S : matrix) :
  size2 T = size1 S -> size1 S = size2 S -> symmetric S ->
  symmetric (prod (prod T S) (trans T)).
Proof.
  intros HTS HS Hsym i j Hi Hj.
  cbn [prod trans mbuild size1 size2] in Hi, Hj.
  assert (E : forall a b, (a < size1 T)%nat -> (b < size1 T)%nat ->
    mget (prod (prod T S) (trans T)) a b
    = sum_n (size2 S) (fun k =>
        sum_n (size2 T) (fun l => mget T a l * mget S l k * mget T b k))).
  { intros a b Ha Hb.
    rewrite mget_prod by (cbn [prod trans mbuild size1 size2]; assumption).
    cbn [prod mbuild size2]. apply sum_n_ext. intros k Hk.
    rewrite mget_prod, mget_trans by (try assumption; lia).
    rewrite <- sum_n_scal_r. reflexivity. }
  rewrite !E by assumption.
  rewrite sum_n_swap. rewrite <- HS, <- HTS.
  apply sum_n_ext. intros k Hk. apply sum_n_ext. intros l Hl.
  rewrite (Hsym k l) by lia. ring.
Qed.

End MatrixFacts.

(** ** Inverting the identity *)

Section InverseIdentity.

Variable n : nat.

Local Abbreviation Id := (identity_matrix n).

Lemma mget_Id (i j : nat) :
  (i < n)%nat -> (j < n)%nat -> mget Id i j = if Nat.eqb i j then 1 else 0.
Proof. apply mget_identity. Qed.

Lemma mget_Id_diag (i : nat) : (i < n)%nat -> mget Id i i = 1.
Proof. intros H. rewrite mget_Id, Nat.eqb_refl by assumption. reflexivity. Qed.

Lemma index_norm_inf_loop_le (v : list R) (i k : nat) (t : R) :
  (forall x, In x v -> Rabs x <= t) -> index_norm_inf_loop v i k t = k.
Proof.
  revert i. induction v as [|x v IH]; intros i H; simpl; [reflexivity|].
  destruct (Rgt_dec (Rabs x) t) as [Hgt|_].
  - specialize (H x (or_introl eq_refl)). lra.
  - apply IH. intros y Hy. apply H. right. assumption.
Qed.

(** In column [i] of the identity the pivot is the diagonal entry. *)
Lemma index_norm_inf_identity (i : nat) :
  (i < n)%nat ->
  index_norm_inf (map (fun r => mget Id r i) (seq i (n - i))) = 0%nat.
Proof.
  intros Hi. replace (n - i)%nat with (S (n - i - 1)) by lia.
  unfold index_norm_inf. cbn [seq map index_norm_inf_loop].
  rewrite mget_Id_diag, Rabs_R1 by assumption. destruct (Rgt_dec 1 0) as [_|H]; [|lra].
  apply index_norm_inf_loop_le. intros x Hx.
  apply in_map_iff in Hx. destruct Hx as [r [<- Hr]].
  apply in_seq in Hr. rewrite mget_Id by lia.
  destruct (Nat.eqb_spec r i); [lia|]. rewrite Rabs_R0. lra.
Qed.

Lemma lu_factorize_step_identity (i : nat) (pm : list nat) :
  (i < n)%nat ->
  lu_factorize_step i (Id, pm, 0%nat) = (Id, pm, 0%nat).
Proof.
  intros Hi. unfold lu_factorize_step.
  assert (Hs1 : size1 Id = n) by reflexivity.
  assert (Hs2 : size2 Id = n) by reflexivity.
  rewrite Hs1, Hs2, index_norm_inf_identity, Nat.add_0_r by assumption.
  rewrite (mget_Id_diag i Hi). destruct (Rne_dec 1 0) as [_|H]; [|lra].
  rewrite Nat.eqb_refl. cbn [negb].
  assert (E1 : mbuild n n
             (fun r c => if (Nat.ltb i r && Nat.eqb c i)%bool
                         then mget Id r c * (1 / mget Id i i)
                         else mget Id r c) = Id).
  { apply (mbuild_eq Id); [apply wf_mbuild|]. intros r c Hr Hc.
    rewrite (mget_Id_diag i Hi).
    destruct (Nat.ltb i r && Nat.eqb c i)%bool; [field|reflexivity]. }
  rewrite E1. f_equal. f_equal.
  apply (mbuild_eq Id); [apply wf_mbuild|]. intros r c Hr Hc.
  change (size1 Id) with n in Hr. change (size2 Id) with n in Hc.
  destruct (Nat.ltb_spec i r) as [Hlt|]; [|reflexivity].
  cbn [andb]. destruct (Nat.ltb i c); [|reflexivity].
  rewrite (mget_Id r i) by assumption.
  destruct (Nat.eqb_spec r i); [lia|ring].
Qed.

Lemma lu_factorize_identity (pm : list nat) :
  lu_factorize Id pm = (Id, pm, 0%nat).
Proof.
  unfold lu_factorize. change (size1 Id) with n. change (size2 Id) with n.
  rewrite Nat.min_id.
  assert (H : forall k, (k <= n)%nat ->
            fold_left (fun acc i => lu_factorize_step i acc) (seq 0 k)
                      (Id, pm, 0%nat) = (Id, pm, 0%nat)).
  { induction k as [|k IH]; intros Hk; [reflexivity|].
    rewrite seq_S, fold_left_app, IH by lia. cbn [fold_left Nat.add].
    apply lu_factorize_step_identity. lia. }
  apply H. lia.
Qed.

Lemma swap_rows_identity (e : matrix) : swap_rows (seq 0 n) e = e.
Proof.
  unfold swap_rows. rewrite length_seq.
  assert (H : forall k, (k <= n)%nat ->
            fold_left (fun e i =>
               if negb (Nat.eqb i (nth i (seq 0 n) i))
               then swap_row e i (nth i (seq 0 n) i) else e) (seq 0 k) e = e).
  { induction k as [|k IH]; intros Hk; [reflexivity|].
    rewrite seq_S, fold_left_app, IH by lia. cbn [fold_left Nat.add].
    rewrite seq_nth by lia. cbn [Nat.add]. rewrite Nat.eqb_refl.
    reflexivity. }
  apply H. lia.
Qed.

Lemma solve_unit_lower_step_identity (e : matrix) (k : nat) :
  square n e -> (k < n)%nat -> solve_unit_lower_step Id e k = e.
Proof.
  intros (H1 & H2 & Hwf) Hk. unfold solve_unit_lower_step.
  apply mbuild_eq; [assumption|]. intros r c Hr Hc.
  destruct (Nat.ltb_spec k r) as [Hlt|]; [|reflexivity].
  rewrite (mget_Id r k) by lia.
  destruct (Nat.eqb_spec r k); [lia|ring].
Qed.

Lemma solve_upper_step_identity (e : matrix) (k : nat) :
  square n e -> (k < n)%nat -> solve_upper_step Id e k = e.
Proof.
  intros (H1 & H2 & Hwf) Hk. unfold solve_upper_step.
  assert (Hd : mget Id k k = 1) by (apply mget_Id_diag; assumption).
  assert (E1 : mbuild (size1 e) (size2 e)
             (fun r c => if Nat.eqb r k then mget e r c / mget Id k k
                         else mget e r c) = e).
  { apply mbuild_eq; [assumption|]. intros r c Hr Hc. rewrite Hd.
    destruct (Nat.eqb r k); [field|reflexivity]. }
  rewrite E1. apply mbuild_eq; [assumption|]. intros r c Hr Hc.
  destruct (Nat.ltb_spec r k) as [Hlt|]; [|reflexivity].
  rewrite (mget_Id r k) by lia.
  destruct (Nat.eqb_spec r k); [lia|ring].
Qed.

Lemma lu_substitute_identity (e : matrix) :
  square n e -> lu_substitute Id (seq 0 n) e = e.
Proof.
  intros Hsq. unfold lu_substitute. rewrite swap_rows_identity.
  assert (Hn : size1 e = n) by apply Hsq.
  assert (L : forall l, (forall k, In k l -> (k < n)%nat) ->
              fold_left (solve_unit_lower_step Id) l e = e).
  { induction l as [|k l IH]; intros Hl; [reflexivity|]. cbn [fold_left].
    rewrite solve_unit_lower_step_identity
      by (try assumption; apply Hl; left; reflexivity).
    apply IH. intros; apply Hl; right; assumption. }
  assert (U : forall l, (forall k, In k l -> (k < n)%nat) ->
              fold_left (solve_upper_step Id) l e = e).
  { induction l as [|k l IH]; intros Hl; [reflexivity|]. cbn [fold_left].
    rewrite solve_upper_step_identity
      by (try assumption; apply Hl; left; reflexivity).
    apply IH. intros; apply Hl; right; assumption. }
  rewrite L by (intros k Hk; apply in_seq in Hk; lia).
  apply U. intros k Hk. apply in_rev, in_seq in Hk. lia.
Qed.

(** Inverting the identity succeeds and gives the identity. *)
Lemma inverse_identity : inverse Id = Ok Id.
Proof.
  unfold inverse. change (size1 Id) with n.
  rewrite lu_factorize_identity. cbn [Nat.eqb negb].
  rewrite lu_substitute_identity by apply square_identity. reflexivity.
Qed.

End InverseIdentity.

(** ** Invariants *)

Ltac bind_inv H :=
  repeat match type of H with
  | bind ?r _ = Ok _ =>
      let E := fresh "E" in
      destruct r eqn:E; cbn [bind] in H; [|discriminate H]
  end.

Section Invariants.

Lemma square_mset (n : nat) (M : matrix) (i j : nat) (v : R) :
  square n M -> square n (mset M i j v).
Proof.
  intros (H1 & H2 & H3). repeat split; try assumption.
  apply wf_mset; assumption.
Qed.

Lemma square_Get2by2Matrix (n : nat) (L K : R) (ind : nat) (M : matrix) :
  square n M -> square n (Get2by2Matrix L K ind M).
Proof.
  intros H. unfold Get2by2Matrix.
  repeat match goal with
         | |- context [if ?d then _ else _] => destruct d
         end; repeat apply square_mset; assumption.
Qed.

Lemma square_solenoid_matrix (n : nat) (L K : R) (M : matrix) :
  square n M -> square n (solenoid_matrix L K M).
Proof.
  intros H. unfold solenoid_matrix.
  destruct (Rne_dec K 0); repeat apply square_mset; assumption.
Qed.

Lemma square_drift_matrix (n : nat) (L : R) (M : matrix) :
  square n M -> square n (drift_matrix L M).
Proof. intros H. unfold drift_matrix. repeat apply square_mset; assumption. Qed.

Lemma length_copy_into (init dst : list R) :
  (List.length init <= List.length dst)%nat ->
  List.length (copy_into init dst) = List.length dst.
Proof.
  intros H. unfold copy_into. rewrite length_app, length_skipn. lia.
Qed.

(** What a successful base constructor has read and built. *)
Lemma Moment2ElementBase_ctor_inv (c : Config) (indet : nat -> R)
      (b : Moment2ElementBase) :
  Moment2ElementBase_ctor c indet = Ok b ->
  exists v Frf Es,
    ElementVoid_ctor c = Ok v /\ get_double c "Frf" = Ok Frf /\
    get_double c "IonEs" = Ok Es /\
    b = mkBase v (get_double_def c "L" 0) (C0 / Frf * MtoMM)
               (get_double_def c "L" 0 * 2 * M_PI / (C0 / Frf * MtoMM)) Es
               (uninitialised indet 0) (identity_matrix maxsize)
               (identity_matrix maxsize) (identity_matrix maxsize)
               (uninitialised indet (maxsize * maxsize)) None.
Proof.
  unfold Moment2ElementBase_ctor. intros H.
  destruct (ElementVoid_ctor c) as [v|] eqn:Ev; cbn [bind] in H;
    [|discriminate].
  destruct (get_double c "Frf") as [f|] eqn:Ef; cbn [bind] in H;
    [|discriminate].
  destruct (get_double c "IonEs") as [es|] eqn:Ee; cbn [bind] in H;
    [|discriminate].
  rewrite inverse_identity in H. cbn [bind] in H.
  exists v, f, es. repeat split. congruence.
Qed.

(** The base constructor succeeds as soon as its three reads do. *)
Lemma Moment2ElementBase_ctor_ok (c : Config) (indet : nat -> R)
      (v : ElementVoid) (Frf Es : R) :
  ElementVoid_ctor c = Ok v -> get_double c "Frf" = Ok Frf ->
  get_double c "IonEs" = Ok Es ->
  Moment2ElementBase_ctor c indet
  = Ok (mkBase v (get_double_def c "L" 0) (C0 / Frf * MtoMM)
               (get_double_def c "L" 0 * 2 * M_PI / (C0 / Frf * MtoMM)) Es
               (uninitialised indet 0) (identity_matrix maxsize)
               (identity_matrix maxsize) (identity_matrix maxsize)
               (uninitialised indet (maxsize * maxsize)) None).
Proof.
  intros Hv Hf He. unfold Moment2ElementBase_ctor.
  rewrite Hv, Hf, He. cbn [bind]. rewrite inverse_identity. reflexivity.
Qed.

Lemma base_inv_ctor (c : Config) (indet : nat -> R) (b : Moment2ElementBase) :
  Moment2ElementBase_ctor c indet = Ok b ->
  base_inv b /\ energy_cache b = None.
Proof.
  intros H. apply Moment2ElementBase_ctor_inv in H.
  destruct H as (v & f & es & _ & _ & _ & ->).
  split; [|reflexivity].
  constructor; cbn; try reflexivity; [apply square_identity | left; reflexivity].
Qed.

Lemma base_inv_with_transfer_raw (b : Moment2ElementBase) (M : matrix) :
  base_inv b -> energy_cache b = None -> square maxsize M ->
  base_inv (with_transfer_raw b M).
Proof.
  intros [H1 H2 H3 H4] Hc HM. constructor; cbn; auto.
Qed.

Lemma build_inv (t : etype) (c : Config) (indet : nat -> R) (e : Element) :
  build t c indet = Ok e ->
  base_inv (base e) /\ energy_cache (base e) = None.
Proof.
  destruct t; cbn [build];
    [unfold ElementSource_ctor | unfold ElementMark_ctor
    |unfold ElementDrift_ctor | unfold ElementSBend_ctor
    |unfold ElementQuad_ctor | unfold ElementSolenoid_ctor
    |unfold ElementRFCavity_ctor | unfold ElementStripper_ctor
    |unfold ElementEDipole_ctor | unfold ElementGeneric_ctor];
    intros H;
    (destruct (Moment2ElementBase_ctor c indet) as [b|] eqn:Eb;
     cbn [bind] in H; [|discriminate]);
    destruct (base_inv_ctor _ _ _ Eb) as [Hb Hc];
    bind_inv H.
  - inversion H; subst. auto.
  - inversion H; subst. destruct Hb. split; [constructor|]; cbn; auto.
  - inversion H; subst. cbn [base]. split; [|exact Hc].
    apply base_inv_with_transfer_raw; auto.
    apply square_drift_matrix, Hb.
  - inversion H; subst. cbn [base]. split; [|exact Hc].
    apply base_inv_with_transfer_raw; auto.
    repeat apply square_Get2by2Matrix. apply Hb.
  - inversion H; subst. cbn [base]. split; [|exact Hc].
    apply base_inv_with_transfer_raw; auto.
    repeat apply square_Get2by2Matrix. apply Hb.
  - inversion H; subst. cbn [base]. split; [|exact Hc].
    apply base_inv_with_transfer_raw; auto.
    apply square_solenoid_matrix, Hb.
  - inversion H; subst. cbn [base]. split; [|exact Hc].
    apply base_inv_with_transfer_raw; auto.
    apply square_drift_matrix, Hb.
  - inversion H; subst. auto.
  - inversion H; subst. auto.
  - destruct (Nat.ltb_spec (List.length (data (transfer_raw b)))
                           (List.length a)) as [Hlt|Hle]; [discriminate|].
    inversion H; subst. cbn [base]. split; [|exact Hc].
    apply base_inv_with_transfer_raw; auto.
    destruct Hb as [_ _ (H1 & H2 & H3) _]. repeat split; cbn; auto.
    unfold wf in *. cbn. rewrite length_copy_into; assumption.
Qed.

End Invariants.

Section AdvanceFacts.

Lemma cache_miss_None (b : Moment2ElementBase) (ST : Moment2State) :
  energy_cache b = None -> cache_miss b ST = true.
Proof. unfold cache_miss. intros ->. reflexivity. Qed.

(** [energy_step] runs its body exactly on a cache miss. *)
Lemma energy_step_miss body (b : Moment2ElementBase) (ST : Moment2State) :
  cache_miss b ST = true -> energy_step body b ST = body b ST.
Proof.
  unfold cache_miss, energy_step. destruct (energy_cache b) as [k|]; auto.
  destruct (Rne_dec (Ekinetic ST) (last_Kenergy_in k)); auto. discriminate.
Qed.

Lemma energy_step_hit body (b : Moment2ElementBase) (ST : Moment2State) :
  cache_miss b ST = false ->
  exists k, energy_cache b = Some k /\ last_Kenergy_in k = Ekinetic ST /\
            energy_step body b ST = (b, k).
Proof.
  unfold cache_miss, energy_step. destruct (energy_cache b) as [k|];
    [|discriminate].
  destruct (Rne_dec (Ekinetic ST) (last_Kenergy_in k)); [discriminate|].
  intros _. exists k. auto.
Qed.

(** After the [if], the keys returned are the keys the element holds, and
    the input key is the energy of the state. *)
Lemma energy_step_keys body (b b1 : Moment2ElementBase) (ST : Moment2State)
      (k : cache_keys) :
  (forall b' k', body b ST = (b', k') ->
                 energy_cache b' = Some k' /\ last_Kenergy_in k' = Ekinetic ST) ->
  energy_step body b ST = (b1, k) ->
  energy_cache b1 = Some k /\ last_Kenergy_in k = Ekinetic ST.
Proof.
  intros Hbody H. destruct (cache_miss b ST) eqn:Hm.
  - rewrite energy_step_miss in H by assumption. auto.
  - destruct (energy_step_hit body b ST Hm) as (k0 & Hk & Hin & E).
    rewrite E in H. inversion H; subst. auto.
Qed.

Lemma recompute_keys (b b' : Moment2ElementBase) (ST : Moment2State)
      (k' : cache_keys) :
  recompute b ST = (b', k') ->
  energy_cache b' = Some k' /\ last_Kenergy_in k' = Ekinetic ST.
Proof. unfold recompute. intros H. inversion H; subst. auto. Qed.

Lemma recompute_rf_keys (b b' : Moment2ElementBase) (ST : Moment2State)
      (k' : cache_keys) :
  recompute_rf b ST = (b', k') ->
  energy_cache b' = Some k' /\ last_Kenergy_in k' = Ekinetic ST.
Proof. unfold recompute_rf. intros H. inversion H; subst. auto. Qed.

(** With an identity misalignment the similarity composition returns the
    raw matrix. *)
Lemma recompute_transfer (b : Moment2ElementBase) (ST : Moment2State) :
  base_inv b ->
  transfer (fst (recompute b ST)) = transfer_raw (fst (recompute b ST)).
Proof.
  intros [Hm Hi Hraw _]. unfold recompute. cbn [fst transfer transfer_raw].
  rewrite Hm, Hi.
  assert (Hsq : square maxsize
                  (mset (transfer_raw b) PS_S PS_PS (energy_term b ST)))
    by (apply square_mset; assumption).
  destruct Hsq as (H1 & H2 & Hwf).
  rewrite <- H1 at 1. rewrite prod_identity_l by assumption.
  rewrite <- H2 at 1. apply prod_identity_r. assumption.
Qed.

Lemma base_inv_recompute (b : Moment2ElementBase) (ST : Moment2State) :
  base_inv b -> base_inv (fst (recompute b ST)).
Proof.
  intros Hb. pose proof (recompute_transfer b ST Hb) as Ht.
  destruct Hb as [Hm Hi Hraw Hc].
  constructor; try assumption.
  - apply square_mset. assumption.
  - right. assumption.
Qed.

Lemma base_inv_recompute_rf (b : Moment2ElementBase) (ST : Moment2State) :
  base_inv b -> base_inv (fst (recompute_rf b ST)).
Proof.
  intros [Hm Hi Hraw Hc]. constructor; try assumption.
  - apply square_mset. assumption.
  - right. reflexivity.
Qed.

Lemma base_inv_with_scratch (b : Moment2ElementBase) (M : matrix) :
  base_inv b -> base_inv (with_scratch b M).
Proof. intros [H1 H2 H3 H4]. constructor; assumption. Qed.

(** After the [if] the effective transfer is the raw one, whether the
    branch was taken or not. *)
Lemma energy_step_inv body (b b1 : Moment2ElementBase) (ST : Moment2State)
      (k : cache_keys) :
  (base_inv b -> base_inv (fst (body b ST))) ->
  (forall b' k', body b ST = (b', k') ->
                 energy_cache b' = Some k' /\ last_Kenergy_in k' = Ekinetic ST) ->
  base_inv b -> energy_step body b ST = (b1, k) ->
  base_inv b1 /\ transfer b1 = transfer_raw b1.
Proof.
  intros Hbody Hkeys Hb H.
  assert (Hb1 : base_inv b1).
  { destruct (cache_miss b ST) eqn:Hm.
    - rewrite energy_step_miss in H by assumption.
      specialize (Hbody Hb). rewrite H in Hbody. exact Hbody.
    - destruct (energy_step_hit body b ST Hm) as (k0 & _ & _ & E).
      rewrite E in H. inversion H; subst. assumption. }
  split; [assumption|].
  destruct (energy_step_keys body b b1 ST k Hkeys H) as [Hc _].
  destruct (inv_transfer b1 Hb1) as [Hn|Ht]; [congruence|assumption].
Qed.

Lemma advance_inv (e : Element) (ST : Moment2State) :
  element_inv e -> element_inv (fst (advance e ST)).
Proof.
  intros [Hb Hk].
  assert (Hdef : forall b,
    base_inv b ->
    (match energy_cache b with
     | None => True
     | Some k => last_Kenergy_out k = last_Kenergy_in k
     end) ->
    let b' := fst (Moment2ElementBase_advance b ST) in
    base_inv b' /\
    match energy_cache b' with
    | None => True
    | Some k => last_Kenergy_out k = last_Kenergy_in k
    end).
  { intros b Hbi Hki. unfold Moment2ElementBase_advance.
    destruct (energy_step recompute b ST) as [b1 k] eqn:E.
    cbn [transport fst with_scratch energy_cache].
    destruct (energy_step_inv _ _ _ _ _ (base_inv_recompute b ST)
                              (fun b' k' => recompute_keys b b' ST k') Hbi E) as [Hb1 _].
    split; [apply base_inv_with_scratch; assumption|].
    destruct (cache_miss b ST) eqn:Hm.
    - rewrite energy_step_miss in E by assumption.
      unfold recompute in E. inversion E; subst. reflexivity.
    - destruct (energy_step_hit recompute b ST Hm) as (k0 & Hc & _ & E').
      rewrite E' in E. inversion E; subst. rewrite Hc in *. assumption. }
  unfold element_inv, keys_ok.
  destruct e; cbn [advance base] in *;
    try (destruct (Moment2ElementBase_advance b ST) as [b' ST'] eqn:E;
         cbn [fst rebase base];
         specialize (Hdef b Hb Hk); rewrite E in Hdef; exact Hdef).
  - split; assumption.
  - unfold ElementRFCavity_advance.
    destruct (energy_step recompute_rf b ST) as [b1 k] eqn:E.
    cbn [transport fst with_scratch energy_cache base].
    destruct (energy_step_inv _ _ _ _ _ (base_inv_recompute_rf b ST)
                              (fun b' k' => recompute_rf_keys b b' ST k') Hb E) as [Hb1 _].
    split; [apply base_inv_with_scratch; assumption|].
    destruct (cache_miss b ST) eqn:Hm.
    + rewrite energy_step_miss in E by assumption.
      unfold recompute_rf in E. inversion E; subst. reflexivity.
    + destruct (energy_step_hit recompute_rf b ST Hm) as (k0 & Hc & _ & E').
      rewrite E' in E. inversion E; subst.
      unfold keys_ok in Hk. cbn [base] in Hk. rewrite Hc in *. assumption.
Qed.

Lemma base_rebase (e : Element) (b : Moment2ElementBase) :
  base (rebase e b) = b.
Proof. destruct e; reflexivity. Qed.

Lemma assign_inv (e o : Element) :
  element_inv e -> element_inv o ->
  element_inv (rebase e (Moment2ElementBase_assign (base e) (base o))).
Proof.
  intros [[He1 He2 He3 He4] _] [[Ho1 Ho2 Ho3 Ho4] _].
  unfold element_inv, keys_ok. rewrite base_rebase. cbn.
  split; [|exact I]. constructor; cbn; auto.
Qed.

(** The invariants hold throughout the lifetime of an element. *)
Lemma lifetime_inv (e : Element) : lifetime e -> element_inv e.
Proof.
  induction 1 as [t c indet e Hb | e ST _ IH | e o _ IHe _ IHo].
  - destruct (build_inv _ _ _ _ Hb) as [Hi Hc].
    split; [assumption|]. unfold keys_ok. rewrite Hc. exact I.
  - apply advance_inv. assumption.
  - apply assign_inv; assumption.
Qed.

End AdvanceFacts.

(** ** The samples *)

Section Samples.

Lemma sample_base_built :
  Moment2ElementBase_ctor sample_conf sample_indet = Ok sample_base.
Proof.
  apply (Moment2ElementBase_ctor_ok sample_conf sample_indet
           (mkVoid "e1" 0 sample_conf) 80500000 931494320); reflexivity.
Qed.

Lemma sample_drift_built : build drift sample_conf sample_indet = Ok sample_drift.
Proof.
  cbn [build]. unfold ElementDrift_ctor. rewrite sample_base_built.
  reflexivity.
Qed.

Lemma sample_rfcavity_built :
  build rfcavity sample_conf sample_indet = Ok sample_rfcavity.
Proof.
  cbn [build]. unfold ElementRFCavity_ctor. rewrite sample_base_built.
  reflexivity.
Qed.

Lemma sample_state_built : Moment2State_ctor [] = Ok sample_state.
Proof. reflexivity. Qed.

Lemma sample_drift_lifetime : lifetime sample_drift.
Proof. exact (life_built _ _ _ _ sample_drift_built). Qed.

Lemma sample_rfcavity_lifetime : lifetime sample_rfcavity.
Proof. exact (life_built _ _ _ _ sample_rfcavity_built). Qed.

Lemma symmetric_identity (n : nat) : symmetric (identity_matrix n).
Proof.
  intros i j Hi Hj. cbn in Hi, Hj. rewrite !mget_identity by assumption.
  rewrite (Nat.eqb_sym j i). reflexivity.
Qed.

End Samples.

(** ** The default advance *)

Section DefaultAdvance.

Lemma energy_step_scalars body (b b1 : Moment2ElementBase)
      (ST : Moment2State) (k : cache_keys) :
  (forall b' k', body b ST = (b', k') ->
                 length b' = length b /\ phase_factor b' = phase_factor b) ->
  energy_step body b ST = (b1, k) ->
  length b1 = length b /\ phase_factor b1 = phase_factor b.
Proof.
  intros Hbody H. destruct (cache_miss b ST) eqn:Hm.
  - rewrite energy_step_miss in H by assumption. exact (Hbody _ _ H).
  - destruct (energy_step_hit body b ST Hm) as (k0 & _ & _ & E).
    rewrite E in H. inversion H; subst. auto.
Qed.

Lemma advance_default (e : Element) (ST : Moment2State) :
  default_advance e = true ->
  advance e ST = (rebase e (fst (Moment2ElementBase_advance (base e) ST)),
                  snd (Moment2ElementBase_advance (base e) ST)).
Proof.
  destruct e; cbn [default_advance]; intros H; try discriminate;
    cbn [advance base];
    destruct (Moment2ElementBase_advance b ST); reflexivity.
Qed.

(** What the default algorithm does to a state, in terms of the element
    as the call leaves it. *)
Lemma Moment2ElementBase_advance_spec (b : Moment2ElementBase)
      (ST : Moment2State) :
  exists k,
    energy_cache (fst (Moment2ElementBase_advance b ST)) = Some k /\
    last_Kenergy_in k = Ekinetic ST /\
    snd (Moment2ElementBase_advance b ST)
    = mkState (next_elem ST) (pos ST + length b) (last_Kenergy_out k)
        (sync_phase ST + phase_factor b / beta ST) (gamma ST) (beta ST)
        (prod_mv (transfer (fst (Moment2ElementBase_advance b ST)))
                 (moment0 ST))
        (prod (prod (transfer (fst (Moment2ElementBase_advance b ST)))
                    (state ST))
              (trans (transfer (fst (Moment2ElementBase_advance b ST))))).
Proof.
  unfold Moment2ElementBase_advance.
  destruct (energy_step recompute b ST) as [b1 k] eqn:E.
  destruct (energy_step_keys _ _ _ _ _
              (fun b' k' => recompute_keys b b' ST k') E) as [Hc Hin].
  assert (Hs : length b1 = length b /\ phase_factor b1 = phase_factor b).
  { apply (energy_step_scalars recompute b b1 ST k); [|assumption].
    unfold recompute. intros b' k' H. inversion H; subst. auto. }
  destruct Hs as [Hl Hp].
  exists k. cbn [transport fst snd with_scratch energy_cache transfer].
  rewrite Hl, Hp. auto.
Qed.

Lemma default_advance_beta_gamma (e : Element) (ST : Moment2State) :
  default_advance e = true ->
  gamma (snd (advance e ST)) = gamma ST /\ beta (snd (advance e ST)) = beta ST.
Proof.
  intros Hd. rewrite (advance_default e ST Hd). cbn [snd].
  destruct (Moment2ElementBase_advance_spec (base e) ST) as (k & _ & _ & Hs).
  rewrite Hs. split; reflexivity.
Qed.

Lemma advance_default_shape (e : Element) (ST : Moment2State) :
  default_advance e = true ->
  exists k,
    snd (advance e ST)
    = mkState (next_elem ST) (pos ST + length (base e)) (last_Kenergy_out k)
        (sync_phase ST + phase_factor (base e) / beta ST) (gamma ST) (beta ST)
        (prod_mv (transfer (base (fst (advance e ST)))) (moment0 ST))
        (prod (prod (transfer (base (fst (advance e ST)))) (state ST))
              (trans (transfer (base (fst (advance e ST)))))).
Proof.
  intros Hd. rewrite (advance_default e ST Hd). cbn [fst snd].
  rewrite base_rebase.
  destruct (Moment2ElementBase_advance_spec (base e) ST) as (k & _ & _ & Hs).
  exists k. assumption.
Qed.

End DefaultAdvance.

(** C1.  For every state and every element that runs the default advance,
    the call adds the element's length to the position, sets the kinetic
    energy to the cached output energy, adds phase_factor / beta to the
    synchronous phase, maps moment0 by the transfer matrix and the second
    moments by the congruence transfer * state * trans(transfer); the
    other fields of the state (next_elem, gamma, beta) are unchanged. *)
Theorem default_advance_updates_state (e : Element) (ST : Moment2State) :
  default_advance e = true ->
  exists k,
    energy_cache (base (fst (advance e ST))) = Some k /\
    snd (advance e ST)
    = mkState (next_elem ST) (pos ST + length (base e)) (last_Kenergy_out k)
        (sync_phase ST + phase_factor (base e) / beta ST) (gamma ST) (beta ST)
        (prod_mv (transfer (base (fst (advance e ST)))) (moment0 ST))
        (prod (prod (transfer (base (fst (advance e ST)))) (state ST))
              (trans (transfer (base (fst (advance e ST)))))).
Proof.
  intros Hd. rewrite (advance_default e ST Hd). cbn [fst snd].
  rewrite base_rebase.
  destruct (Moment2ElementBase_advance_spec (base e) ST) as (k & Hc & _ & Hs).
  exists k. auto.
Qed.

Lemma default_advance_updates_state_witness :
  exists k,
    energy_cache (base (fst (advance sample_drift sample_state))) = Some k /\
    snd (advance sample_drift sample_state)
    = mkState (next_elem sample_state)
        (pos sample_state + length (base sample_drift)) (last_Kenergy_out k)
        (sync_phase sample_state
         + phase_factor (base sample_drift) / beta sample_state)
        (gamma sample_state) (beta sample_state)
        (prod_mv (transfer (base (fst (advance sample_drift sample_state))))
                 (moment0 sample_state))
        (prod (prod (transfer (base (fst (advance sample_drift sample_state))))
                    (state sample_state))
              (trans (transfer (base (fst (advance sample_drift sample_state)))))).
Proof.
  apply (default_advance_updates_state sample_drift sample_state). reflexivity.
Defined.

(** ** The RF cavity and the energy of the state *)

Section EnergyFacts.

Lemma ElementRFCavity_advance_spec (b : Moment2ElementBase)
      (ST : Moment2State) :
  exists k,
    energy_cache (fst (ElementRFCavity_advance b ST)) = Some k /\
    last_Kenergy_in k = Ekinetic ST /\
    snd (ElementRFCavity_advance b ST)
    = mkState (next_elem ST) (pos ST + length b) (last_Kenergy_out k)
        (sync_phase ST + phase_factor b / beta ST) (gamma ST) (beta ST)
        (prod_mv (transfer (fst (ElementRFCavity_advance b ST)))
                 (moment0 ST))
        (prod (prod (transfer (fst (ElementRFCavity_advance b ST)))
                    (state ST))
              (trans (transfer (fst (ElementRFCavity_advance b ST))))).
Proof.
  unfold ElementRFCavity_advance.
  destruct (energy_step recompute_rf b ST) as [b1 k] eqn:E.
  destruct (energy_step_keys _ _ _ _ _
              (fun b' k' => recompute_rf_keys b b' ST k') E) as [Hc Hin].
  assert (Hs : length b1 = length b /\ phase_factor b1 = phase_factor b).
  { apply (energy_step_scalars recompute_rf b b1 ST k); [|assumption].
    unfold recompute_rf. intros b' k' H. inversion H; subst. auto. }
  destruct Hs as [Hl Hp].
  exists k. cbn [transport fst snd with_scratch energy_cache transfer].
  rewrite Hl, Hp. auto.
Qed.

(** A passive element in its lifetime hands the energy through. *)
Lemma default_advance_energy (e : Element) (ST : Moment2State) :
  lifetime e -> default_advance e = true ->
  Ekinetic (snd (advance e ST)) = Ekinetic ST /\
  energy_cache (base (fst (advance e ST)))
  = Some (mkKeys (Ekinetic ST) (Ekinetic ST)).
Proof.
  intros Hl Hd.
  pose proof (lifetime_inv _ (life_advance e ST Hl)) as [_ Hk].
  unfold keys_ok in Hk.
  assert (Hnrf : match fst (advance e ST) with
                 | ElementRFCavity _ => False
                 | _ => True
                 end).
  { rewrite (advance_default e ST Hd). cbn [fst].
    destruct e; try discriminate Hd; exact I. }
  rewrite (advance_default e ST Hd) in *. cbn [fst snd] in *.
  rewrite base_rebase in *.
  destruct (Moment2ElementBase_advance_spec (base e) ST)
    as (k & Hc & Hin & Hs).
  rewrite Hc in *. rewrite Hs. cbn [Ekinetic].
  assert (Hout : last_Kenergy_out k = last_Kenergy_in k)
    by (destruct (rebase e _); try assumption; contradiction).
  destruct k as [kin kout]. cbn in *. subst. auto.
Qed.

(** An RF cavity in its lifetime adds 1 to the energy it caches. *)
Lemma rf_advance_energy (b : Moment2ElementBase) (ST : Moment2State) :
  lifetime (ElementRFCavity b) ->
  Ekinetic (snd (ElementRFCavity_advance b ST)) = Ekinetic ST + 1 /\
  energy_cache (fst (ElementRFCavity_advance b ST))
  = Some (mkKeys (Ekinetic ST) (Ekinetic ST + 1)).
Proof.
  intros Hl.
  pose proof (lifetime_inv _ (life_advance _ ST Hl)) as [_ Hk].
  unfold keys_ok in Hk. cbn [advance] in Hk.
  destruct (ElementRFCavity_advance_spec b ST) as (k & Hc & Hin & Hs).
  destruct (ElementRFCavity_advance b ST) as [b' ST'].
  cbn [fst snd base] in *. rewrite Hc in *. rewrite Hs. cbn [Ekinetic].
  destruct k as [kin kout]. cbn in *. subst. auto.
Qed.

End EnergyFacts.

(** C2 amended.  No advance recomputes beta or gamma.  An element in its
    lifetime that runs the default advance leaves kineticEnergy, beta and
    gamma as they were, so beta and gamma remain the factors derived from
    the kinetic energy when they were before the call; the RF cavity raises
    the kinetic energy by 1 and leaves beta and gamma at their previous
    values; the source replaces the three by those of the state it holds. *)
Theorem advance_keeps_beta_gamma (e : Element) (ST : Moment2State) :
  lifetime e ->
  (default_advance e = true ->
   gamma (snd (advance e ST)) = gamma ST /\
   beta (snd (advance e ST)) = beta ST /\
   Ekinetic (snd (advance e ST)) = Ekinetic ST /\
   forall Es, relativistic Es ST -> relativistic Es (snd (advance e ST))) /\
  (forall b, e = ElementRFCavity b ->
   gamma (snd (advance e ST)) = gamma ST /\
   beta (snd (advance e ST)) = beta ST /\
   Ekinetic (snd (advance e ST)) = Ekinetic ST + 1) /\
  (forall b istate, e = ElementSource b istate ->
   gamma (snd (advance e ST)) = gamma istate /\
   beta (snd (advance e ST)) = beta istate /\
   Ekinetic (snd (advance e ST)) = Ekinetic istate).
Proof.
  intros Hl. split; [|split].
  - intros Hd.
    destruct (default_advance_energy e ST Hl Hd) as [HE _].
    destruct (default_advance_beta_gamma e ST Hd) as [Hg Hb].
    repeat split; try assumption.
    + unfold relativistic in *. rewrite Hg, HE. tauto.
    + unfold relativistic in *. rewrite Hb, Hg. tauto.
  - intros b ->. cbn [advance].
    destruct (rf_advance_energy b ST Hl) as [HE _].
    destruct (ElementRFCavity_advance_spec b ST) as (k & _ & _ & Hs).
    destruct (ElementRFCavity_advance b ST) as [b' ST'].
    cbn [fst snd] in *. split; [|split]; [| |assumption];
      rewrite Hs; reflexivity.
  - intros b istate ->. cbn. auto.
Qed.

Lemma advance_keeps_beta_gamma_witness :
  gamma (snd (advance sample_rfcavity sample_state)) = gamma sample_state /\
  beta (snd (advance sample_rfcavity sample_state)) = beta sample_state /\
  Ekinetic (snd (advance sample_rfcavity sample_state))
  = Ekinetic sample_state + 1.
Proof.
  destruct (advance_keeps_beta_gamma sample_rfcavity sample_state
              sample_rfcavity_lifetime) as (_ & H & _).
  exact (H _ eq_refl).
Defined.

(** C2 as stated fails: the state built from an empty configuration has
    the factors derived from its energy, with the rest energy 1 of its
    constructor and with the rest energy of the sample cavity alike; after
    the cavity its energy is 1 and gamma is still the one of energy 0,
    which is derived from the new energy with neither rest energy. *)
Lemma advance_recomputes_beta_gamma_counterexample :
  build rfcavity sample_conf sample_indet = Ok sample_rfcavity /\
  Moment2State_ctor [] = Ok sample_state /\
  relativistic 1 sample_state /\
  relativistic (Erest (base sample_rfcavity)) sample_state /\
  Ekinetic (snd (advance sample_rfcavity sample_state)) = 1 /\
  gamma (snd (advance sample_rfcavity sample_state)) = 1 /\
  ~ relativistic 1 (snd (advance sample_rfcavity sample_state)) /\
  ~ relativistic (Erest (base sample_rfcavity))
      (snd (advance sample_rfcavity sample_state)).
Proof.
  split; [exact sample_rfcavity_built|].
  split; [exact sample_state_built|].
  split; [split; reflexivity|].
  split; [split; [cbn; unfold gamma_of; field | reflexivity]|].
  assert (HE : Ekinetic (snd (advance sample_rfcavity sample_state)) = 1).
  { unfold sample_rfcavity. cbn [advance].
    destruct (rf_advance_energy _ sample_state sample_rfcavity_lifetime)
      as [HE _].
    destruct (ElementRFCavity_advance _ sample_state) as [b' ST'].
    cbn [snd] in *. rewrite HE. cbn. ring. }
  assert (Hg : gamma (snd (advance sample_rfcavity sample_state)) = 1).
  { unfold sample_rfcavity. cbn [advance].
    destruct (ElementRFCavity_advance_spec
                (with_transfer_raw sample_base
                   (drift_matrix (2 * MtoMM) (identity_matrix maxsize)))
                sample_state) as (k & _ & _ & Hs).
    destruct (ElementRFCavity_advance _ sample_state) as [b' ST'].
    cbn [snd] in *. rewrite Hs. cbn. unfold gamma_of. field. }
  split; [exact HE|]. split; [exact Hg|].
  split; intros [H _]; rewrite HE, Hg in H; unfold gamma_of in H.
  - lra.
  - cbn in H.
    assert (H2 : (1 + 931494320) / 931494320 = 1 + / 931494320) by field.
    rewrite H2 in H.
    pose proof (Rinv_0_lt_compat 931494320 ltac:(lra)). lra.
Qed.

(** C4.  On a cache miss the RF cavity writes the energy term into
    transfer_raw, takes transfer_raw itself as the effective transfer
    (the scratch product of the default algorithm is not formed) and
    caches the keys (E, E + 1); after every call of a cavity in its
    lifetime the state's kinetic energy is the cached input energy plus 1. *)
Theorem rf_cavity_advance (b : Moment2ElementBase) (ST : Moment2State) :
  lifetime (ElementRFCavity b) ->
  (cache_miss b ST = true ->
   transfer_raw (fst (ElementRFCavity_advance b ST))
   = mset (transfer_raw b) PS_S PS_PS (energy_term b ST) /\
   transfer (fst (ElementRFCavity_advance b ST))
   = transfer_raw (fst (ElementRFCavity_advance b ST)) /\
   energy_cache (fst (ElementRFCavity_advance b ST))
   = Some (mkKeys (Ekinetic ST) (Ekinetic ST + 1))) /\
  exists k,
    energy_cache (fst (ElementRFCavity_advance b ST)) = Some k /\
    last_Kenergy_in k = Ekinetic ST /\
    last_Kenergy_out k = last_Kenergy_in k + 1 /\
    Ekinetic (snd (ElementRFCavity_advance b ST)) = last_Kenergy_in k + 1.
Proof.
  intros Hl. split.
  - intros Hm. unfold ElementRFCavity_advance.
    rewrite energy_step_miss by assumption. unfold recompute_rf.
    cbn. auto.
  - destruct (rf_advance_energy b ST Hl) as [HE Hc].
    exists (mkKeys (Ekinetic ST) (Ekinetic ST + 1)). cbn. auto.
Qed.

Lemma rf_cavity_advance_witness :
  transfer (fst (ElementRFCavity_advance (base sample_rfcavity) sample_state))
  = mset (transfer_raw (base sample_rfcavity)) PS_S PS_PS
         (energy_term (base sample_rfcavity) sample_state) /\
  exists k,
    energy_cache
      (fst (ElementRFCavity_advance (base sample_rfcavity) sample_state))
    = Some k /\
    last_Kenergy_in k = Ekinetic sample_state /\
    last_Kenergy_out k = last_Kenergy_in k + 1 /\
    Ekinetic (snd (ElementRFCavity_advance (base sample_rfcavity) sample_state))
    = last_Kenergy_in k + 1.
Proof.
  destruct (rf_cavity_advance (base sample_rfcavity) sample_state
              sample_rfcavity_lifetime) as [Hm Hk].
  destruct (Hm eq_refl) as (Hraw & Ht & _).
  split; [rewrite Ht; exact Hraw | exact Hk].
Defined.

(** ** The drift limit of the quadrupole and of the solenoid *)

Ltac mcompute :=
  cbv [drift_matrix identity_matrix maxsize mbuild mset mget
       PS_X PS_PX PS_Y PS_PY PS_S PS_PS size1 size2 data
       flat_map map seq app Nat.eqb set_nth nth Nat.add Nat.mul andb orb].

Section DriftLimit.

Lemma Get2by2Matrix_K0 (L : R) (ind : nat) (M : matrix) :
  Get2by2Matrix L 0 ind M
  = mset (mset (mset (mset M (ind + 1) (ind + 1) 1) ind ind 1)
               ind (ind + 1) L)
         (ind + 1) ind 0.
Proof.
  unfold Get2by2Matrix. destruct (Rgt_dec 0 0) as [H|_]; [lra|].
  rewrite Ropp_0, sqrt_0, Rmult_0_l, cosh_0.
  destruct (Rne_dec 0 0) as [H|_]; [congruence|]. reflexivity.
Qed.

(** At strength 0 the two planes of the quadrupole are two drifts. *)
Lemma quad_matrix_K0 (L : R) :
  Get2by2Matrix L (- 0) PS_Y
    (Get2by2Matrix L 0 PS_X (identity_matrix maxsize))
  = drift_matrix L (identity_matrix maxsize).
Proof. rewrite Ropp_0, !Get2by2Matrix_K0. reflexivity. Qed.

Lemma drift_matrix_entries (L : R) (i j : nat) :
  (i < maxsize)%nat -> (j < maxsize)%nat ->
  mget (drift_matrix L (identity_matrix maxsize)) i j
  = if ((Nat.eqb i PS_X && Nat.eqb j PS_PX)
        || (Nat.eqb i PS_Y && Nat.eqb j PS_PY))%bool
    then L else if Nat.eqb i j then 1 else 0.
Proof.
  unfold maxsize. intros Hi Hj.
  do 7 (destruct i as [|i]; [do 7 (destruct j as [|j]; [reflexivity|]); lia|]).
  lia.
Qed.

Lemma solenoid_matrix_K0_block (L : R) (i j : nat) :
  (i < 4)%nat -> (j < 4)%nat ->
  mget (solenoid_matrix L 0 (identity_matrix maxsize)) i j
  = mget (drift_matrix L (identity_matrix maxsize)) i j.
Proof.
  intros Hi Hj. unfold solenoid_matrix.
  destruct (Rne_dec 0 0) as [H|_]; [congruence|].
  rewrite Rmult_0_l, cos_0, sin_0.
  do 4 (destruct i as [|i];
        [do 4 (destruct j as [|j]; [mcompute; unfold sqr; ring|]); lia|]).
  lia.
Qed.

Lemma zero_div (x : R) : 0 / x = 0.
Proof. unfold Rdiv. apply Rmult_0_l. Qed.

Lemma get_double_def_ok (c : Config) (s : string) (def v : R) :
  get_double c s = Ok v -> get_double_def c s def = v.
Proof. unfold get_double_def. intros ->. reflexivity. Qed.

End DriftLimit.

(** C3.  A quadrupole built from a configuration with K = 0 (or without
    K) and length L has the transfer matrix of the drift built from the
    same configuration: the identity, except that the entries (x, x') and
    (y, y') are L converted to millimetres. *)
Theorem quad_K0_is_drift (c : Config) (indet : nat -> R) (q : Element) :
  get_double_def c "K" 0 = 0 ->
  ElementQuad_ctor c indet = Ok q ->
  exists l d,
    get_double c "L" = Ok l /\
    ElementDrift_ctor c indet = Ok d /\
    transfer_raw (base q) = transfer_raw (base d) /\
    forall i j, (i < maxsize)%nat -> (j < maxsize)%nat ->
      mget (transfer_raw (base q)) i j
      = if ((Nat.eqb i PS_X && Nat.eqb j PS_PX)
            || (Nat.eqb i PS_Y && Nat.eqb j PS_PY))%bool
        then l * MtoMM else if Nat.eqb i j then 1 else 0.
Proof.
  intros HK H. unfold ElementQuad_ctor in H.
  destruct (Moment2ElementBase_ctor c indet) as [b|] eqn:Eb;
    cbn [bind] in H; [|discriminate].
  destruct (get_double c "L") as [l|] eqn:El; cbn [bind] in H; [|discriminate].
  inversion H; subst q; clear H.
  pose proof (Moment2ElementBase_ctor_inv _ _ _ Eb)
    as (v & f & es & _ & _ & _ & Hb).
  assert (Hraw : transfer_raw b = identity_matrix maxsize)
    by (rewrite Hb; reflexivity).
  assert (Hlen : length b = l)
    by (rewrite Hb; cbn [length]; apply get_double_def_ok; assumption).
  exists l. eexists. split; [reflexivity|].
  unfold ElementDrift_ctor. rewrite Eb. cbn [bind]. split; [reflexivity|].
  cbn [base with_transfer_raw transfer_raw].
  rewrite HK, zero_div, Hraw, Hlen, quad_matrix_K0.
  split; [reflexivity|]. intros i j Hi Hj.
  apply drift_matrix_entries; assumption.
Qed.

Lemma quad_K0_is_drift_witness :
  exists l d,
    get_double sample_conf "L" = Ok l /\
    ElementDrift_ctor sample_conf sample_indet = Ok d /\
    transfer_raw
      (base (ElementQuad
               (with_transfer_raw sample_base
                  (Get2by2Matrix (2 * MtoMM) (- (0 / sqr MtoMM)) PS_Y
                     (Get2by2Matrix (2 * MtoMM) (0 / sqr MtoMM) PS_X
                        (identity_matrix maxsize))))))
    = transfer_raw (base d) /\
    forall i j, (i < maxsize)%nat -> (j < maxsize)%nat ->
      mget (transfer_raw
              (base (ElementQuad
                 (with_transfer_raw sample_base
                    (Get2by2Matrix (2 * MtoMM) (- (0 / sqr MtoMM)) PS_Y
                       (Get2by2Matrix (2 * MtoMM) (0 / sqr MtoMM) PS_X
                          (identity_matrix maxsize))))))) i j
      = if ((Nat.eqb i PS_X && Nat.eqb j PS_PX)
            || (Nat.eqb i PS_Y && Nat.eqb j PS_PY))%bool
        then l * MtoMM else if Nat.eqb i j then 1 else 0.
Proof.
  apply (quad_K0_is_drift sample_conf sample_indet).
  - reflexivity.
  - unfold ElementQuad_ctor. rewrite sample_base_built. reflexivity.
Defined.

(** C7.  A solenoid built from a configuration with K = 0 (or without K)
    and length L has, in its transverse 4 x 4 block, the entries of the
    drift built from the same configuration: 1 on the diagonal, L converted
    to millimetres at (x, x') and (y, y'), and 0 elsewhere, in
    particular at every entry that couples the two planes. *)
Theorem solenoid_K0_is_drift_block (c : Config) (indet : nat -> R)
        (s : Element) :
  get_double_def c "K" 0 = 0 ->
  ElementSolenoid_ctor c indet = Ok s ->
  exists l d,
    get_double c "L" = Ok l /\
    ElementDrift_ctor c indet = Ok d /\
    forall i j, (i < 4)%nat -> (j < 4)%nat ->
      mget (transfer_raw (base s)) i j = mget (transfer_raw (base d)) i j /\
      mget (transfer_raw (base s)) i j
      = if ((Nat.eqb i PS_X && Nat.eqb j PS_PX)
            || (Nat.eqb i PS_Y && Nat.eqb j PS_PY))%bool
        then l * MtoMM else if Nat.eqb i j then 1 else 0.
Proof.
  intros HK H. unfold ElementSolenoid_ctor in H.
  destruct (Moment2ElementBase_ctor c indet) as [b|] eqn:Eb;
    cbn [bind] in H; [|discriminate].
  destruct (get_double c "L") as [l|] eqn:El; cbn [bind] in H; [|discriminate].
  inversion H; subst s; clear H.
  pose proof (Moment2ElementBase_ctor_inv _ _ _ Eb)
    as (v & f & es & _ & _ & _ & Hb).
  assert (Hraw : transfer_raw b = identity_matrix maxsize)
    by (rewrite Hb; reflexivity).
  assert (Hlen : length b = l)
    by (rewrite Hb; cbn [length]; apply get_double_def_ok; assumption).
  exists l. eexists. split; [reflexivity|].
  unfold ElementDrift_ctor. rewrite Eb. cbn [bind]. split; [reflexivity|].
  cbn [base with_transfer_raw transfer_raw].
  rewrite HK, zero_div, Hraw, Hlen. intros i j Hi Hj.
  rewrite solenoid_matrix_K0_block by assumption.
  split; [reflexivity|].
  apply drift_matrix_entries; unfold maxsize; lia.
Qed.

Lemma solenoid_K0_is_drift_block_witness :
  exists l d,
    get_double sample_conf "L" = Ok l /\
    ElementDrift_ctor sample_conf sample_indet = Ok d /\
    forall i j, (i < 4)%nat -> (j < 4)%nat ->
      mget (solenoid_matrix (2 * MtoMM) (0 / MtoMM) (identity_matrix maxsize))
           i j
      = mget (transfer_raw (base d)) i j /\
      mget (solenoid_matrix (2 * MtoMM) (0 / MtoMM) (identity_matrix maxsize))
           i j
      = if ((Nat.eqb i PS_X && Nat.eqb j PS_PX)
            || (Nat.eqb i PS_Y && Nat.eqb j PS_PY))%bool
        then l * MtoMM else if Nat.eqb i j then 1 else 0.
Proof.
  apply (solenoid_K0_is_drift_block sample_conf sample_indet
           (ElementSolenoid
              (with_transfer_raw sample_base
                 (solenoid_matrix (2 * MtoMM) (0 / MtoMM)
                    (identity_matrix maxsize))))).
  - reflexivity.
  - unfold ElementSolenoid_ctor. rewrite sample_base_built. reflexivity.
Defined.

(** ** The energy cache *)


Section CacheFacts.

Lemma default_advance_rebase (e : Element) (b : Moment2ElementBase) :
  default_advance (rebase e b) = default_advance e.
Proof. destruct e; reflexivity. Qed.

Lemma cache_miss_same (b : Moment2ElementBase) (ST : Moment2State) (out : R) :
  energy_cache b = Some (mkKeys (Ekinetic ST) out) -> cache_miss b ST = false.
Proof.
  unfold cache_miss. intros ->. cbn.
  destruct (Rne_dec (Ekinetic ST) (Ekinetic ST)); congruence.
Qed.

(** On a hit the default advance leaves the element alone, but for its
    scratch matrix. *)
Lemma Moment2ElementBase_advance_hit (b : Moment2ElementBase)
      (ST : Moment2State) :
  cache_miss b ST = false ->
  fst (Moment2ElementBase_advance b ST)
  = with_scratch b (prod (transfer b) (state ST)).
Proof.
  intros Hm. unfold Moment2ElementBase_advance.
  destruct (energy_step_hit recompute b ST Hm) as (k & _ & _ & ->).
  reflexivity.
Qed.

(** What the mark shows is what [energy_step] does with any body: with the
    mark it returns what the body returns, without it the element it was
    given and the keys that element holds. *)
Lemma body_ran_spec body (b : Moment2ElementBase) (ST : Moment2State) :
  if body_ran b ST
  then energy_step body b ST = body b ST
  else exists k, energy_cache b = Some k /\ energy_step body b ST = (b, k).
Proof.
  unfold body_ran, energy_step.
  destruct (energy_cache b) as [k|] eqn:E; [|reflexivity].
  destruct (Rne_dec (Ekinetic ST) (last_Kenergy_in k)); cbn [fst];
    [reflexivity|].
  rewrite E. exists k. split; reflexivity.
Qed.



End CacheFacts.




(** ** Symmetry of the second moments *)

Section Symmetry.

(** After a default advance of an element in its lifetime the effective
    transfer is the raw one, a [maxsize] x [maxsize] matrix. *)
Lemma default_advance_transfer (e : Element) (ST : Moment2State) :
  lifetime e -> default_advance e = true ->
  transfer (base (fst (advance e ST)))
  = transfer_raw (base (fst (advance e ST))) /\
  square maxsize (transfer (base (fst (advance e ST)))).
Proof.
  intros Hl Hd.
  pose proof (lifetime_inv _ (life_advance e ST Hl)) as [Hb _].
  destruct (default_advance_energy e ST Hl Hd) as [_ Hc].
  assert (Ht : transfer (base (fst (advance e ST)))
               = transfer_raw (base (fst (advance e ST))))
    by (destruct (inv_transfer _ Hb) as [Hn|Ht]; [congruence|assumption]).
  split; [assumption|]. rewrite Ht. apply Hb.
Qed.

End Symmetry.

(** C6.  If the second-moment matrix of a state is symmetric before the
    advance of an element that runs the default algorithm, it is symmetric
    after it (real arithmetic; the element is in its lifetime and the
    state has the [maxsize] x [maxsize] matrix its constructor gives it). *)
Theorem advance_preserves_symmetry (e : Element) (ST : Moment2State) :
  lifetime e -> default_advance e = true ->
  size1 (state ST) = maxsize -> size2 (state ST) = maxsize ->
  symmetric (state ST) ->
  symmetric (state (snd (advance e ST))).
Proof.
  intros Hl Hd H1 H2 Hsym.
  destruct (default_advance_transfer e ST Hl Hd) as [_ (_ & Hs2 & _)].
  destruct (advance_default_shape e ST Hd) as [k Hs].
  rewrite Hs. cbn [state].
  apply congruence_symmetric; [congruence|congruence|assumption].
Qed.

Lemma advance_preserves_symmetry_witness :
  symmetric (state (snd (advance sample_drift sample_state))).
Proof.
  apply (advance_preserves_symmetry sample_drift sample_state).
  - exact sample_drift_lifetime.
  - reflexivity.
  - reflexivity.
  - reflexivity.
  - exact (symmetric_identity maxsize).
Defined.

(** ** Cloning a state *)

(** C8 (what the code does).  The clone constructor copies pos, Ekinetic,
    moment0 and state; sync_phase, gamma and beta of the clone are what
    its storage held, not those of the source.  Cloning the sample state,
    whose gamma is 1, into storage that holds zeros gives a clone whose
    gamma is 0. *)
Theorem clone_skips_sync_phase_gamma_beta :
  (forall o indet,
     pos (Moment2State_clone o indet) = pos o /\
     Ekinetic (Moment2State_clone o indet) = Ekinetic o /\
     moment0 (Moment2State_clone o indet) = moment0 o /\
     state (Moment2State_clone o indet) = state o /\
     sync_phase (Moment2State_clone o indet) = indet 0%nat /\
     gamma (Moment2State_clone o indet) = indet 1%nat /\
     beta (Moment2State_clone o indet) = indet 2%nat) /\
  gamma sample_state = 1 /\
  gamma (Moment2State_clone sample_state sample_indet) = 0 /\
  gamma (Moment2State_clone sample_state sample_indet) <> gamma sample_state /\
  gamma (Moment2State_assign sample_state sample_state) = gamma sample_state.
Proof.
  assert (Hg : gamma sample_state = 1)
    by (cbn; unfold gamma_of; field).
  split; [intros o indet; repeat split|].
  split; [exact Hg|]. split; [reflexivity|]. split; [|reflexivity].
  rewrite Hg. cbn. unfold sample_indet. lra.
Qed.

(** ** Construction: what can fail *)


Section ConstructionErrors.

Lemma getAny_error (c : Config) (s : string) (e : error) :
  getAny c s = Throw e -> e = key_error.
Proof.
  induction c as [|[k v] c IH]; cbn; [congruence|].
  destruct (String.eqb k s); [discriminate|assumption].
Qed.

Lemma has_false (c : Config) (s : string) :
  has c s = false -> getAny c s = Throw key_error.
Proof.
  unfold has. destruct (getAny c s) as [a|e] eqn:E; [discriminate|].
  intros _. f_equal. exact (getAny_error c s e E).
Qed.

Lemma get_double_absent (c : Config) (s : string) :
  has c s = false -> get_double c s = Throw key_error.
Proof. intros H. unfold get_double. rewrite (has_false c s H). reflexivity. Qed.

Lemma get_double_error (c : Config) (s : string) (e : error) :
  get_double c s = Throw e -> e = key_error \/ e = bad_any_cast.
Proof.
  unfold get_double. destruct (getAny c s) as [a|e'] eqn:E; cbn [bind].
  - destruct a; cbn; intros H; inversion H; auto.
  - intros H; inversion H; subst. left. exact (getAny_error c s e E).
Qed.

Lemma get_string_error (c : Config) (s : string) (e : error) :
  get_string c s = Throw e -> e = key_error \/ e = bad_any_cast.
Proof.
  unfold get_string. destruct (getAny c s) as [a|e'] eqn:E; cbn [bind].
  - destruct a; cbn; intros H; inversion H; auto.
  - intros H; inversion H; subst. left. exact (getAny_error c s e E).
Qed.

Lemma get_vector_error (c : Config) (s : string) (e : error) :
  get_vector c s = Throw e -> e = key_error \/ e = bad_any_cast.
Proof.
  unfold get_vector. destruct (getAny c s) as [a|e'] eqn:E; cbn [bind].
  - destruct a; cbn; intros H; inversion H; auto.
  - intros H; inversion H; subst. left. exact (getAny_error c s e E).
Qed.

Lemma read_initial_error (c : Config) (s : string) (dst : list R) (e : error) :
  read_initial c s dst = Throw e -> e = invalid_argument.
Proof.
  unfold read_initial. destruct (get_vector c s) as [v|e'] eqn:E.
  - destruct (List.length dst <? List.length v)%nat; congruence.
  - destruct (get_vector_error c s e' E) as [-> | ->]; congruence.
Qed.

Lemma Moment2State_ctor_error (c : Config) (e : error) :
  Moment2State_ctor c = Throw e -> e = invalid_argument.
Proof.
  unfold Moment2State_ctor.
  destruct (read_initial c "moment0" (repeat 0 maxsize)) as [m|e1] eqn:E1;
    cbn [bind].
  - destruct (read_initial c "initial" (data (identity_matrix maxsize)))
      as [m'|e2] eqn:E2; cbn [bind]; [discriminate|].
    intros H; inversion H; subst. exact (read_initial_error _ _ _ _ E2).
  - intros H; inversion H; subst. exact (read_initial_error _ _ _ _ E1).
Qed.

(** The base constructor fails on its configuration reads only. *)
Lemma Moment2ElementBase_ctor_error (c : Config) (indet : nat -> R)
      (e : error) :
  Moment2ElementBase_ctor c indet = Throw e ->
  e = key_error \/ e = bad_any_cast.
Proof.
  unfold Moment2ElementBase_ctor, ElementVoid_ctor.
  destruct (get_string c "name") as [nm|e1] eqn:E1; cbn [bind];
    [|intros H; inversion H; subst; exact (get_string_error _ _ _ E1)].
  destruct (get_double c "Frf") as [f|e2] eqn:E2; cbn [bind];
    [|intros H; inversion H; subst; exact (get_double_error _ _ _ E2)].
  destruct (get_double c "IonEs") as [es|e3] eqn:E3; cbn [bind];
    [|intros H; inversion H; subst; exact (get_double_error _ _ _ E3)].
  rewrite inverse_identity. cbn [bind]. discriminate.
Qed.

(** Every builder starts with the base constructor and fails with it. *)
Lemma build_base_throw (t : etype) (c : Config) (indet : nat -> R)
      (e : error) :
  Moment2ElementBase_ctor c indet = Throw e -> build t c indet = Throw e.
Proof.
  intros H.
  destruct t; cbn [build];
    [unfold ElementSource_ctor | unfold ElementMark_ctor
    |unfold ElementDrift_ctor | unfold ElementSBend_ctor
    |unfold ElementQuad_ctor | unfold ElementSolenoid_ctor
    |unfold ElementRFCavity_ctor | unfold ElementStripper_ctor
    |unfold ElementEDipole_ctor | unfold ElementGeneric_ctor];
    rewrite H; reflexivity.
Qed.

Lemma build_error (t : etype) (c : Config) (indet : nat -> R) (e : error) :
  build t c indet = Throw e -> e <> runtime_error.
Proof.
  destruct (Moment2ElementBase_ctor c indet) as [b|e0] eqn:Eb.
  - destruct t; cbn [build];
      [unfold ElementSource_ctor | unfold ElementMark_ctor
      |unfold ElementDrift_ctor | unfold ElementSBend_ctor
      |unfold ElementQuad_ctor | unfold ElementSolenoid_ctor
      |unfold ElementRFCavity_ctor | unfold ElementStripper_ctor
      |unfold ElementEDipole_ctor | unfold ElementGeneric_ctor];
      rewrite Eb; cbn [bind]; try discriminate;
      repeat match goal with
      | |- context [Moment2State_ctor ?c] =>
          let E := fresh "E" in
          destruct (Moment2State_ctor c) eqn:E; cbn [bind];
          [|intros H; inversion H; subst;
            rewrite (Moment2State_ctor_error _ _ E); discriminate]
      | |- context [bind (get_double ?c ?s)] =>
          let E := fresh "E" in
          destruct (get_double c s) eqn:E; cbn [bind];
          [|intros H; inversion H; subst;
            destruct (get_double_error _ _ _ E) as [-> | ->]; discriminate]
      | |- context [bind (get_string ?c ?s)] =>
          let E := fresh "E" in
          destruct (get_string c s) eqn:E; cbn [bind];
          [|intros H; inversion H; subst;
            destruct (get_string_error _ _ _ E) as [-> | ->]; discriminate]
      | |- context [bind (get_vector ?c ?s)] =>
          let E := fresh "E" in
          destruct (get_vector c s) eqn:E; cbn [bind];
          [|intros H; inversion H; subst;
            destruct (get_vector_error _ _ _ E) as [-> | ->]; discriminate]
      end; try discriminate.
    destruct (_ <? _)%nat; [|discriminate].
    intros H; inversion H; subst; discriminate.
  - rewrite (build_base_throw t c indet e0 Eb).
    intros H; inversion H; subst.
    destruct (Moment2ElementBase_ctor_error _ _ _ Eb) as [-> | ->];
      discriminate.
Qed.

(** The base constructor with "Frf" or "IonEs" absent. *)
Lemma Moment2ElementBase_ctor_absent (c : Config) (indet : nat -> R) :
  has c "Frf" = false \/ has c "IonEs" = false ->
  failed (Moment2ElementBase_ctor c indet) /\
  (forall v, ElementVoid_ctor c = Ok v ->
     has c "Frf" = false \/ (exists f, get_double c "Frf" = Ok f) ->
     Moment2ElementBase_ctor c indet = Throw key_error).
Proof.
  intros Habs. unfold Moment2ElementBase_ctor. split.
  - destruct (ElementVoid_ctor c) as [v|e]; cbn [bind]; [|eexists; reflexivity].
    destruct (get_double c "Frf") as [f|e] eqn:Ef; cbn [bind];
      [|eexists; reflexivity].
    destruct Habs as [Hf|He].
    + rewrite (get_double_absent _ _ Hf) in Ef. discriminate.
    + rewrite (get_double_absent _ _ He). cbn [bind]. eexists; reflexivity.
  - intros v Hv Hfrf. rewrite Hv. cbn [bind].
    destruct Hfrf as [Hf|[f Hf]].
    + rewrite (get_double_absent _ _ Hf). reflexivity.
    + rewrite Hf. cbn [bind]. destruct Habs as [Hf'|He].
      * rewrite (get_double_absent _ _ Hf') in Hf. discriminate.
      * rewrite (get_double_absent _ _ He). reflexivity.
Qed.

Lemma bad_conf_build (t : etype) :
  build t bad_conf sample_indet = Throw bad_any_cast.
Proof. apply build_base_throw. reflexivity. Qed.

End ConstructionErrors.

(** C9.  Throughout the lifetime of an element of any built-in type the
    misalignment matrix is the identity, whatever the configuration, and so
    is its inverse; inverting it at construction succeeds, so that no
    builder fails with the runtime error of a singular matrix; and
    the effective transfer left by the default advance is transfer_raw. *)
Theorem misalign_is_identity (e : Element) :
  lifetime e ->
  misalign (base e) = identity_matrix maxsize /\
  misalign_inv (base e) = identity_matrix maxsize /\
  inverse (misalign (base e)) = Ok (misalign_inv (base e)) /\
  (forall t c indet, build t c indet <> Throw runtime_error) /\
  (forall ST, default_advance e = true ->
     transfer (base (fst (advance e ST)))
     = transfer_raw (base (fst (advance e ST)))).
Proof.
  intros Hl. destruct (lifetime_inv e Hl) as [[Hm Hi _ _] _].
  split; [assumption|]. split; [assumption|].
  split; [rewrite Hm, Hi; apply inverse_identity|].
  split.
  - intros t c indet H. exact (build_error t c indet _ H eq_refl).
  - intros ST Hd. apply default_advance_transfer; assumption.
Qed.

Lemma misalign_is_identity_witness :
  misalign (base sample_drift) = identity_matrix maxsize /\
  misalign_inv (base sample_drift) = identity_matrix maxsize /\
  inverse (misalign (base sample_drift)) = Ok (misalign_inv (base sample_drift)) /\
  (forall t c indet, build t c indet <> Throw runtime_error) /\
  (forall ST, default_advance sample_drift = true ->
     transfer (base (fst (advance sample_drift ST)))
     = transfer_raw (base (fst (advance sample_drift ST)))).
Proof.
  apply (misalign_is_identity sample_drift). exact sample_drift_lifetime.
Defined.

(** C10 amended.  The builder of every element type, the zero-length
    ones included, fails when "Frf" or "IonEs" is absent from the
    configuration.  The failure is key_error when the base part of the
    element is constructed and "Frf" is absent, or "Frf" is a double and
    "IonEs" is absent. *)
Theorem build_needs_Frf_and_IonEs (t : etype) (c : Config) (indet : nat -> R) :
  has c "Frf" = false \/ has c "IonEs" = false ->
  failed (build t c indet) /\
  (forall v, ElementVoid_ctor c = Ok v ->
     has c "Frf" = false \/ (exists f, get_double c "Frf" = Ok f) ->
     build t c indet = Throw key_error).
Proof.
  intros Habs.
  destruct (Moment2ElementBase_ctor_absent c indet Habs) as [[e He] Hk].
  split.
  - exists e. apply build_base_throw. assumption.
  - intros v Hv Hf. apply build_base_throw. exact (Hk v Hv Hf).
Qed.

Lemma build_needs_Frf_and_IonEs_witness :
  failed (build marker [("name"%string, any_string "m1");
                        ("Frf"%string, any_double 80500000)] sample_indet) /\
  build marker [("name"%string, any_string "m1");
                ("Frf"%string, any_double 80500000)] sample_indet
  = Throw key_error.
Proof.
  destruct (build_needs_Frf_and_IonEs marker
              [("name"%string, any_string "m1");
               ("Frf"%string, any_double 80500000)] sample_indet
              (or_intror eq_refl)) as [Hf Hk].
  split; [exact Hf|].
  apply (Hk (mkVoid "m1" 0 [("name"%string, any_string "m1");
                           ("Frf"%string, any_double 80500000)]));
    [reflexivity|].
  right. exists 80500000. reflexivity.
Defined.

(** C10 as stated fails: in [bad_conf] the key "IonEs" is absent, and every
    builder fails with bad_any_cast, on the read of "Frf", not with
    key_error. *)
Lemma build_key_error_counterexample :
  has bad_conf "IonEs" = false /\
  build quadrupole bad_conf sample_indet = Throw bad_any_cast /\
  build quadrupole bad_conf sample_indet <> Throw key_error.
Proof.
  split; [reflexivity|].
  rewrite bad_conf_build. split; [reflexivity|discriminate].
Qed.

(** * Further properties of the code

    ** The state constructor *)

Section StateConstruction.

Lemma read_initial_failed (c : Config) (key : string) (dst : list R) :
  failed (read_initial c key dst) <->
  exists a, getAny c key = Ok a /\
            forall v, a = any_vector v -> (List.length dst < List.length v)%nat.
Proof.
  unfold read_initial, get_vector.
  destruct (getAny c key) as [a|e] eqn:E; cbn [bind].
  - destruct a as [d|s|v]; cbn [any_cast_vector].
    + split; [|intros _; eexists; reflexivity].
      intros _. eexists. split; [reflexivity|]. discriminate.
    + split; [|intros _; eexists; reflexivity].
      intros _. eexists. split; [reflexivity|]. discriminate.
    + destruct (Nat.ltb_spec (List.length dst) (List.length v)) as [Hlt|Hle].
      * split; [|intros _; eexists; reflexivity].
        intros _. eexists. split; [reflexivity|].
        intros v' Hv. inversion Hv; subst. assumption.
      * split.
        -- intros [e He]. discriminate.
        -- intros (a & Ha & Hv). inversion Ha; subst.
           specialize (Hv v eq_refl). lia.
  - rewrite (getAny_error c key e E). split.
    + intros [e' He]. discriminate.
    + intros (a & Ha & _). discriminate.
Qed.

Lemma read_initial_ok (c : Config) (key : string) (dst r : list R) :
  read_initial c key dst = Ok r ->
  List.length r = List.length dst /\
  ((has c key = false /\ r = dst) \/
   (exists init, get_vector c key = Ok init /\
                 (List.length init <= List.length dst)%nat /\
                 r = copy_into init dst)).
Proof.
  unfold read_initial, has, get_vector.
  destruct (getAny c key) as [a|e] eqn:E; cbn [bind].
  - destruct a as [d|s|v]; cbn [any_cast_vector]; try discriminate.
    destruct (Nat.ltb_spec (List.length dst) (List.length v)) as [Hlt|Hle];
      [discriminate|].
    intros H; inversion H; subst. split.
    + apply length_copy_into. assumption.
    + right. exists v. auto.
  - rewrite (getAny_error c key e E). intros H; inversion H; subst. auto.
Qed.

Lemma length_identity_data (n : nat) :
  List.length (data (identity_matrix n)) = (n * n)%nat.
Proof. exact (wf_mbuild n n _). Qed.

(** For a gamma other than 0 the quotient 1 / gamma^2 is a positive
    number, and beta is at least 1. *)
Lemma beta_of_ge_1 (g : R) : g <> 0 -> 1 <= beta_of g.
Proof.
  intros Hg. unfold beta_of. rewrite <- sqrt_1 at 1. apply sqrt_le_1_alt.
  assert (H : 0 < 1 / sqr g).
  { unfold Rdiv. rewrite Rmult_1_l. unfold sqr.
    apply Rinv_0_lt_compat.
    pose proof (Rsqr_pos_lt g Hg) as Hs. unfold Rsqr in Hs. exact Hs. }
  lra.
Qed.

Lemma gamma_of_neq_0 (Ek Es : R) :
  Es <> 0 -> Ek + Es <> 0 -> gamma_of Ek Es <> 0.
Proof.
  intros HEs Hsum. unfold gamma_of, Rdiv. intros H.
  apply Rmult_integral in H. destruct H as [H|H]; [contradiction|].
  exact (Rinv_neq_0_compat Es HEs H).
Qed.

Lemma nth_copy_into (init dst : list R) (i : nat) :
  (List.length init <= List.length dst)%nat ->
  nth i (copy_into init dst) 0
  = if (i <? List.length init)%nat then nth i init 0 else nth i dst 0.
Proof.
  intros Hle. unfold copy_into.
  destruct (Nat.ltb_spec i (List.length init)) as [Hlt|Hge].
  - apply app_nth1. assumption.
  - rewrite app_nth2 by assumption. rewrite nth_skipn. f_equal. lia.
Qed.

End StateConstruction.

(** X1.  The state constructor fails with invalid_argument and with
    nothing else; it fails exactly when "moment0" is present and is not a
    vector of at most [maxsize] doubles, or "initial" is present and is
    not a vector of at most [maxsize] * [maxsize] doubles.  Every other
    key may be absent or of any kind. *)
Theorem state_ctor_failure (c : Config) :
  (forall e, Moment2State_ctor c = Throw e -> e = invalid_argument) /\
  (failed (Moment2State_ctor c) <->
   (exists a, getAny c "moment0" = Ok a /\
              forall v, a = any_vector v -> (maxsize < List.length v)%nat) \/
   (exists a, getAny c "initial" = Ok a /\
              forall v, a = any_vector v ->
                        (maxsize * maxsize < List.length v)%nat)).
Proof.
  split; [exact (Moment2State_ctor_error c)|].
  pose proof (read_initial_failed c "moment0" (repeat 0 maxsize)) as H0.
  pose proof (read_initial_failed c "initial"
                (data (identity_matrix maxsize))) as H1.
  rewrite repeat_length in H0. rewrite length_identity_data in H1.
  unfold Moment2State_ctor.
  destruct (read_initial c "moment0" (repeat 0 maxsize)) as [m|e0]; cbn [bind].
  - destruct (read_initial c "initial" (data (identity_matrix maxsize)))
      as [s|e1]; cbn [bind].
    + split.
      * intros [e He]. discriminate.
      * intros [H|H].
        -- apply H0 in H. destruct H as [e He]. discriminate.
        -- apply H1 in H. destruct H as [e He]. discriminate.
    + split; [|intros _; eexists; reflexivity].
      intros _. right. apply H1. eexists; reflexivity.
  - split; [|intros _; eexists; reflexivity].
    intros _. left. apply H0. eexists; reflexivity.
Qed.

(** X2.  A state that the constructor returns has [maxsize] first
    moments and a well-formed [maxsize] x [maxsize] second-moment matrix,
    however short the vectors given under "moment0" and "initial"; its
    gamma is (Ekinetic + Es) / Es for the rest energy read under "Es"
    (1 when absent) and its beta is sqrt (1 + 1 / gamma^2).  When the
    rest energy is not 0 and Ekinetic + Es is not 0, so that both
    quotients are quotients of numbers by a number other than 0, gamma is
    not 0 and beta is at least 1. *)
Theorem state_ctor_shape (c : Config) (st : Moment2State) :
  Moment2State_ctor c = Ok st ->
  shaped st /\
  relativistic (get_double_def c "Es" 1) st /\
  Ekinetic st = get_double_def c "IonEk" 0 /\
  (get_double_def c "Es" 1 <> 0 ->
   get_double_def c "IonEk" 0 + get_double_def c "Es" 1 <> 0 ->
   gamma st <> 0 /\ 1 <= beta st).
Proof.
  unfold Moment2State_ctor. intros H.
  destruct (read_initial c "moment0" (repeat 0 maxsize)) as [m|e0] eqn:E0;
    cbn [bind] in H; [|discriminate].
  destruct (read_initial c "initial" (data (identity_matrix maxsize)))
    as [s|e1] eqn:E1; cbn [bind] in H; [|discriminate].
  inversion H; subst st; clear H.
  destruct (read_initial_ok _ _ _ _ E0) as [Hm _].
  destruct (read_initial_ok _ _ _ _ E1) as [Hs _].
  rewrite repeat_length in Hm. rewrite length_identity_data in Hs.
  split.
  - split; [exact Hm|]. repeat split. exact Hs.
  - split; [split; reflexivity|]. split; [reflexivity|].
    intros HEs Hsum. cbn [beta gamma].
    pose proof (gamma_of_neq_0 _ _ HEs Hsum) as Hg.
    split; [exact Hg|]. apply beta_of_ge_1. exact Hg.
Qed.

Lemma state_ctor_shape_witness :
  get_double_def [] "Es" 1 <> 0 /\
  get_double_def [] "IonEk" 0 + get_double_def [] "Es" 1 <> 0 /\
  shaped sample_state /\
  relativistic (get_double_def [] "Es" 1) sample_state /\
  Ekinetic sample_state = get_double_def [] "IonEk" 0 /\
  gamma sample_state <> 0 /\ 1 <= beta sample_state.
Proof.
  assert (HEs : get_double_def [] "Es" 1 <> 0) by (cbn; lra).
  assert (Hsum : get_double_def [] "IonEk" 0 + get_double_def [] "Es" 1 <> 0)
    by (cbn; lra).
  destruct (state_ctor_shape [] sample_state eq_refl) as (Hs & Hr & HE & Hb).
  split; [exact HEs|]. split; [exact Hsum|].
  split; [exact Hs|]. split; [exact Hr|]. split; [exact HE|].
  exact (Hb HEs Hsum).
Defined.

(** X3.  A vector given under "moment0" or "initial" overwrites the
    first cells of the storage, in row-major order for the matrix, and
    leaves the others at their defaults: 0 for the first moments, the
    identity for the second moments.  With the key absent the whole
    default stays. *)
Theorem state_ctor_initialisers (c : Config) (st : Moment2State) :
  Moment2State_ctor c = Ok st ->
  (forall init, get_vector c "moment0" = Ok init ->
     forall i, (i < maxsize)%nat ->
       nth i (moment0 st) 0
       = if (i <? List.length init)%nat then nth i init 0 else 0) /\
  (has c "moment0" = false -> moment0 st = repeat 0 maxsize) /\
  (forall init, get_vector c "initial" = Ok init ->
     forall i j, (i < maxsize)%nat -> (j < maxsize)%nat ->
       mget (state st) i j
       = if (i * maxsize + j <? List.length init)%nat
         then nth (i * maxsize + j) init 0
         else if Nat.eqb i j then 1 else 0) /\
  (has c "initial" = false -> state st = identity_matrix maxsize).
Proof.
  unfold Moment2State_ctor. intros H.
  destruct (read_initial c "moment0" (repeat 0 maxsize)) as [m|e0] eqn:E0;
    cbn [bind] in H; [|discriminate].
  destruct (read_initial c "initial" (data (identity_matrix maxsize)))
    as [s|e1] eqn:E1; cbn [bind] in H; [|discriminate].
  inversion H; subst st; clear H. cbn [moment0 state].
  destruct (read_initial_ok _ _ _ _ E0) as [_ Hm].
  destruct (read_initial_ok _ _ _ _ E1) as [_ Hs].
  split; [|split; [|split]].
  - intros init Hi i Hlt.
    destruct Hm as [[Hh _]|(init' & Hi' & Hle & ->)].
    + unfold get_vector in Hi. rewrite (has_false _ _ Hh) in Hi. discriminate.
    + rewrite Hi in Hi'. inversion Hi'; subst init'.
      rewrite nth_copy_into by assumption.
      destruct (i <? List.length init)%nat; [reflexivity|].
      apply nth_repeat.
  - intros Hh. destruct Hm as [[_ ->]|(init' & Hi' & _)]; [reflexivity|].
    unfold get_vector in Hi'. rewrite (has_false _ _ Hh) in Hi'. discriminate.
  - intros init Hi i j Hlt Hlt'.
    destruct Hs as [[Hh _]|(init' & Hi' & Hle & ->)].
    + unfold get_vector in Hi. rewrite (has_false _ _ Hh) in Hi. discriminate.
    + rewrite Hi in Hi'. inversion Hi'; subst init'.
      unfold mget. cbn [size2 data]. rewrite nth_copy_into by assumption.
      destruct (i * maxsize + j <? List.length init)%nat; [reflexivity|].
      exact (mget_identity maxsize i j Hlt Hlt').
  - intros Hh. destruct Hs as [[_ ->]|(init' & Hi' & _)]; [reflexivity|].
    unfold get_vector in Hi'. rewrite (has_false _ _ Hh) in Hi'. discriminate.
Qed.

Lemma state_ctor_initialisers_witness :
  mget (mkMatrix maxsize maxsize
          (copy_into [4; 5] (data (identity_matrix maxsize)))) 0 1 = 5 /\
  mget (mkMatrix maxsize maxsize
          (copy_into [4; 5] (data (identity_matrix maxsize)))) 1 1 = 1.
Proof.
  destruct (state_ctor_initialisers
              [("initial"%string, any_vector [4; 5])]
              (mkState 0 0 0 0 (gamma_of 0 1) (beta_of (gamma_of 0 1))
                 (repeat 0 maxsize)
                 (mkMatrix maxsize maxsize
                    (copy_into [4; 5] (data (identity_matrix maxsize)))))
              eq_refl) as (_ & _ & H & _).
  split.
  - apply (H [4; 5] eq_refl 0%nat 1%nat); unfold maxsize; lia.
  - apply (H [4; 5] eq_refl 1%nat 1%nat); unfold maxsize; lia.
Defined.

(** ** Introspection and the registry *)

(** X4.  [getArray] answers for the indices 0 to 6 and for no other; the
    seven names are pairwise different; and for a state of the
    constructor's shape each answer has as many extents as dimensions and
    points at as many doubles as the product of its extents. *)
Theorem getArray_enumeration (ST : Moment2State) :
  (forall idx, Moment2State_getArray ST idx <> None <-> (idx < 7)%nat) /\
  (forall i j a b,
     Moment2State_getArray ST i = Some a ->
     Moment2State_getArray ST j = Some b ->
     info_name a = info_name b -> i = j) /\
  (shaped ST ->
   forall idx a, Moment2State_getArray ST idx = Some a ->
     List.length (info_dim a) = info_ndim a /\
     List.length (info_ptr a) = fold_right Nat.mul 1%nat (info_dim a)).
Proof.
  split; [|split].
  - intros idx. split.
    + intros H. destruct (Nat.lt_ge_cases idx 7) as [Hlt|Hge]; [assumption|].
      exfalso. apply H.
      do 7 (destruct idx as [|idx]; [lia|]). reflexivity.
    + intros H. do 7 (destruct idx as [|idx]; [discriminate|]). lia.
  - intros i j a b Ha Hb Hn.
    do 7 (destruct i as [|i];
          [do 7 (destruct j as [|j];
                 [cbn in Ha, Hb; inversion Ha; inversion Hb; subst;
                  cbn in Hn; first [reflexivity | discriminate Hn]|]);
           discriminate Hb|]).
    discriminate Ha.
  - intros [Hm (H1 & H2 & Hwf)] idx a Ha.
    do 7 (destruct idx as [|idx];
          [cbn in Ha; inversion Ha; subst; cbn;
           first [split; reflexivity
                 |split; [reflexivity|rewrite Hwf; lia]
                 |split; [reflexivity|lia]]|]).
    discriminate Ha.
Qed.

(** X5.  The element that the builder registered under a name returns
    reports that name as its type_name, and the ten registered names are
    pairwise different. *)
Theorem registered_name_is_type_name :
  (forall t c indet e, build t c indet = Ok e -> type_name e = registered_name t) /\
  (forall t t', registered_name t = registered_name t' -> t = t').
Proof.
  split.
  - intros t c indet e.
    destruct t; cbn [build];
      [unfold ElementSource_ctor | unfold ElementMark_ctor
      |unfold ElementDrift_ctor | unfold ElementSBend_ctor
      |unfold ElementQuad_ctor | unfold ElementSolenoid_ctor
      |unfold ElementRFCavity_ctor | unfold ElementStripper_ctor
      |unfold ElementEDipole_ctor | unfold ElementGeneric_ctor];
      intros H; bind_inv H;
      try (destruct (_ <? _)%nat; [discriminate|]);
      inversion H; reflexivity.
  - intros t t' H. destruct t, t'; first [reflexivity | discriminate H].
Qed.

(** ** A state through several elements *)

Section Sequences.

Lemma not_source_cases (e : Element) :
  is_source e = false ->
  default_advance e = true \/ exists b, e = ElementRFCavity b.
Proof.
  destruct e; cbn; intros H; try discriminate; auto.
  right. eexists; reflexivity.
Qed.

(** The scalars of a state after one call, for an element that is not a
    source. *)
Lemma advance_scalars (e : Element) (ST : Moment2State) :
  lifetime e -> is_source e = false ->
  next_elem (snd (advance e ST)) = next_elem ST /\
  pos (snd (advance e ST)) = pos ST + length (base e) /\
  Ekinetic (snd (advance e ST))
  = Ekinetic ST + (if is_rfcavity e then 1 else 0) /\
  sync_phase (snd (advance e ST))
  = sync_phase ST + phase_factor (base e) / beta ST /\
  gamma (snd (advance e ST)) = gamma ST /\
  beta (snd (advance e ST)) = beta ST.
Proof.
  intros Hl Hs. destruct (not_source_cases e Hs) as [Hd|[b ->]].
  - destruct (default_advance_energy e ST Hl Hd) as [HE _].
    destruct (advance_default_shape e ST Hd) as [k Hk].
    assert (Hrf : is_rfcavity e = false)
      by (destruct e; try reflexivity; discriminate Hd).
    rewrite Hrf, Rplus_0_r. repeat split; try assumption;
      rewrite Hk; reflexivity.
  - cbn [advance is_rfcavity base].
    destruct (rf_advance_energy b ST Hl) as [HE _].
    destruct (ElementRFCavity_advance_spec b ST) as (k & _ & _ & Hk).
    destruct (ElementRFCavity_advance b ST) as [b' ST']. cbn [fst snd] in *.
    repeat split; try assumption; rewrite Hk; reflexivity.
Qed.

(** The matrices of a state after one call, for an element that is not a
    source: one [maxsize] x [maxsize] matrix [T] maps both. *)
Lemma advance_matrices (e : Element) (ST : Moment2State) :
  lifetime e -> is_source e = false ->
  exists T, square maxsize T /\
    T = transfer (base (fst (advance e ST))) /\
    moment0 (snd (advance e ST)) = prod_mv T (moment0 ST) /\
    state (snd (advance e ST)) = prod (prod T (state ST)) (trans T).
Proof.
  intros Hl Hs.
  pose proof (lifetime_inv _ (life_advance e ST Hl)) as [Hb _].
  exists (transfer (base (fst (advance e ST)))).
  destruct (not_source_cases e Hs) as [Hd|[b ->]].
  - destruct (default_advance_transfer e ST Hl Hd) as [_ Hsq].
    destruct (advance_default_shape e ST Hd) as [k Hk].
    split; [assumption|]. split; [reflexivity|].
    rewrite Hk. split; reflexivity.
  - cbn [advance] in *.
    destruct (ElementRFCavity_advance_spec b ST) as (k & Hc & _ & Hk).
    destruct (ElementRFCavity_advance b ST) as [b' ST']. cbn [fst snd base] in *.
    assert (Ht : transfer b' = transfer_raw b')
      by (destruct (inv_transfer _ Hb) as [Hn|Ht]; [congruence|assumption]).
    split; [rewrite Ht; apply Hb|]. split; [reflexivity|].
    rewrite Hk. split; reflexivity.
Qed.

Lemma length_prod_mv (A : matrix) (v : vector) :
  List.length (prod_mv A v) = size1 A.
Proof. unfold prod_mv. rewrite length_map, length_seq. reflexivity. Qed.

Lemma shaped_transport (T : matrix) (ST ST' : Moment2State) :
  square maxsize T ->
  moment0 ST' = prod_mv T (moment0 ST) ->
  state ST' = prod (prod T (state ST)) (trans T) ->
  shaped ST'.
Proof.
  intros (H1 & H2 & _) Hm Hs. split.
  - rewrite Hm, length_prod_mv. assumption.
  - rewrite Hs. repeat split; cbn [prod mbuild size1 size2 trans];
      try assumption. apply wf_mbuild.
Qed.

(** The state a source holds has the shape its constructor gave it. *)
Lemma Moment2State_ctor_shaped (c : Config) (st : Moment2State) :
  Moment2State_ctor c = Ok st -> shaped st.
Proof.
  unfold Moment2State_ctor. intros H.
  destruct (read_initial c "moment0" (repeat 0 maxsize)) as [m|e0] eqn:E0;
    cbn [bind] in H; [|discriminate].
  destruct (read_initial c "initial" (data (identity_matrix maxsize)))
    as [s|e1] eqn:E1; cbn [bind] in H; [|discriminate].
  inversion H; subst st; clear H.
  destruct (read_initial_ok _ _ _ _ E0) as [Hm _].
  destruct (read_initial_ok _ _ _ _ E1) as [Hs _].
  rewrite repeat_length in Hm. rewrite length_identity_data in Hs.
  split; [exact Hm|]. repeat split. exact Hs.
Qed.

Lemma lifetime_source_shaped (e : Element) :
  lifetime e ->
  match e with ElementSource _ istate => shaped istate | _ => True end.
Proof.
  induction 1 as [t c indet e Hb | e ST _ IH | e o _ IHe _ IHo].
  - destruct t; cbn [build] in Hb;
      [unfold ElementSource_ctor in Hb | unfold ElementMark_ctor in Hb
      |unfold ElementDrift_ctor in Hb | unfold ElementSBend_ctor in Hb
      |unfold ElementQuad_ctor in Hb | unfold ElementSolenoid_ctor in Hb
      |unfold ElementRFCavity_ctor in Hb | unfold ElementStripper_ctor in Hb
      |unfold ElementEDipole_ctor in Hb | unfold ElementGeneric_ctor in Hb];
      bind_inv Hb;
      try (destruct (_ <? _)%nat; [discriminate|]);
      inversion Hb; subst; try exact I.
    eapply Moment2State_ctor_shaped. eassumption.
  - destruct e; cbn [advance]; try exact IH;
      try (destruct (Moment2ElementBase_advance _ ST); exact I).
    destruct (ElementRFCavity_advance b ST); exact I.
  - destruct e; cbn [rebase]; try exact I. exact IHe.
Qed.

Lemma lifetime_passes (n : nat) (e : Element) (ST : Moment2State) :
  lifetime e -> lifetime (fst (passes n e ST)).
Proof.
  revert e ST. induction n as [|n IH]; intros e ST Hl; [exact Hl|].
  cbn [passes]. pose proof (life_advance e ST Hl) as Hl'.
  destruct (advance e ST) as [e' ST']. apply IH. exact Hl'.
Qed.

Lemma is_rfcavity_advance (e : Element) (ST : Moment2State) :
  is_rfcavity (fst (advance e ST)) = is_rfcavity e.
Proof.
  destruct e; cbn [advance]; try reflexivity;
    try (destruct (Moment2ElementBase_advance _ ST); reflexivity).
  destruct (ElementRFCavity_advance b ST); reflexivity.
Qed.

End Sequences.

(** X6.  Every call of advance, of any element in its lifetime, returns
    a state of the constructor's shape when it is given one: [maxsize]
    first moments and a well-formed [maxsize] x [maxsize] matrix. *)
Theorem advance_keeps_shape (e : Element) (ST : Moment2State) :
  lifetime e -> shaped ST -> shaped (snd (advance e ST)).
Proof.
  intros Hl Hsh. destruct (is_source e) eqn:Hs.
  - pose proof (lifetime_source_shaped e Hl) as Hi.
    destruct e; try discriminate Hs. cbn [advance snd].
    destruct istate; exact Hi.
  - destruct (advance_matrices e ST Hl Hs) as (T & Hsq & _ & Hm & Hst).
    exact (shaped_transport T ST _ Hsq Hm Hst).
Qed.

Lemma advance_keeps_shape_witness :
  shaped (snd (advance sample_rfcavity sample_state)).
Proof.
  apply (advance_keeps_shape sample_rfcavity sample_state).
  - exact sample_rfcavity_lifetime.
  - split; [reflexivity|]. exact (square_identity maxsize).
Defined.

(** X7.  Through a list of elements in their lifetime, none of them a
    source, a state keeps its beta, gamma and next_elem; its position
    grows by the sum of the lengths, its synchronous phase by the sum of
    the phase factors divided by beta, and its kinetic energy by the
    number of RF cavities in the list. *)
Theorem advance_all_scalars (es : list Element) (ST : Moment2State) :
  Forall lifetime es ->
  forallb (fun e => negb (is_source e)) es = true ->
  let ST' := snd (advance_all es ST) in
  next_elem ST' = next_elem ST /\
  beta ST' = beta ST /\ gamma ST' = gamma ST /\
  pos ST' = pos ST + total_length es /\
  sync_phase ST' = sync_phase ST + total_phase_factor es / beta ST /\
  Ekinetic ST'
  = Ekinetic ST + INR (List.length (filter is_rfcavity es)).
Proof.
  intros Hl Hns. revert ST.
  induction es as [|e es IH]; intros ST.
  - cbn. unfold Rdiv. repeat split; ring.
  - inversion Hl as [|? ? Hle Hles]; subst.
    cbn [forallb] in Hns. apply andb_prop in Hns. destruct Hns as [Hse Hses].
    apply negb_true_iff in Hse.
    destruct (advance_scalars e ST Hle Hse) as (Hn & Hp & HE & Hsy & Hg & Hb).
    cbn [advance_all]. destruct (advance e ST) as [e' ST1]. cbn [snd] in *.
    specialize (IH Hles Hses ST1).
    destruct (advance_all es ST1) as [es' ST2]. cbn [snd] in *.
    destruct IH as (IHn & IHb & IHg & IHp & IHsy & IHE).
    cbn [total_length total_phase_factor fold_right filter].
    fold (total_length es). fold (total_phase_factor es).
    repeat split.
    + congruence.
    + congruence.
    + congruence.
    + rewrite IHp, Hp. ring.
    + rewrite IHsy, Hsy, Hb. unfold Rdiv. ring.
    + rewrite IHE, HE. destruct (is_rfcavity e).
      * cbn [List.length]. rewrite S_INR. ring.
      * ring.
Qed.

Lemma advance_all_scalars_witness :
  let es := [sample_drift; sample_rfcavity; sample_drift] in
  let ST' := snd (advance_all es sample_state) in
  next_elem ST' = next_elem sample_state /\
  beta ST' = beta sample_state /\ gamma ST' = gamma sample_state /\
  pos ST' = pos sample_state + total_length es /\
  sync_phase ST'
  = sync_phase sample_state + total_phase_factor es / beta sample_state /\
  Ekinetic ST' = Ekinetic sample_state + INR 1.
Proof.
  apply (advance_all_scalars [sample_drift; sample_rfcavity; sample_drift]
           sample_state).
  - repeat constructor;
      first [exact sample_drift_lifetime | exact sample_rfcavity_lifetime].
  - reflexivity.
Defined.

(** X8.  Through a list of elements in their lifetime, none of them a
    source, passive or RF cavity, a symmetric second-moment matrix of the
    constructor's shape stays symmetric and of that shape (real
    arithmetic). *)
Theorem advance_all_symmetric (es : list Element) (ST : Moment2State) :
  Forall lifetime es ->
  forallb (fun e => negb (is_source e)) es = true ->
  shaped ST -> symmetric (state ST) ->
  shaped (snd (advance_all es ST)) /\
  symmetric (state (snd (advance_all es ST))).
Proof.
  intros Hl Hns. revert ST.
  induction es as [|e es IH]; intros ST Hsh Hsym; [split; assumption|].
  inversion Hl as [|? ? Hle Hles]; subst.
  cbn [forallb] in Hns. apply andb_prop in Hns. destruct Hns as [Hse Hses].
  apply negb_true_iff in Hse.
  destruct (advance_matrices e ST Hle Hse) as (T & Hsq & _ & Hm & Hst).
  pose proof (shaped_transport T ST _ Hsq Hm Hst) as Hsh1.
  assert (Hsym1 : symmetric (state (snd (advance e ST)))).
  { rewrite Hst. destruct Hsq as (_ & H2 & _).
    destruct Hsh as [_ (S1 & S2 & _)].
    apply congruence_symmetric; [congruence|congruence|assumption]. }
  cbn [advance_all]. destruct (advance e ST) as [e' ST1]. cbn [snd] in *.
  specialize (IH Hles Hses ST1 Hsh1 Hsym1).
  destruct (advance_all es ST1) as [es' ST2]. exact IH.
Qed.

Lemma advance_all_symmetric_witness :
  shaped (snd (advance_all [sample_rfcavity; sample_drift] sample_state)) /\
  symmetric
    (state (snd (advance_all [sample_rfcavity; sample_drift] sample_state))).
Proof.
  apply (advance_all_symmetric [sample_rfcavity; sample_drift] sample_state).
  - repeat constructor;
      first [exact sample_drift_lifetime | exact sample_rfcavity_lifetime].
  - reflexivity.
  - split; [reflexivity|]. exact (square_identity maxsize).
  - exact (symmetric_identity maxsize).
Defined.

(** X9.  A source built from a configuration holds the state that the
    state constructor builds from the same configuration; its advance
    leaves the element as it is and gives the caller's state the
    position, energy, phase, gamma, beta, first and second moments of the
    held state, whatever the caller's state held before. *)
Theorem source_resets_state (c : Config) (indet : nat -> R) (e : Element)
        (ST : Moment2State) :
  build source c indet = Ok e ->
  exists st,
    Moment2State_ctor c = Ok st /\
    fst (advance e ST) = e /\
    pos (snd (advance e ST)) = pos st /\
    Ekinetic (snd (advance e ST)) = Ekinetic st /\
    sync_phase (snd (advance e ST)) = sync_phase st /\
    gamma (snd (advance e ST)) = gamma st /\
    beta (snd (advance e ST)) = beta st /\
    moment0 (snd (advance e ST)) = moment0 st /\
    state (snd (advance e ST)) = state st.
Proof.
  cbn [build]. unfold ElementSource_ctor. intros H. bind_inv H.
  inversion H; subst e. eexists. split; [reflexivity|].
  cbn. repeat split.
Qed.

Lemma source_resets_state_witness :
  exists st,
    Moment2State_ctor sample_conf = Ok st /\
    fst (advance (ElementSource sample_base
                    (mkState 0 2 0 0 (gamma_of 0 1) (beta_of (gamma_of 0 1))
                             (repeat 0 maxsize) (identity_matrix maxsize)))
                 sample_state2)
    = ElementSource sample_base
        (mkState 0 2 0 0 (gamma_of 0 1) (beta_of (gamma_of 0 1))
                 (repeat 0 maxsize) (identity_matrix maxsize)) /\
    pos (snd (advance (ElementSource sample_base
                    (mkState 0 2 0 0 (gamma_of 0 1) (beta_of (gamma_of 0 1))
                             (repeat 0 maxsize) (identity_matrix maxsize)))
                 sample_state2)) = pos st.
Proof.
  destruct (source_resets_state sample_conf sample_indet
              (ElementSource sample_base
                 (mkState 0 2 0 0 (gamma_of 0 1) (beta_of (gamma_of 0 1))
                          (repeat 0 maxsize) (identity_matrix maxsize)))
              sample_state2) as (st & H1 & H2 & H3 & _).
  - cbn [build]. unfold ElementSource_ctor. rewrite sample_base_built.
    reflexivity.
  - exists st. auto.
Defined.

(** ** One state several times through one element *)

Section Passes.

Lemma advance_base_scalars (e : Element) (ST : Moment2State) :
  length (base (fst (advance e ST))) = length (base e) /\
  phase_factor (base (fst (advance e ST))) = phase_factor (base e).
Proof.
  assert (Hdef : forall b,
    length (fst (Moment2ElementBase_advance b ST)) = length b /\
    phase_factor (fst (Moment2ElementBase_advance b ST)) = phase_factor b).
  { intros b. unfold Moment2ElementBase_advance.
    destruct (energy_step recompute b ST) as [b1 k] eqn:E.
    apply (energy_step_scalars recompute b b1 ST k); [|assumption].
    unfold recompute. intros b' k' H. inversion H; subst. auto. }
  destruct e; cbn [advance base]; try (split; reflexivity);
    try (specialize (Hdef b);
         destruct (Moment2ElementBase_advance b ST); exact Hdef).
  unfold ElementRFCavity_advance.
  destruct (energy_step recompute_rf b ST) as [b1 k] eqn:E.
  apply (energy_step_scalars recompute_rf b b1 ST k); [|assumption].
  unfold recompute_rf. intros b' k' H. inversion H; subst. auto.
Qed.

Lemma is_source_advance (e : Element) (ST : Moment2State) :
  is_source (fst (advance e ST)) = is_source e.
Proof.
  destruct e; cbn [advance]; try reflexivity;
    try (destruct (Moment2ElementBase_advance _ ST); reflexivity).
  destruct (ElementRFCavity_advance b ST); reflexivity.
Qed.

Lemma prod_mv_identity (n : nat) (v : vector) :
  List.length v = n -> prod_mv (identity_matrix n) v = v.
Proof.
  intros Hv. apply (nth_ext _ _ 0 0).
  - rewrite length_prod_mv. cbn. congruence.
  - intros i Hi. rewrite length_prod_mv in Hi. cbn in Hi.
    unfold prod_mv. cbn [identity_matrix mbuild size1 size2].
    rewrite (nth_indep _ 0 (sum_n n (fun k =>
               mget (identity_matrix n) 0 k * nth k v 0)))
      by (rewrite length_map, length_seq; assumption).
    rewrite (map_nth (fun i => sum_n n (fun k =>
               mget (identity_matrix n) i k * nth k v 0))).
    rewrite seq_nth by assumption. cbn [Nat.add].
    rewrite (sum_n_single n i).
    + rewrite mget_identity, Nat.eqb_refl by assumption. ring.
    + assumption.
    + intros k Hk Hne. rewrite mget_identity by assumption.
      destruct (Nat.eqb_spec i k); [congruence|ring].
Qed.

Lemma trans_identity (n : nat) : trans (identity_matrix n) = identity_matrix n.
Proof.
  change (mbuild n n (fun i j => mget (identity_matrix n) j i)
          = mbuild n n (fun i j => if Nat.eqb i j then 1 else 0)).
  apply mbuild_ext. intros i j Hi Hj.
  rewrite mget_identity by assumption. rewrite Nat.eqb_sym. reflexivity.
Qed.

(** The congruence with the identity changes nothing. *)
Lemma congruence_identity (S : matrix) :
  square maxsize S ->
  prod (prod (identity_matrix maxsize) S) (trans (identity_matrix maxsize)) = S.
Proof.
  intros (H1 & H2 & Hwf). rewrite trans_identity.
  rewrite <- H1 at 1. rewrite prod_identity_l by assumption.
  rewrite <- H2 at 1. apply prod_identity_r. assumption.
Qed.

Lemma energy_term_no_length (b : Moment2ElementBase) (ST : Moment2State) :
  length b = 0 -> energy_term b ST = 0.
Proof. intros H. unfold energy_term. rewrite H. unfold Rdiv. ring. Qed.

Lemma mset_identity_zero :
  mset (identity_matrix maxsize) PS_S PS_PS 0 = identity_matrix maxsize.
Proof. reflexivity. Qed.

Lemma marker_like_with_scratch (b : Moment2ElementBase) (M : matrix) :
  marker_like b -> marker_like (with_scratch b M).
Proof.
  intros (H1 & H2 & H3 & H4 & H5).
  split; [|split; [|split; [|split]]]; try assumption.
  apply (base_inv_with_scratch b M H4).
Qed.

Lemma marker_like_recompute (b : Moment2ElementBase) (ST : Moment2State) :
  marker_like b ->
  marker_like (fst (recompute b ST)) /\
  transfer (fst (recompute b ST)) = identity_matrix maxsize /\
  last_Kenergy_out (snd (recompute b ST)) = Ekinetic ST.
Proof.
  intros (Hlen & Hph & Hraw & Hb & Hk).
  pose proof (recompute_transfer b ST Hb) as Ht.
  pose proof (base_inv_recompute b ST Hb) as Hb'.
  assert (Hraw' : transfer_raw (fst (recompute b ST)) = identity_matrix maxsize).
  { unfold recompute. cbn [fst transfer_raw].
    rewrite Hraw, (energy_term_no_length b ST Hlen). exact mset_identity_zero. }
  split; [|split].
  - split; [|split; [|split; [|split]]]; try assumption. reflexivity.
  - rewrite Ht. exact Hraw'.
  - reflexivity.
Qed.

(** One call of the default advance on a marker. *)
Lemma marker_step (b : Moment2ElementBase) (ST : Moment2State) :
  marker_like b -> shaped ST ->
  marker_like (fst (Moment2ElementBase_advance b ST)) /\
  snd (Moment2ElementBase_advance b ST) = ST.
Proof.
  intros Hmk [Hm Hs].
  assert (Hfin : forall b1 k,
    marker_like b1 ->
    transfer b1 = identity_matrix maxsize ->
    last_Kenergy_out k = Ekinetic ST ->
    marker_like (fst (transport b1 k ST)) /\ snd (transport b1 k ST) = ST).
  { intros b1 k Hmk1 H3 H4. split.
    - apply marker_like_with_scratch. assumption.
    - destruct Hmk1 as (H1 & H2 & _). unfold transport. cbn [snd].
      rewrite H1, H2, H3, H4, prod_mv_identity, congruence_identity
        by assumption.
      destruct ST; cbn. f_equal; unfold Rdiv; ring. }
  unfold Moment2ElementBase_advance.
  destruct (cache_miss b ST) eqn:Hmiss.
  - rewrite energy_step_miss by assumption.
    destruct (marker_like_recompute b ST Hmk) as (H1 & H2 & H3).
    destruct (recompute b ST) as [b1 k]. cbn [fst snd] in *.
    apply Hfin; assumption.
  - destruct (energy_step_hit recompute b ST Hmiss) as (k & Hc & Hin & ->).
    pose proof Hmk as (_ & _ & Hraw & Hb & Hk). rewrite Hc in Hk.
    apply Hfin; try assumption.
    + destruct (inv_transfer b Hb) as [Hn|Ht]; congruence.
    + congruence.
Qed.

Lemma marker_built (c : Config) (indet : nat -> R) (e : Element) :
  build marker c indet = Ok e ->
  exists b, e = ElementMark b /\ marker_like b.
Proof.
  cbn [build]. unfold ElementMark_ctor. intros H.
  destruct (Moment2ElementBase_ctor c indet) as [b|] eqn:Eb;
    cbn [bind] in H; [|discriminate].
  inversion H; subst e. eexists. split; [reflexivity|].
  destruct (base_inv_ctor _ _ _ Eb) as [[H1 H2 H3 H4] Hc].
  pose proof (Moment2ElementBase_ctor_inv _ _ _ Eb)
    as (v & f & es & _ & _ & _ & Hb).
  unfold marker_like. cbn [length phase_factor transfer_raw energy_cache].
  rewrite Hc.
  split; [reflexivity|]. split; [reflexivity|].
  split; [rewrite Hb; reflexivity|]. split; [|exact I].
  constructor;
    cbn [misalign misalign_inv transfer transfer_raw energy_cache];
    first [assumption | left; reflexivity].
Qed.

End Passes.

(** X10.  One state [n] times through one element in its lifetime that
    is not a source: the position grows by [n] times the length, the
    phase by [n] times phase_factor / beta, beta and gamma stay, and the
    kinetic energy grows by [n] through an RF cavity and stays through a
    passive element. *)
Theorem passes_scalars (n : nat) (e : Element) (ST : Moment2State) :
  lifetime e -> is_source e = false ->
  let ST' := snd (passes n e ST) in
  beta ST' = beta ST /\ gamma ST' = gamma ST /\
  pos ST' = pos ST + INR n * length (base e) /\
  sync_phase ST' = sync_phase ST + INR n * (phase_factor (base e) / beta ST) /\
  Ekinetic ST' = Ekinetic ST + (if is_rfcavity e then INR n else 0).
Proof.
  revert e ST. induction n as [|n IH]; intros e ST Hl Hs.
  - cbn. destruct (is_rfcavity e); repeat split; ring.
  - destruct (advance_scalars e ST Hl Hs) as (_ & Hp & HE & Hsy & Hg & Hb).
    destruct (advance_base_scalars e ST) as [Hlen Hph].
    pose proof (is_rfcavity_advance e ST) as Hrf.
    pose proof (is_source_advance e ST) as Hsrc.
    pose proof (life_advance e ST Hl) as Hl'.
    cbn [passes]. destruct (advance e ST) as [e' ST1]. cbn [fst snd] in *.
    rewrite Hs in Hsrc. specialize (IH e' ST1 Hl' Hsrc). cbn zeta in IH.
    destruct IH as (IHb & IHg & IHp & IHsy & IHE).
    rewrite S_INR. cbn zeta. repeat split.
    + congruence.
    + congruence.
    + rewrite IHp, Hp, Hlen. ring.
    + rewrite IHsy, Hsy, Hph, Hb. ring.
    + rewrite IHE, HE, Hrf. destruct (is_rfcavity e); ring.
Qed.

Lemma passes_scalars_witness :
  let ST' := snd (passes 3 sample_rfcavity sample_state) in
  beta ST' = beta sample_state /\ gamma ST' = gamma sample_state /\
  pos ST' = pos sample_state + INR 3 * length (base sample_rfcavity) /\
  sync_phase ST'
  = sync_phase sample_state
    + INR 3 * (phase_factor (base sample_rfcavity) / beta sample_state) /\
  Ekinetic ST' = Ekinetic sample_state + INR 3.
Proof.
  apply (passes_scalars 3 sample_rfcavity sample_state).
  - exact sample_rfcavity_lifetime.
  - reflexivity.
Defined.

(** X11.  A marker built by its constructor changes nothing: after any
    number of passes a state of the constructor's shape is the state that
    went in, energy terms recomputed or not.  (Real arithmetic; the
    hypothesis on the divisions says that the quotients the code forms
    are quotients of numbers.) *)
Theorem marker_is_noop (c : Config) (indet : nat -> R) (e : Element)
        (n : nat) (ST : Moment2State) :
  build marker c indet = Ok e ->
  shaped ST -> divisions_defined (base e) ST ->
  snd (passes n e ST) = ST.
Proof.
  intros Hb Hsh _.
  destruct (marker_built c indet e Hb) as (b & -> & Hm). clear Hb.
  revert b Hm. induction n as [|n IH]; intros b Hm; [reflexivity|].
  cbn [passes advance base rebase].
  destruct (marker_step b ST Hm Hsh) as [Hm' Hst].
  destruct (Moment2ElementBase_advance b ST) as [b' ST'].
  cbn [fst snd] in *. subst ST'. apply IH. assumption.
Qed.

Lemma marker_is_noop_witness :
  snd (passes 2 sample_marker sample_state) = sample_state.
Proof.
  apply (marker_is_noop sample_conf sample_indet sample_marker 2 sample_state).
  - cbn [build]. unfold ElementMark_ctor. rewrite sample_base_built.
    reflexivity.
  - split; [reflexivity|]. exact (square_identity maxsize).
  - assert (Hg : gamma sample_state = 1) by (cbn; unfold gamma_of; field).
    assert (Hb : 1 <= beta sample_state).
    { cbn [beta sample_state]. apply beta_of_ge_1.
      change (gamma sample_state <> 0). rewrite Hg. lra. }
    split; [|lra].
    cbn [base sample_marker FSampLength Erest]. rewrite Hg.
    assert (Hf : 0 < C0 / 80500000 * MtoMM) by (unfold C0, MtoMM; lra).
    assert (Hc : 0 < cube (beta sample_state * 1)) by (unfold cube; nra).
    apply Rgt_not_eq. apply Rmult_lt_0_compat; [|assumption].
    apply Rmult_lt_0_compat; [assumption|lra].
Defined.

(** ** What the transfer matrices do *)

Ltac vcompute :=
  cbv [prod_mv sum_n drift_matrix identity_matrix maxsize mbuild mset mget
       PS_X PS_PX PS_Y PS_PY PS_S PS_PS size1 size2 data
       flat_map map seq app Nat.eqb set_nth nth Nat.add Nat.mul andb orb].

Section TransferFacts.

(** The element after a default advance: on a miss the energy term is
    written into the raw matrix and the effective transfer is formed from
    it; on a hit both matrices are left as they are. *)
Lemma default_advance_matrices (b : Moment2ElementBase) (ST : Moment2State) :
  base_inv b ->
  (cache_miss b ST = true ->
   transfer_raw (fst (Moment2ElementBase_advance b ST))
   = mset (transfer_raw b) PS_S PS_PS (energy_term b ST) /\
   transfer (fst (Moment2ElementBase_advance b ST))
   = mset (transfer_raw b) PS_S PS_PS (energy_term b ST)) /\
  (cache_miss b ST = false ->
   transfer_raw (fst (Moment2ElementBase_advance b ST)) = transfer_raw b /\
   transfer (fst (Moment2ElementBase_advance b ST)) = transfer b).
Proof.
  intros Hb. unfold Moment2ElementBase_advance. split; intros Hm.
  - rewrite energy_step_miss by assumption.
    pose proof (recompute_transfer b ST Hb) as Ht.
    unfold recompute in *. cbn [fst transport with_scratch transfer transfer_raw]
      in *.
    split; [reflexivity|exact Ht].
  - destruct (energy_step_hit recompute b ST Hm) as (k & _ & _ & ->).
    split; reflexivity.
Qed.

Lemma drift_built (c : Config) (indet : nat -> R) (e : Element) :
  build drift c indet = Ok e ->
  exists b, e = ElementDrift b /\ base_inv b /\ energy_cache b = None /\
    transfer_raw b
    = drift_matrix (get_double_def c "L" 0 * MtoMM) (identity_matrix maxsize).
Proof.
  intros H. destruct (build_inv _ _ _ _ H) as [Hb Hc].
  cbn [build] in H. unfold ElementDrift_ctor in H.
  destruct (Moment2ElementBase_ctor c indet) as [b|] eqn:Eb;
    cbn [bind] in H; [|discriminate].
  inversion H; subst e. eexists. split; [reflexivity|].
  split; [exact Hb|]. split; [exact Hc|].
  pose proof (Moment2ElementBase_ctor_inv _ _ _ Eb)
    as (v & f & es & _ & _ & _ & ->).
  reflexivity.
Qed.

End TransferFacts.

(** X12.  A drift built from a configuration moves the first moments
    (x, x', y, y', s, ps, h) of the first state it is given to
    (x + L x', x', y + L y', y', s + t ps, ps, h), where L is the length
    in millimetres and t the energy term computed from the state's beta
    and gamma. *)
Theorem drift_moves_centroid (c : Config) (indet : nat -> R) (e : Element)
        (ST : Moment2State) (x px y py s ps h : R) :
  build drift c indet = Ok e ->
  moment0 ST = [x; px; y; py; s; ps; h] ->
  moment0 (snd (advance e ST))
  = [x + get_double_def c "L" 0 * MtoMM * px; px;
     y + get_double_def c "L" 0 * MtoMM * py; py;
     s + energy_term (base e) ST * ps; ps; h].
Proof.
  intros Hb Hm.
  destruct (drift_built c indet e Hb) as (b & -> & Hinv & Hc & Hraw).
  destruct (default_advance_matrices b ST Hinv) as [Hmiss _].
  destruct (Hmiss (cache_miss_None b ST Hc)) as [_ Ht].
  destruct (Moment2ElementBase_advance_spec b ST) as (k & _ & _ & Hs).
  cbn [advance base rebase].
  destruct (Moment2ElementBase_advance b ST) as [b' ST'].
  cbn [fst snd] in *. rewrite Hs. cbn [moment0].
  rewrite Ht, Hraw, Hm.
  generalize (energy_term b ST) as t.
  generalize (get_double_def c "L" 0 * MtoMM) as L. intros L t.
  vcompute.
  repeat (apply (f_equal2 (@cons R)); [ring|]). reflexivity.
Qed.

Lemma drift_moves_centroid_witness :
  moment0 (snd (advance sample_drift sample_state2))
  = [1 + get_double_def sample_conf "L" 0 * MtoMM * 0; 0;
     0 + get_double_def sample_conf "L" 0 * MtoMM * 0; 0;
     0 + energy_term (base sample_drift) sample_state2 * 1; 1; 1].
Proof.
  apply (drift_moves_centroid sample_conf sample_indet sample_drift
           sample_state2).
  - exact sample_drift_built.
  - reflexivity.
Defined.

(** X13.  A passive element in its lifetime that misses its cache on a
    state writes that state's energy term at (PS_S, PS_PS) of its raw
    matrix, whatever was there, and uses the result as transfer.  A later
    state with the same kinetic energy is moved by that same transfer,
    computed from the beta and gamma of the earlier state, whatever its
    own beta and gamma are. *)
Theorem cache_reuses_transfer (e : Element) (ST ST2 : Moment2State) :
  lifetime e -> default_advance e = true ->
  cache_miss (base e) ST = true -> Ekinetic ST2 = Ekinetic ST ->
  let e1 := fst (advance e ST) in
  transfer (base e1)
  = mset (transfer_raw (base e)) PS_S PS_PS (energy_term (base e) ST) /\
  mget (transfer (base e1)) PS_S PS_PS = energy_term (base e) ST /\
  transfer (base (fst (advance e1 ST2))) = transfer (base e1) /\
  moment0 (snd (advance e1 ST2)) = prod_mv (transfer (base e1)) (moment0 ST2).
Proof.
  intros Hl Hd Hm HE e1.
  destruct (lifetime_inv e Hl) as [Hb _].
  destruct (default_advance_energy e ST Hl Hd) as [_ Hc]. fold e1 in Hc.
  assert (Hd1 : default_advance e1 = true).
  { unfold e1. rewrite (advance_default e ST Hd). cbn [fst].
    rewrite default_advance_rebase. assumption. }
  assert (Ht : transfer (base e1)
               = mset (transfer_raw (base e)) PS_S PS_PS
                      (energy_term (base e) ST)).
  { unfold e1. rewrite (advance_default e ST Hd). cbn [fst].
    rewrite base_rebase.
    destruct (default_advance_matrices (base e) ST Hb) as [H _].
    exact (proj2 (H Hm)). }
  assert (Hhit : cache_miss (base e1) ST2 = false)
    by (apply (cache_miss_same _ _ (Ekinetic ST)); rewrite HE; exact Hc).
  assert (Ht2 : transfer (base (fst (advance e1 ST2))) = transfer (base e1)).
  { rewrite (advance_default e1 ST2 Hd1). cbn [fst]. rewrite base_rebase.
    rewrite Moment2ElementBase_advance_hit by assumption. reflexivity. }
  split; [exact Ht|]. split; [|split; [exact Ht2|]].
  - rewrite Ht. destruct (inv_raw _ Hb) as (H1 & H2 & Hwf).
    rewrite mget_mset
      by (first [assumption
                |rewrite ?H1, ?H2; unfold maxsize, PS_S, PS_PS; lia]).
    rewrite !Nat.eqb_refl. reflexivity.
  - destruct (advance_default_shape e1 ST2 Hd1) as [k Hk].
    rewrite Hk. cbn [moment0]. rewrite Ht2. reflexivity.
Qed.

Lemma cache_reuses_transfer_witness :
  let e1 := fst (advance sample_drift sample_state) in
  transfer (base e1)
  = mset (transfer_raw (base sample_drift)) PS_S PS_PS
         (energy_term (base sample_drift) sample_state) /\
  mget (transfer (base e1)) PS_S PS_PS
  = energy_term (base sample_drift) sample_state /\
  transfer (base (fst (advance e1 sample_state2))) = transfer (base e1) /\
  moment0 (snd (advance e1 sample_state2))
  = prod_mv (transfer (base e1)) (moment0 sample_state2).
Proof.
  apply (cache_reuses_transfer sample_drift sample_state sample_state2).
  - exact sample_drift_lifetime.
  - reflexivity.
  - reflexivity.
  - reflexivity.
Defined.

(** ** The 2 x 2 block of one plane *)

Section BlockFacts.

Lemma cosh2_sinh2 (x : R) : cosh x * cosh x - sinh x * sinh x = 1.
Proof.
  unfold cosh, sinh.
  replace ((exp x + exp (- x)) / 2 * ((exp x + exp (- x)) / 2)
           - (exp x - exp (- x)) / 2 * ((exp x - exp (- x)) / 2))
    with (exp x * exp (- x)) by field.
  rewrite <- exp_plus, Rplus_opp_r. apply exp_0.
Qed.

Lemma sin2_cos2_mult (x : R) : cos x * cos x + sin x * sin x = 1.
Proof. pose proof (sin2_cos2 x) as H. unfold Rsqr in H. lra. Qed.

(** [Get2by2Matrix] is four assignments, of values that make a block of
    determinant 1. *)
Lemma Get2by2Matrix_form (L K : R) (ind : nat) (M : matrix) :
  exists cs u w,
    Get2by2Matrix L K ind M
    = mset (mset (mset (mset M (ind + 1) (ind + 1) cs) ind ind cs)
                 ind (ind + 1) u)
           (ind + 1) ind w /\
    cs * cs - u * w = 1.
Proof.
  unfold Get2by2Matrix. destruct (Rgt_dec K 0) as [HK|HK].
  - destruct (Rne_dec (sqrt K) 0) as [Hs|Hs].
    + do 3 eexists. split; [reflexivity|].
      transitivity (cos (sqrt K * L) * cos (sqrt K * L)
                    + sin (sqrt K * L) * sin (sqrt K * L));
        [field; assumption | apply sin2_cos2_mult].
    + do 3 eexists. split; [reflexivity|].
      rewrite Hs, Rmult_0_l, cos_0. ring.
  - destruct (Rne_dec (sqrt (- K)) 0) as [Hs|Hs].
    + do 3 eexists. split; [reflexivity|].
      transitivity (cosh (sqrt (- K) * L) * cosh (sqrt (- K) * L)
                    - sinh (sqrt (- K) * L) * sinh (sqrt (- K) * L));
        [field; assumption | apply cosh2_sinh2].
    + do 3 eexists. split; [reflexivity|].
      rewrite Hs, Rmult_0_l, cosh_0. ring.
Qed.

Lemma mset_sizes (M : matrix) (i j : nat) (v : R) :
  size1 (mset M i j v) = size1 M /\ size2 (mset M i j v) = size2 M.
Proof. split; reflexivity. Qed.

End BlockFacts.

(** X14.  [Get2by2Matrix] writes the four entries of the block at rows
    and columns ind, ind+1 and no other entry; for every length and every
    strength, focusing, defocusing or zero, the block it writes has
    determinant 1 (real arithmetic). *)
Theorem Get2by2Matrix_block (L K : R) (ind : nat) (M : matrix) :
  wf M -> (ind + 1 < size1 M)%nat -> (ind + 1 < size2 M)%nat ->
  block_det (Get2by2Matrix L K ind M) ind = 1 /\
  size1 (Get2by2Matrix L K ind M) = size1 M /\
  size2 (Get2by2Matrix L K ind M) = size2 M /\
  forall i j, (i < size1 M)%nat -> (j < size2 M)%nat ->
    ~ ((ind <= i <= ind + 1)%nat /\ (ind <= j <= ind + 1)%nat) ->
    mget (Get2by2Matrix L K ind M) i j = mget M i j.
Proof.
  intros Hwf H1 H2.
  destruct (Get2by2Matrix_form L K ind M) as (cs & u & w & -> & Hdet).
  assert (Hget : forall i j, (j < size2 M)%nat ->
    mget (mset (mset (mset (mset M (ind + 1) (ind + 1) cs) ind ind cs)
                     ind (ind + 1) u) (ind + 1) ind w) i j
    = if (Nat.eqb i (ind + 1) && Nat.eqb j ind)%bool then w
      else if (Nat.eqb i ind && Nat.eqb j (ind + 1))%bool then u
      else if (Nat.eqb i ind && Nat.eqb j ind)%bool then cs
      else if (Nat.eqb i (ind + 1) && Nat.eqb j (ind + 1))%bool then cs
      else mget M i j).
  { intros i j Hj.
    rewrite !mget_mset; cbn [mset size1 size2];
      repeat apply wf_mset; try assumption; try lia.
    reflexivity. }
  split; [|split; [reflexivity|split; [reflexivity|]]].
  - unfold block_det. rewrite !Hget by lia.
    repeat match goal with
           | |- context [Nat.eqb ?a ?b] =>
               destruct (Nat.eqb_spec a b); try lia
           end.
    cbn [andb]. lra.
  - intros i j Hi Hj Hout. rewrite Hget by assumption.
    repeat match goal with
           | |- context [Nat.eqb ?a ?b] =>
               destruct (Nat.eqb_spec a b); try lia
           end; reflexivity.
Qed.

Lemma Get2by2Matrix_block_witness :
  block_det (Get2by2Matrix 2 3 PS_X (identity_matrix maxsize)) PS_X = 1 /\
  block_det (Get2by2Matrix 2 (- 3) PS_Y (identity_matrix maxsize)) PS_Y = 1.
Proof.
  split.
  - apply (Get2by2Matrix_block 2 3 PS_X (identity_matrix maxsize)).
    + apply wf_mbuild.
    + unfold PS_X, PS_Y, maxsize. cbn [identity_matrix mbuild size1 size2]. lia.
    + unfold PS_X, PS_Y, maxsize. cbn [identity_matrix mbuild size1 size2]. lia.
  - apply (Get2by2Matrix_block 2 (- 3) PS_Y (identity_matrix maxsize)).
    + apply wf_mbuild.
    + unfold PS_X, PS_Y, maxsize. cbn [identity_matrix mbuild size1 size2]. lia.
    + unfold PS_X, PS_Y, maxsize. cbn [identity_matrix mbuild size1 size2]. lia.
Defined.

(** ** Construction of the element types *)

Section ConstructionFacts.

Lemma get_double_def_throw (c : Config) (s : string) (def : R) (err : error) :
  get_double c s = Throw err -> get_double_def c s def = def.
Proof. unfold get_double_def. intros ->. reflexivity. Qed.

Lemma drift_matrix_zero :
  drift_matrix (0 * MtoMM) (identity_matrix maxsize) = identity_matrix maxsize.
Proof. rewrite Rmult_0_l. reflexivity. Qed.

Lemma copy_into_full (init dst : list R) :
  List.length init = List.length dst -> copy_into init dst = init.
Proof.
  intros H. unfold copy_into. rewrite H, skipn_all. apply app_nil_r.
Qed.

Lemma base_without_L_built :
  Moment2ElementBase_ctor conf_without_L sample_indet = Ok base_without_L.
Proof.
  apply (Moment2ElementBase_ctor_ok conf_without_L sample_indet
           (mkVoid "q1" 0 conf_without_L) 80500000 931494320); reflexivity.
Qed.

Lemma base_generic_built :
  Moment2ElementBase_ctor conf_generic sample_indet = Ok base_generic.
Proof.
  apply (Moment2ElementBase_ctor_ok conf_generic sample_indet
           (mkVoid "e1" 0 conf_generic) 80500000 931494320); reflexivity.
Qed.

End ConstructionFacts.

(** X15.  When the base part of an element is constructed and "L" is
    absent or is not a double, the quadrupole, the solenoid and the sector
    bend fail with the exception of that lookup, and the RF cavity fails
    too, while the drift is built with length 0, phase factor 0 and the
    identity as raw transfer matrix. *)
Theorem length_is_optional_for_drift_only
        (c : Config) (indet : nat -> R) (b : Moment2ElementBase) (err : error) :
  Moment2ElementBase_ctor c indet = Ok b ->
  get_double c "L" = Throw err ->
  build quadrupole c indet = Throw err /\
  build solenoid c indet = Throw err /\
  build sbend c indet = Throw err /\
  failed (build rfcavity c indet) /\
  build drift c indet = Ok (ElementDrift b) /\
  length b = 0 /\ phase_factor b = 0 /\
  transfer_raw b = identity_matrix maxsize.
Proof.
  intros Hb HL.
  pose proof (Moment2ElementBase_ctor_inv _ _ _ Hb)
    as (v & f & es & _ & _ & _ & Eb).
  assert (Hlen : length b = 0)
    by (rewrite Eb; cbn [length]; exact (get_double_def_throw c "L" 0 err HL)).
  assert (Hraw : transfer_raw b = identity_matrix maxsize)
    by (rewrite Eb; reflexivity).
  cbn [build].
  unfold ElementQuad_ctor, ElementSolenoid_ctor, ElementSBend_ctor,
    ElementRFCavity_ctor, ElementDrift_ctor.
  rewrite Hb, HL. cbn [bind].
  repeat split; try assumption.
  - destruct (get_string c "cavtype"); cbn [bind]; eexists; reflexivity.
  - rewrite Hlen, Hraw, drift_matrix_zero. rewrite <- Hraw.
    destruct b; reflexivity.
  - rewrite Eb. cbn [phase_factor].
    rewrite (get_double_def_throw c "L" 0 err HL). unfold Rdiv. ring.
Qed.

Lemma length_is_optional_for_drift_only_witness :
  build quadrupole conf_without_L sample_indet = Throw key_error /\
  build drift conf_without_L sample_indet = Ok (ElementDrift base_without_L).
Proof.
  destruct (length_is_optional_for_drift_only conf_without_L sample_indet
              base_without_L key_error) as (Hq & _ & _ & _ & Hd & _).
  - exact base_without_L_built.
  - reflexivity.
  - split; assumption.
Defined.

(** X16.  The generic element takes its raw transfer matrix from the
    vector under "transfer", row by row: a vector of more than
    [maxsize] * [maxsize] doubles is an invalid_argument; a shorter one
    overwrites the first cells of the identity and leaves the others;
    one of exactly that length is the storage of the matrix. *)
Theorem generic_transfer (c : Config) (indet : nat -> R)
        (b : Moment2ElementBase) (init : list R) :
  Moment2ElementBase_ctor c indet = Ok b ->
  get_vector c "transfer" = Ok init ->
  ((maxsize * maxsize < List.length init)%nat ->
   build generic c indet = Throw invalid_argument) /\
  ((List.length init <= maxsize * maxsize)%nat ->
   exists e, build generic c indet = Ok e /\
     square maxsize (transfer_raw (base e)) /\
     (forall i j, (i < maxsize)%nat -> (j < maxsize)%nat ->
        mget (transfer_raw (base e)) i j
        = if (i * maxsize + j <? List.length init)%nat
          then nth (i * maxsize + j) init 0
          else if Nat.eqb i j then 1 else 0) /\
     ((List.length init = maxsize * maxsize)%nat ->
      data (transfer_raw (base e)) = init)).
Proof.
  intros Hb Hi.
  pose proof (Moment2ElementBase_ctor_inv _ _ _ Hb)
    as (v & f & es & _ & _ & _ & Eb).
  assert (Hraw : transfer_raw b = identity_matrix maxsize)
    by (rewrite Eb; reflexivity).
  cbn [build]. unfold ElementGeneric_ctor. rewrite Hb, Hi. cbn [bind].
  rewrite Hraw, length_identity_data. split; intros Hlen.
  - destruct (Nat.ltb_spec (maxsize * maxsize) (List.length init));
      [reflexivity|lia].
  - destruct (Nat.ltb_spec (maxsize * maxsize) (List.length init)); [lia|].
    eexists. split; [reflexivity|].
    cbn [base with_transfer_raw transfer_raw].
    assert (Hle : (List.length init
                   <= List.length (data (identity_matrix maxsize)))%nat)
      by (rewrite length_identity_data; assumption).
    split; [|split].
    + repeat split. unfold wf. cbn [size1 size2 data identity_matrix mbuild].
      rewrite length_copy_into by assumption. apply length_identity_data.
    + intros i j Hlt Hlt'. unfold mget.
      cbn [size1 size2 data identity_matrix mbuild].
      rewrite nth_copy_into by assumption.
      destruct (i * maxsize + j <? List.length init)%nat; [reflexivity|].
      exact (mget_identity maxsize i j Hlt Hlt').
    + intros Hfull. cbn [data]. apply copy_into_full.
      rewrite length_identity_data. assumption.
Qed.

Lemma generic_transfer_witness :
  exists e,
    build generic conf_generic sample_indet = Ok e /\
    square maxsize (transfer_raw (base e)) /\
    (forall i j, (i < maxsize)%nat -> (j < maxsize)%nat ->
       mget (transfer_raw (base e)) i j
       = if (i * maxsize + j <? 2)%nat
         then nth (i * maxsize + j) [2; 3] 0
         else if Nat.eqb i j then 1 else 0) /\
    ((2 = maxsize * maxsize)%nat -> data (transfer_raw (base e)) = [2; 3]).
Proof.
  destruct (generic_transfer conf_generic sample_indet base_generic [2; 3])
    as [_ H].
  - exact base_generic_built.
  - reflexivity.
  - apply H. cbn. lia.
Defined.

(** ** Assigning one element to another *)

(** X17.  After [assign] from another element, a passive element in its
    lifetime has a spoiled cache, so its next advance recomputes; it then
    transports with the other element's raw matrix, with the energy term
    formed from the other's length, sampling length and rest energy, and
    advances the position by the other's length.  Its own inverse
    misalignment is kept, and is the identity like the other's. *)
Theorem assign_then_advance (e o : Element) (ST : Moment2State) :
  lifetime e -> lifetime o -> default_advance e = true ->
  let a := rebase e (Moment2ElementBase_assign (base e) (base o)) in
  cache_miss (base a) ST = true /\
  misalign_inv (base a) = misalign_inv (base e) /\
  misalign_inv (base a) = misalign_inv (base o) /\
  transfer (base (fst (advance a ST)))
  = mset (transfer_raw (base o)) PS_S PS_PS (energy_term (base o) ST) /\
  pos (snd (advance a ST)) = pos ST + length (base o) /\
  Ekinetic (snd (advance a ST)) = Ekinetic ST.
Proof.
  intros Hle Hlo Hd a.
  assert (Hla : lifetime a) by (apply life_assign; assumption).
  assert (Hda : default_advance a = true)
    by (unfold a; rewrite default_advance_rebase; assumption).
  assert (Hba : base a = Moment2ElementBase_assign (base e) (base o))
    by (unfold a; apply base_rebase).
  destruct (lifetime_inv a Hla) as [Hinv _].
  destruct (lifetime_inv e Hle) as [[_ Hie _ _] _].
  destruct (lifetime_inv o Hlo) as [[_ Hio _ _] _].
  assert (Hmiss : cache_miss (base a) ST = true)
    by (apply cache_miss_None; rewrite Hba; reflexivity).
  split; [exact Hmiss|].
  split; [rewrite Hba; reflexivity|].
  split; [rewrite Hba; cbn [Moment2ElementBase_assign misalign_inv]; congruence|].
  split; [|split].
  - rewrite (advance_default a ST Hda). cbn [fst]. rewrite base_rebase.
    destruct (default_advance_matrices (base a) ST Hinv) as [H _].
    rewrite (proj2 (H Hmiss)), Hba. reflexivity.
  - destruct (advance_default_shape a ST Hda) as [k Hk].
    rewrite Hk, Hba. reflexivity.
  - exact (proj1 (default_advance_energy a ST Hla Hda)).
Qed.

Lemma assign_then_advance_witness :
  let a := rebase sample_marker
             (Moment2ElementBase_assign (base sample_marker)
                                        (base sample_drift)) in
  cache_miss (base a) sample_state = true /\
  misalign_inv (base a) = misalign_inv (base sample_marker) /\
  misalign_inv (base a) = misalign_inv (base sample_drift) /\
  transfer (base (fst (advance a sample_state)))
  = mset (transfer_raw (base sample_drift)) PS_S PS_PS
         (energy_term (base sample_drift) sample_state) /\
  pos (snd (advance a sample_state))
  = pos sample_state + length (base sample_drift) /\
  Ekinetic (snd (advance a sample_state)) = Ekinetic sample_state.
Proof.
  apply (assign_then_advance sample_marker sample_drift sample_state).
  - apply (life_built marker sample_conf sample_indet).
    cbn [build]. unfold ElementMark_ctor. rewrite sample_base_built.
    reflexivity.
  - exact sample_drift_lifetime.
  - reflexivity.
Defined.

(** ** Linearity in the first moments *)

Section Linearity.

Lemma nth_lincomb (a b : R) (u v : vector) (k : nat) :
  List.length u = List.length v ->
  nth k (lincomb a u b v) 0 = a * nth k u 0 + b * nth k v 0.
Proof.
  revert v k. induction u as [|x u IH]; intros [|y v] k H;
    try discriminate H.
  - destruct k; cbn; ring.
  - destruct k as [|k]; cbn [lincomb nth]; [reflexivity|].
    apply IH. inversion H. reflexivity.
Qed.

Lemma lincomb_map (a b : R) (f g : nat -> R) (l : list nat) :
  lincomb a (map f l) b (map g l) = map (fun i => a * f i + b * g i) l.
Proof. induction l as [|i l IH]; cbn; [|rewrite IH]; reflexivity. Qed.

Lemma prod_mv_lincomb (A : matrix) (a b : R) (u v : vector) :
  List.length u = List.length v ->
  prod_mv A (lincomb a u b v) = lincomb a (prod_mv A u) b (prod_mv A v).
Proof.
  intros H. unfold prod_mv. rewrite lincomb_map. apply map_ext. intros i.
  rewrite <- !sum_n_scal_l, <- sum_n_plus. apply sum_n_ext. intros k _.
  rewrite (nth_lincomb a b u v k H). ring.
Qed.

(** The element after a call does not depend on the first moments. *)
Lemma advance_with_moment0 (e : Element) (ST : Moment2State) (m : vector) :
  is_source e = false ->
  moment0 (snd (advance e (with_moment0 ST m)))
  = prod_mv (transfer (base (fst (advance e ST)))) m.
Proof.
  intros Hs. destruct e; try discriminate Hs; cbn [advance base];
    try (unfold Moment2ElementBase_advance;
         change (energy_step recompute b (with_moment0 ST m))
           with (energy_step recompute b ST);
         destruct (energy_step recompute b ST) as [b1 k]; reflexivity).
  unfold ElementRFCavity_advance.
  change (energy_step recompute_rf b (with_moment0 ST m))
    with (energy_step recompute_rf b ST).
  destruct (energy_step recompute_rf b ST) as [b1 k]. reflexivity.
Qed.

End Linearity.

(** X18.  For an element that is not a source and a state with given
    energy, beta and gamma, the first moments after advance are linear in
    the first moments before: a combination a u + b v of two vectors of
    equal length is sent to the same combination of their images (real
    arithmetic). *)
Theorem advance_is_linear (e : Element) (ST : Moment2State) (a b : R)
        (u v : vector) :
  is_source e = false -> List.length u = List.length v ->
  moment0 (snd (advance e (with_moment0 ST (lincomb a u b v))))
  = lincomb a (moment0 (snd (advance e (with_moment0 ST u))))
            b (moment0 (snd (advance e (with_moment0 ST v)))).
Proof.
  intros Hs Hlen. rewrite !advance_with_moment0 by assumption.
  apply prod_mv_lincomb. assumption.
Qed.

Lemma advance_is_linear_witness :
  moment0 (snd (advance sample_drift
                  (with_moment0 sample_state
                     (lincomb 2 [1; 0; 0; 0; 0; 0; 1] 3 [0; 1; 0; 0; 0; 0; 1]))))
  = lincomb 2 (moment0 (snd (advance sample_drift
                          (with_moment0 sample_state [1; 0; 0; 0; 0; 0; 1]))))
            3 (moment0 (snd (advance sample_drift
                          (with_moment0 sample_state [0; 1; 0; 0; 0; 0; 1])))).
Proof.
  apply (advance_is_linear sample_drift sample_state 2 3
           [1; 0; 0; 0; 0; 0; 1] [0; 1; 0; 0; 0; 0; 1]); reflexivity.
Defined.

(** ** The inverse of other matrices *)

Section InverseFacts.

(** Once a zero pivot is recorded it stays recorded. *)
Lemma lu_factorize_step_singular (i : nat) (m : matrix) (pm : list nat)
      (s : nat) :
  s <> 0%nat -> snd (lu_factorize_step i (m, pm, s)) <> 0%nat.
Proof.
  intros Hs. unfold lu_factorize_step.
  destruct (Rne_dec _ 0).
  - destruct (negb _); cbn [snd]; assumption.
  - cbn [snd]. destruct (Nat.eqb_spec s 0); [contradiction|assumption].
Qed.

Lemma lu_factorize_fold_singular (l : list nat) (acc : matrix * list nat * nat) :
  snd acc <> 0%nat ->
  snd (fold_left (fun acc i => lu_factorize_step i acc) l acc) <> 0%nat.
Proof.
  revert acc. induction l as [|i l IH]; intros [[m pm] s] Hs; [exact Hs|].
  cbn [fold_left]. apply IH.
  apply lu_factorize_step_singular. exact Hs.
Qed.

Lemma index_norm_inf_zeros (v : list R) :
  (forall x, In x v -> x = 0) -> index_norm_inf v = 0%nat.
Proof.
  intros H. apply index_norm_inf_loop_le. intros x Hx.
  rewrite (H x Hx), Rabs_R0. lra.
Qed.

Lemma nth_map_recip (d : list R) (i : nat) :
  (i < List.length d)%nat -> nth i (map (fun x => 1 / x) d) 0 = 1 / nth i d 0.
Proof.
  intros H. rewrite (nth_indep _ 0 (1 / 0)) by (rewrite length_map; assumption).
  apply (map_nth (fun x => 1 / x)).
Qed.

End InverseFacts.

(** X19.  [inverse] rejects a matrix whose first column is zero: the
    factorisation records the zero pivot of the first column and the
    call fails with runtime_error. *)
Theorem inverse_zero_column (M : matrix) :
  (0 < size1 M)%nat -> (0 < size2 M)%nat ->
  (forall r, (r < size1 M)%nat -> mget M r 0 = 0) ->
  inverse M = Throw runtime_error.
Proof.
  intros H1 H2 Hcol. unfold inverse.
  assert (Hsing : snd (lu_factorize M (seq 0 (size1 M))) <> 0%nat).
  { unfold lu_factorize.
    destruct (Nat.min (size1 M) (size2 M)) as [|k] eqn:Hmin; [lia|].
    cbn [seq fold_left]. apply lu_factorize_fold_singular.
    unfold lu_factorize_step. rewrite Nat.sub_0_r.
    rewrite index_norm_inf_zeros.
    - cbn [Nat.add]. rewrite (Hcol 0%nat H1).
      destruct (Rne_dec 0 0) as [H|_]; [congruence|]. cbn. discriminate.
    - intros x Hx. apply in_map_iff in Hx. destruct Hx as (r & <- & Hr).
      apply in_seq in Hr. apply Hcol. lia. }
  destruct (lu_factorize M (seq 0 (size1 M))) as [[lu pm] s]. cbn [snd] in Hsing.
  destruct (Nat.eqb_spec s 0); [contradiction|reflexivity].
Qed.

Lemma inverse_zero_column_witness :
  inverse (mbuild 2 2 (fun i j => if Nat.eqb j 0 then 0 else 1))
  = Throw runtime_error.
Proof.
  apply (inverse_zero_column (mbuild 2 2 (fun i j => if Nat.eqb j 0 then 0 else 1))).
  - cbn. lia.
  - cbn. lia.
  - intros r Hr. cbn [mbuild size1] in Hr.
    rewrite mget_mbuild by lia. reflexivity.
Defined.

Section InverseDiagonal.

Variable d : list R.
Hypothesis d_nonzero : Forall (fun x => x <> 0) d.

Local Abbreviation n := (List.length d).
Local Abbreviation D := (diagonal_matrix d).

(** The identity with its rows from [k] on divided by the diagonal. *)
Local Abbreviation partly_solved k :=
  (mbuild n n (fun r c => if (k <=? r)%nat
                          then mget (identity_matrix n) r c / nth r d 0
                          else mget (identity_matrix n) r c)).

Lemma nth_d_nonzero (i : nat) : (i < n)%nat -> nth i d 0 <> 0.
Proof.
  intros H. apply (proj1 (Forall_forall _ d) d_nonzero). apply nth_In. exact H.
Qed.

Lemma mget_D (i j : nat) :
  (i < n)%nat -> (j < n)%nat ->
  mget D i j = if Nat.eqb i j then nth i d 0 else 0.
Proof. intros Hi Hj. unfold diagonal_matrix. rewrite mget_mbuild; auto. Qed.

Lemma square_D : square n D.
Proof. repeat split. apply wf_mbuild. Qed.

Lemma index_norm_inf_D (i : nat) :
  (i < n)%nat ->
  index_norm_inf (map (fun r => mget D r i) (seq i (n - i))) = 0%nat.
Proof.
  intros Hi. replace (n - i)%nat with (S (n - i - 1)) by lia.
  unfold index_norm_inf. cbn [seq map index_norm_inf_loop].
  rewrite (mget_D i i Hi Hi), Nat.eqb_refl.
  pose proof (Rabs_pos_lt _ (nth_d_nonzero i Hi)) as Hpos.
  destruct (Rgt_dec (Rabs (nth i d 0)) 0) as [_|H]; [|lra].
  apply index_norm_inf_loop_le. intros x Hx.
  apply in_map_iff in Hx. destruct Hx as [r [<- Hr]].
  apply in_seq in Hr. rewrite mget_D by lia.
  destruct (Nat.eqb_spec r i); [lia|]. rewrite Rabs_R0. lra.
Qed.

Lemma lu_factorize_step_D (i : nat) (pm : list nat) :
  (i < n)%nat -> lu_factorize_step i (D, pm, 0%nat) = (D, pm, 0%nat).
Proof.
  intros Hi. unfold lu_factorize_step.
  change (size1 D) with n. change (size2 D) with n.
  rewrite index_norm_inf_D, Nat.add_0_r by assumption.
  rewrite (mget_D i i Hi Hi), Nat.eqb_refl.
  destruct (Rne_dec (nth i d 0) 0) as [_|H];
    [|exfalso; exact (nth_d_nonzero i Hi H)].
  cbn [negb].
  assert (E1 : mbuild n n
             (fun r c => if (Nat.ltb i r && Nat.eqb c i)%bool
                         then mget D r c * (1 / mget D i i)
                         else mget D r c) = D).
  { apply (mbuild_eq D); [apply wf_mbuild|]. intros r c Hr Hc.
    change (size1 D) with n in Hr. change (size2 D) with n in Hc.
    destruct (Nat.ltb_spec i r) as [Hlt|]; [|reflexivity].
    destruct (Nat.eqb_spec c i) as [->|]; [|reflexivity]. cbn [andb].
    rewrite (mget_D r i) by assumption.
    destruct (Nat.eqb_spec r i); [lia|]. unfold Rdiv. ring. }
  rewrite E1. f_equal. f_equal.
  apply (mbuild_eq D); [apply wf_mbuild|]. intros r c Hr Hc.
  change (size1 D) with n in Hr. change (size2 D) with n in Hc.
  destruct (Nat.ltb_spec i r) as [Hlt|]; [|reflexivity].
  cbn [andb]. destruct (Nat.ltb i c); [|reflexivity].
  rewrite (mget_D r i) by assumption.
  destruct (Nat.eqb_spec r i); [lia|ring].
Qed.

Lemma lu_factorize_D (pm : list nat) : lu_factorize D pm = (D, pm, 0%nat).
Proof.
  unfold lu_factorize. change (size1 D) with n. change (size2 D) with n.
  rewrite Nat.min_id.
  assert (H : forall k, (k <= n)%nat ->
            fold_left (fun acc i => lu_factorize_step i acc) (seq 0 k)
                      (D, pm, 0%nat) = (D, pm, 0%nat)).
  { induction k as [|k IH]; intros Hk; [reflexivity|].
    rewrite seq_S, fold_left_app, IH by lia. cbn [fold_left Nat.add].
    apply lu_factorize_step_D. lia. }
  apply H. lia.
Qed.

Lemma solve_unit_lower_step_D (e : matrix) (k : nat) :
  square n e -> (k < n)%nat -> solve_unit_lower_step D e k = e.
Proof.
  intros (H1 & H2 & Hwf) Hk. unfold solve_unit_lower_step.
  apply mbuild_eq; [assumption|]. intros r c Hr Hc.
  destruct (Nat.ltb_spec k r) as [Hlt|]; [|reflexivity].
  rewrite (mget_D r k) by lia.
  destruct (Nat.eqb_spec r k); [lia|ring].
Qed.

Lemma solve_upper_step_D (k : nat) :
  (k < n)%nat ->
  solve_upper_step D (partly_solved (S k)) k = partly_solved k.
Proof.
  intros Hk. unfold solve_upper_step. cbn [mbuild size1 size2].
  apply mbuild_ext. intros r c Hr Hc.
  rewrite !mget_mbuild by assumption.
  rewrite (mget_D k k Hk Hk), Nat.eqb_refl.
  destruct (Nat.ltb_spec r k) as [Hlt|Hge].
  - rewrite (mget_D r k) by lia.
    destruct (Nat.eqb_spec r k) as [|_]; [lia|].
    destruct (Nat.leb_spec (S k) r); [lia|].
    destruct (Nat.leb_spec k r); [lia|]. ring.
  - destruct (Nat.eqb_spec r k) as [->|Hne].
    + destruct (Nat.leb_spec (S k) k); [lia|].
      destruct (Nat.leb_spec k k); [|lia]. reflexivity.
    + destruct (Nat.leb_spec (S k) r); [|lia].
      destruct (Nat.leb_spec k r); [|lia]. reflexivity.
Qed.

Lemma partly_solved_none : partly_solved n = identity_matrix n.
Proof.
  apply (mbuild_eq (identity_matrix n)); [apply wf_mbuild|].
  intros r c Hr Hc. change (size1 (identity_matrix n)) with n in Hr.
  destruct (Nat.leb_spec n r); [lia|reflexivity].
Qed.

Lemma partly_solved_all :
  partly_solved 0 = diagonal_matrix (map (fun x => 1 / x) d).
Proof.
  unfold diagonal_matrix. rewrite length_map. apply mbuild_ext.
  intros r c Hr Hc. cbn [Nat.leb]. rewrite mget_identity by assumption.
  rewrite nth_map_recip by assumption.
  destruct (Nat.eqb r c); unfold Rdiv; ring.
Qed.

Lemma lu_substitute_D :
  lu_substitute D (seq 0 n) (identity_matrix n)
  = diagonal_matrix (map (fun x => 1 / x) d).
Proof.
  unfold lu_substitute. rewrite swap_rows_identity.
  change (size1 (identity_matrix n)) with n.
  assert (L : forall l, (forall k, In k l -> (k < n)%nat) ->
              fold_left (solve_unit_lower_step D) l (identity_matrix n)
              = identity_matrix n).
  { induction l as [|k l IH]; intros Hl; [reflexivity|]. cbn [fold_left].
    rewrite solve_unit_lower_step_D
      by (first [apply square_identity | apply Hl; left; reflexivity]).
    apply IH. intros; apply Hl; right; assumption. }
  rewrite L by (intros k Hk; apply in_seq in Hk; lia).
  change (size1 (identity_matrix n)) with n.
  rewrite <- partly_solved_none, <- partly_solved_all.
  assert (U : forall k, (k <= n)%nat ->
              fold_left (solve_upper_step D) (rev (seq 0 k)) (partly_solved k)
              = partly_solved 0).
  { induction k as [|k IH]; intros Hk; [reflexivity|].
    rewrite seq_S, rev_app_distr. cbn [rev app fold_left Nat.add].
    rewrite solve_upper_step_D by lia. apply IH. lia. }
  apply U. lia.
Qed.

End InverseDiagonal.

(** X20.  [inverse] succeeds on a diagonal matrix without a zero on its
    diagonal, and returns the diagonal matrix of the reciprocals (real
    arithmetic): no rows are exchanged and the factors are the matrix
    itself. *)
Theorem inverse_diagonal (d : list R) :
  Forall (fun x => x <> 0) d ->
  inverse (diagonal_matrix d) = Ok (diagonal_matrix (map (fun x => 1 / x) d)).
Proof.
  intros Hd. unfold inverse.
  change (size1 (diagonal_matrix d)) with (List.length d).
  rewrite (lu_factorize_D d Hd). cbn [Nat.eqb negb].
  rewrite (lu_substitute_D d). reflexivity.
Qed.

Lemma inverse_diagonal_witness :
  inverse (diagonal_matrix [2; 4; 5])
  = Ok (diagonal_matrix (map (fun x => 1 / x) [2; 4; 5])).
Proof.
  apply (inverse_diagonal [2; 4; 5]).
  repeat constructor; lra.
Defined.

(** ** Two elements in a row *)

Section Composition.

Lemma prod_assoc (A B C : matrix) :
  size2 A = size1 B -> size2 B = size1 C ->
  prod (prod A B) C = prod A (prod B C).
Proof.
  intros HAB HBC. unfold prod at 1 3. cbn [prod mbuild size1 size2].
  apply mbuild_ext. intros i j Hi Hj.
  transitivity (sum_n (size2 B) (fun k =>
                  sum_n (size2 A) (fun l => mget A i l * mget B l k * mget C k j))).
  - apply sum_n_ext. intros k Hk. rewrite mget_prod by assumption.
    rewrite <- sum_n_scal_r. reflexivity.
  - rewrite sum_n_swap. apply sum_n_ext. intros l Hl.
    rewrite mget_prod by (try assumption; lia).
    rewrite <- sum_n_scal_l. apply sum_n_ext. intros k Hk. ring.
Qed.

Lemma trans_prod (A B : matrix) :
  size2 A = size1 B -> trans (prod A B) = prod (trans B) (trans A).
Proof.
  intros HAB. unfold trans at 1, prod at 2. cbn [prod trans mbuild size1 size2].
  apply mbuild_ext. intros i j Hi Hj.
  change (mget (prod A B) j i
          = sum_n (size1 B) (fun k => mget (trans B) i k * mget (trans A) k j)).
  rewrite mget_prod by assumption. rewrite <- HAB.
  apply sum_n_ext. intros k Hk.
  rewrite !mget_trans by (try assumption; lia). ring.
Qed.

Lemma prod_mv_prod (A B : matrix) (v : vector) :
  size2 A = size1 B -> prod_mv A (prod_mv B v) = prod_mv (prod A B) v.
Proof.
  intros HAB. unfold prod_mv at 1 3. cbn [prod mbuild size1 size2].
  apply map_ext_in. intros i Hi. apply in_seq in Hi.
  transitivity (sum_n (size2 A) (fun k =>
                  sum_n (size2 B) (fun l => mget A i k * mget B k l * nth l v 0))).
  - apply sum_n_ext. intros k Hk. unfold prod_mv.
    rewrite (nth_indep _ 0 (sum_n (size2 B) (fun l => mget B 0 l * nth l v 0)))
      by (rewrite length_map, length_seq; lia).
    rewrite (map_nth (fun r => sum_n (size2 B) (fun l => mget B r l * nth l v 0))).
    rewrite seq_nth by lia. cbn [Nat.add].
    rewrite <- sum_n_scal_l. apply sum_n_ext. intros l Hl. ring.
  - rewrite sum_n_swap. apply sum_n_ext. intros l Hl.
    rewrite mget_prod by lia. rewrite <- sum_n_scal_r. reflexivity.
Qed.

(** The congruence with a product is the congruence with the second
    factor followed by the congruence with the first. *)
Lemma congruence_prod (n : nat) (A B S : matrix) :
  square n A -> square n B -> square n S ->
  prod (prod A (prod (prod B S) (trans B))) (trans A)
  = prod (prod (prod A B) S) (trans (prod A B)).
Proof.
  intros (A1 & A2 & _) (B1 & B2 & _) (S1 & S2 & _).
  rewrite trans_prod by congruence.
  rewrite (prod_assoc A B S) by congruence.
  rewrite <- (prod_assoc (prod A (prod B S)) (trans B) (trans A))
    by (cbn [prod trans mbuild size1 size2]; congruence).
  rewrite (prod_assoc A (prod B S) (trans B))
    by (cbn [prod trans mbuild size1 size2]; congruence).
  reflexivity.
Qed.

End Composition.

(** X21.  Two elements in their lifetime, neither a source, one after
    the other: when T1 and T2 are the transfer matrices they apply, the
    first moments after both are (T2 T1) m and the second moments are
    (T2 T1) S trans(T2 T1), for a state of the constructor's shape (real
    arithmetic). *)
Theorem two_elements_compose (e1 e2 : Element) (ST : Moment2State) :
  lifetime e1 -> lifetime e2 ->
  is_source e1 = false -> is_source e2 = false ->
  shaped ST ->
  let ST1 := snd (advance e1 ST) in
  let T1 := transfer (base (fst (advance e1 ST))) in
  let T2 := transfer (base (fst (advance e2 ST1))) in
  moment0 (snd (advance e2 ST1)) = prod_mv (prod T2 T1) (moment0 ST) /\
  state (snd (advance e2 ST1))
  = prod (prod (prod T2 T1) (state ST)) (trans (prod T2 T1)).
Proof.
  intros Hl1 Hl2 Hs1 Hs2 [_ Hsq] ST1 T1 T2.
  destruct (advance_matrices e1 ST Hl1 Hs1) as (T & HT & ET & Hm1 & Hst1).
  destruct (advance_matrices e2 ST1 Hl2 Hs2) as (T' & HT' & ET' & Hm2 & Hst2).
  fold ST1 in Hm1, Hst1. fold T1 in ET. fold T2 in ET'. subst T T'.
  split.
  - rewrite Hm2, Hm1. apply prod_mv_prod.
    destruct HT as (H1 & _). destruct HT' as (_ & H2 & _). congruence.
  - rewrite Hst2, Hst1. apply (congruence_prod maxsize); assumption.
Qed.

Lemma two_elements_compose_witness :
  let ST1 := snd (advance sample_drift sample_state) in
  let T1 := transfer (base (fst (advance sample_drift sample_state))) in
  let T2 := transfer (base (fst (advance sample_rfcavity ST1))) in
  moment0 (snd (advance sample_rfcavity ST1))
  = prod_mv (prod T2 T1) (moment0 sample_state) /\
  state (snd (advance sample_rfcavity ST1))
  = prod (prod (prod T2 T1) (state sample_state)) (trans (prod T2 T1)).
Proof.
  apply (two_elements_compose sample_drift sample_rfcavity sample_state).
  - exact sample_drift_lifetime.
  - exact sample_rfcavity_lifetime.
  - reflexivity.
  - reflexivity.
  - split; [reflexivity|]. exact (square_identity maxsize).
Defined.

(** ** What advance leaves alone in the element *)

Section ElementFrame.

Lemma energy_step_frame body (b b1 : Moment2ElementBase)
      (ST : Moment2State) (k : cache_keys) :
  (forall b' k', body b ST = (b', k') ->
     void b' = void b /\ length b' = length b /\
     FSampLength b' = FSampLength b /\ phase_factor b' = phase_factor b /\
     Erest b' = Erest b /\ misalign b' = misalign b /\
     misalign_inv b' = misalign_inv b) ->
  energy_step body b ST = (b1, k) ->
  void b1 = void b /\ length b1 = length b /\
  FSampLength b1 = FSampLength b /\ phase_factor b1 = phase_factor b /\
  Erest b1 = Erest b /\ misalign b1 = misalign b /\
  misalign_inv b1 = misalign_inv b.
Proof.
  intros Hbody H. destruct (cache_miss b ST) eqn:Hm.
  - rewrite energy_step_miss in H by assumption. exact (Hbody _ _ H).
  - destruct (energy_step_hit body b ST Hm) as (k0 & _ & _ & E).
    rewrite E in H. inversion H; subst. repeat split.
Qed.

End ElementFrame.

(** X22.  No advance changes what the element was configured with: its
    name, index and configuration, its length, sampling length, phase
    factor and rest energy, its misalignment and the inverse of it, and
    its type are the same after the call as before, for every element and
    every state. *)
Theorem advance_keeps_element_parameters (e : Element) (ST : Moment2State) :
  let e' := fst (advance e ST) in
  type_name e' = type_name e /\
  void (base e') = void (base e) /\
  length (base e') = length (base e) /\
  FSampLength (base e') = FSampLength (base e) /\
  phase_factor (base e') = phase_factor (base e) /\
  Erest (base e') = Erest (base e) /\
  misalign (base e') = misalign (base e) /\
  misalign_inv (base e') = misalign_inv (base e).
Proof.
  assert (Hdef : forall b,
    let b' := fst (Moment2ElementBase_advance b ST) in
    void b' = void b /\ length b' = length b /\
    FSampLength b' = FSampLength b /\ phase_factor b' = phase_factor b /\
    Erest b' = Erest b /\ misalign b' = misalign b /\
    misalign_inv b' = misalign_inv b).
  { intros b. unfold Moment2ElementBase_advance.
    destruct (energy_step recompute b ST) as [b1 k] eqn:E.
    cbn [transport fst with_scratch].
    apply (energy_step_frame recompute b b1 ST k); [|assumption].
    unfold recompute. intros b' k' H. inversion H; subst. repeat split. }
  assert (Hrf : forall b,
    let b' := fst (ElementRFCavity_advance b ST) in
    void b' = void b /\ length b' = length b /\
    FSampLength b' = FSampLength b /\ phase_factor b' = phase_factor b /\
    Erest b' = Erest b /\ misalign b' = misalign b /\
    misalign_inv b' = misalign_inv b).
  { intros b. unfold ElementRFCavity_advance.
    destruct (energy_step recompute_rf b ST) as [b1 k] eqn:E.
    cbn [transport fst with_scratch].
    apply (energy_step_frame recompute_rf b b1 ST k); [|assumption].
    unfold recompute_rf. intros b' k' H. inversion H; subst. repeat split. }
  destruct e; cbn [advance base];
    try (specialize (Hdef b); cbn zeta in Hdef;
         destruct (Moment2ElementBase_advance b ST) as [b' ST'];
         cbn [fst rebase base type_name] in *;
         split; [reflexivity|exact Hdef]).
  - cbn. repeat split.
  - specialize (Hrf b). cbn zeta in Hrf.
    destruct (ElementRFCavity_advance b ST) as [b' ST'].
    cbn [fst base type_name] in *. split; [reflexivity|exact Hrf].
Qed.

(** X23.  The RF cavity is built exactly when its base part is built,
    "cavtype" is a string and "L" is a double; the failure is that of the
    first of these reads that fails, "cavtype" before "L"; and the raw
    transfer matrix is the one of the drift of that length, whatever the
    string under "cavtype" says. *)
Theorem rfcavity_ctor (c : Config) (indet : nat -> R)
        (b : Moment2ElementBase) :
  Moment2ElementBase_ctor c indet = Ok b ->
  (forall err, get_string c "cavtype" = Throw err ->
     build rfcavity c indet = Throw err) /\
  (forall cav err, get_string c "cavtype" = Ok cav ->
     get_double c "L" = Throw err -> build rfcavity c indet = Throw err) /\
  (forall cav l, get_string c "cavtype" = Ok cav -> get_double c "L" = Ok l ->
     build rfcavity c indet
     = Ok (ElementRFCavity
             (with_transfer_raw b
                (drift_matrix (l * MtoMM) (identity_matrix maxsize)))) /\
     build drift c indet
     = Ok (ElementDrift
             (with_transfer_raw b
                (drift_matrix (l * MtoMM) (identity_matrix maxsize))))).
Proof.
  intros Hb.
  pose proof (Moment2ElementBase_ctor_inv _ _ _ Hb)
    as (v & f & es & _ & _ & _ & Eb).
  assert (Hraw : transfer_raw b = identity_matrix maxsize)
    by (rewrite Eb; reflexivity).
  cbn [build]. unfold ElementRFCavity_ctor, ElementDrift_ctor.
  rewrite Hb. cbn [bind]. split; [|split].
  - intros err ->. reflexivity.
  - intros cav err -> ->. reflexivity.
  - intros cav l -> Hl. rewrite Hl. cbn [bind]. rewrite Hraw.
    split; [reflexivity|].
    assert (Hlen : length b = l)
      by (rewrite Eb; cbn [length]; apply get_double_def_ok; assumption).
    rewrite Hlen. reflexivity.
Qed.

Lemma rfcavity_ctor_witness :
  build rfcavity sample_conf sample_indet
  = Ok (ElementRFCavity
          (with_transfer_raw sample_base
             (drift_matrix (2 * MtoMM) (identity_matrix maxsize)))) /\
  build rfcavity conf_without_L sample_indet = Throw key_error.
Proof.
  destruct (rfcavity_ctor sample_conf sample_indet sample_base
              sample_base_built) as (_ & _ & H).
  destruct (rfcavity_ctor conf_without_L sample_indet base_without_L
              base_without_L_built) as (H' & _ & _).
  split.
  - exact (proj1 (H "0.041QWR"%string 2 eq_refl eq_refl)).
  - exact (H' key_error eq_refl).
Defined.

(** ** The two planes of a quadrupole *)

Section QuadPlanes.

Lemma mget_four_sets (M : matrix) (ind : nat) (a b u w : R) (i j : nat) :
  wf M -> (ind + 1 < size1 M)%nat -> (ind + 1 < size2 M)%nat ->
  (j < size2 M)%nat ->
  mget (mset (mset (mset (mset M (ind + 1) (ind + 1) a) ind ind b)
                   ind (ind + 1) u) (ind + 1) ind w) i j
  = if (Nat.eqb i (ind + 1) && Nat.eqb j ind)%bool then w
    else if (Nat.eqb i ind && Nat.eqb j (ind + 1))%bool then u
    else if (Nat.eqb i ind && Nat.eqb j ind)%bool then b
    else if (Nat.eqb i (ind + 1) && Nat.eqb j (ind + 1))%bool then a
    else mget M i j.
Proof.
  intros Hwf H1 H2 Hj.
  rewrite !mget_mset; cbn [mset size1 size2];
    repeat apply wf_mset; try assumption; try lia.
  reflexivity.
Qed.

(** The block that [Get2by2Matrix] writes depends on the length and the
    strength only, not on the matrix or the place. *)
Lemma Get2by2Matrix_entries (L K : R) (ind ind' : nat) (M M' : matrix)
      (a b : nat) :
  wf M -> (ind + 1 < size1 M)%nat -> (ind + 1 < size2 M)%nat ->
  wf M' -> (ind' + 1 < size1 M')%nat -> (ind' + 1 < size2 M')%nat ->
  (a < 2)%nat -> (b < 2)%nat ->
  mget (Get2by2Matrix L K ind M) (ind + a) (ind + b)
  = mget (Get2by2Matrix L K ind' M') (ind' + a) (ind' + b).
Proof.
  intros Hwf H1 H2 Hwf' H1' H2' Ha Hb. unfold Get2by2Matrix.
  destruct (Rgt_dec K 0);
    [destruct (Rne_dec (sqrt K) 0) | destruct (Rne_dec (sqrt (- K)) 0)];
    rewrite !mget_four_sets by (try assumption; lia);
    destruct a as [|[|a]]; try lia; destruct b as [|[|b]]; try lia;
    rewrite ?Nat.add_0_r;
    repeat match goal with
           | |- context [Nat.eqb ?x ?y] =>
               destruct (Nat.eqb_spec x y); try lia
           end; reflexivity.
Qed.

Lemma Get2by2Matrix_outside (L K : R) (ind : nat) (M : matrix) (i j : nat) :
  wf M -> (ind + 1 < size1 M)%nat -> (ind + 1 < size2 M)%nat ->
  (j < size2 M)%nat ->
  ~ ((ind <= i <= ind + 1)%nat /\ (ind <= j <= ind + 1)%nat) ->
  mget (Get2by2Matrix L K ind M) i j = mget M i j.
Proof.
  intros Hwf H1 H2 Hj Hout. unfold Get2by2Matrix.
  destruct (Rgt_dec K 0);
    [destruct (Rne_dec (sqrt K) 0) | destruct (Rne_dec (sqrt (- K)) 0)];
    rewrite !mget_four_sets by (try assumption; lia);
    repeat match goal with
           | |- context [Nat.eqb ?x ?y] =>
               destruct (Nat.eqb_spec x y); try lia
           end; reflexivity.
Qed.

Lemma wf_Get2by2Matrix (L K : R) (ind : nat) (M : matrix) :
  wf M -> wf (Get2by2Matrix L K ind M).
Proof.
  intros H. unfold Get2by2Matrix.
  repeat match goal with
         | |- context [if ?x then _ else _] => destruct x
         end; repeat apply wf_mset; assumption.
Qed.

Lemma sizes_Get2by2Matrix (L K : R) (ind : nat) (M : matrix) :
  size1 (Get2by2Matrix L K ind M) = size1 M /\
  size2 (Get2by2Matrix L K ind M) = size2 M.
Proof.
  unfold Get2by2Matrix.
  repeat match goal with
         | |- context [if ?x then _ else _] => destruct x
         end; split; reflexivity.
Qed.

(** The raw matrix of a quadrupole, plane by plane. *)
Lemma quad_planes (L K : R) (a b : nat) :
  (a < 2)%nat -> (b < 2)%nat ->
  let Q := Get2by2Matrix L (- K) PS_Y
             (Get2by2Matrix L K PS_X (identity_matrix maxsize)) in
  mget Q (PS_X + a) (PS_X + b)
  = mget (Get2by2Matrix L K PS_X (identity_matrix maxsize))
         (PS_X + a) (PS_X + b) /\
  mget Q (PS_Y + a) (PS_Y + b)
  = mget (Get2by2Matrix L (- K) PS_X (identity_matrix maxsize))
         (PS_X + a) (PS_X + b).
Proof.
  intros Ha Hb Q.
  assert (Hwf : wf (identity_matrix maxsize)) by apply wf_mbuild.
  pose proof (wf_Get2by2Matrix L K PS_X _ Hwf) as Hwf1.
  destruct (sizes_Get2by2Matrix L K PS_X (identity_matrix maxsize)) as [S1 S2].
  split.
  - unfold Q. apply Get2by2Matrix_outside; try assumption;
      rewrite ?S1, ?S2; unfold PS_X, PS_Y; cbn [identity_matrix mbuild size1 size2];
      unfold maxsize; lia.
  - unfold Q. apply Get2by2Matrix_entries; try assumption;
      rewrite ?S1, ?S2; unfold PS_X, PS_Y; cbn [identity_matrix mbuild size1 size2];
      unfold maxsize; lia.
Qed.

End QuadPlanes.

(** X24.  Two quadrupoles of the same length and of opposite strengths
    K and -K: the horizontal block of the one is the vertical block of
    the other, entry by entry, and the other way round. *)
Theorem quad_opposite_strengths (c1 c2 : Config) (indet1 indet2 : nat -> R)
        (q1 q2 : Element) (a b : nat) :
  ElementQuad_ctor c1 indet1 = Ok q1 ->
  ElementQuad_ctor c2 indet2 = Ok q2 ->
  get_double c2 "L" = get_double c1 "L" ->
  get_double_def c2 "K" 0 = - get_double_def c1 "K" 0 ->
  (a < 2)%nat -> (b < 2)%nat ->
  mget (transfer_raw (base q2)) (PS_X + a) (PS_X + b)
  = mget (transfer_raw (base q1)) (PS_Y + a) (PS_Y + b) /\
  mget (transfer_raw (base q2)) (PS_Y + a) (PS_Y + b)
  = mget (transfer_raw (base q1)) (PS_X + a) (PS_X + b).
Proof.
  intros H1 H2 HL HK Ha Hb.
  unfold ElementQuad_ctor in H1, H2.
  destruct (Moment2ElementBase_ctor c1 indet1) as [b1|] eqn:E1;
    cbn [bind] in H1; [|discriminate].
  destruct (Moment2ElementBase_ctor c2 indet2) as [b2|] eqn:E2;
    cbn [bind] in H2; [|discriminate].
  rewrite HL in H2.
  destruct (get_double c1 "L") as [l|]; cbn [bind] in H1, H2; [|discriminate].
  inversion H1; subst q1. inversion H2; subst q2. clear H1 H2.
  pose proof (Moment2ElementBase_ctor_inv _ _ _ E1)
    as (v1 & f1 & es1 & _ & _ & _ & Hb1).
  pose proof (Moment2ElementBase_ctor_inv _ _ _ E2)
    as (v2 & f2 & es2 & _ & _ & _ & Hb2).
  assert (R1 : transfer_raw b1 = identity_matrix maxsize)
    by (rewrite Hb1; reflexivity).
  assert (R2 : transfer_raw b2 = identity_matrix maxsize)
    by (rewrite Hb2; reflexivity).
  cbn [base with_transfer_raw transfer_raw]. rewrite R1, R2, HK.
  replace (- get_double_def c1 "K" 0 / sqr MtoMM)
    with (- (get_double_def c1 "K" 0 / sqr MtoMM))
    by (unfold Rdiv; ring).
  set (K := get_double_def c1 "K" 0 / sqr MtoMM).
  destruct (quad_planes (l * MtoMM) K a b Ha Hb) as [X1 Y1].
  destruct (quad_planes (l * MtoMM) (- K) a b Ha Hb) as [X2 Y2].
  cbn zeta in X1, Y1, X2, Y2.
  rewrite X2, Y1, Y2, X1, Ropp_involutive. split; reflexivity.
Qed.

Lemma quad_opposite_strengths_witness :
  mget (Get2by2Matrix (2 * MtoMM) (- (-3 / sqr MtoMM)) PS_Y
          (Get2by2Matrix (2 * MtoMM) (-3 / sqr MtoMM) PS_X
             (identity_matrix maxsize))) (PS_X + 0) (PS_X + 1)
  = mget (Get2by2Matrix (2 * MtoMM) (- (3 / sqr MtoMM)) PS_Y
            (Get2by2Matrix (2 * MtoMM) (3 / sqr MtoMM) PS_X
               (identity_matrix maxsize))) (PS_Y + 0) (PS_Y + 1).
Proof.
  assert (H1 : ElementQuad_ctor (("K"%string, any_double 3) :: sample_conf)
                 sample_indet
               = Ok (ElementQuad
                       (with_transfer_raw
                          (mkBase (mkVoid "e1" 0
                                     (("K"%string, any_double 3) :: sample_conf))
                             2 (C0 / 80500000 * MtoMM)
                             (2 * 2 * M_PI / (C0 / 80500000 * MtoMM)) 931494320
                             (uninitialised sample_indet 0)
                             (identity_matrix maxsize) (identity_matrix maxsize)
                             (identity_matrix maxsize)
                             (uninitialised sample_indet (maxsize * maxsize))
                             None)
                          (Get2by2Matrix (2 * MtoMM) (- (3 / sqr MtoMM)) PS_Y
                             (Get2by2Matrix (2 * MtoMM) (3 / sqr MtoMM) PS_X
                                (identity_matrix maxsize)))))).
  { unfold ElementQuad_ctor.
    rewrite (Moment2ElementBase_ctor_ok
               (("K"%string, any_double 3) :: sample_conf) sample_indet
               (mkVoid "e1" 0 (("K"%string, any_double 3) :: sample_conf))
               80500000 931494320) by reflexivity.
    reflexivity. }
  assert (H2 : ElementQuad_ctor (("K"%string, any_double (-3)) :: sample_conf)
                 sample_indet
               = Ok (ElementQuad
                       (with_transfer_raw
                          (mkBase (mkVoid "e1" 0
                                     (("K"%string, any_double (-3)) :: sample_conf))
                             2 (C0 / 80500000 * MtoMM)
                             (2 * 2 * M_PI / (C0 / 80500000 * MtoMM)) 931494320
                             (uninitialised sample_indet 0)
                             (identity_matrix maxsize) (identity_matrix maxsize)
                             (identity_matrix maxsize)
                             (uninitialised sample_indet (maxsize * maxsize))
                             None)
                          (Get2by2Matrix (2 * MtoMM) (- (-3 / sqr MtoMM)) PS_Y
                             (Get2by2Matrix (2 * MtoMM) (-3 / sqr MtoMM) PS_X
                                (identity_matrix maxsize)))))).
  { unfold ElementQuad_ctor.
    rewrite (Moment2ElementBase_ctor_ok
               (("K"%string, any_double (-3)) :: sample_conf) sample_indet
               (mkVoid "e1" 0 (("K"%string, any_double (-3)) :: sample_conf))
               80500000 931494320) by reflexivity.
    reflexivity. }
  exact (proj1 (quad_opposite_strengths _ _ _ _ _ _ 0 1 H1 H2 eq_refl
                  eq_refl ltac:(lia) ltac:(lia))).
Defined.

(** ** The sector bend *)

Section SectorBend.

(** The focusing strength of a bend without gradient, and its root. *)
Lemma bend_strength (L phi : R) :
  0 < L -> phi <> 0 ->
  0 < 0 + 1 / sqr (L / phi) /\
  sqrt (0 + 1 / sqr (L / phi)) = Rabs phi / L.
Proof.
  intros HL Hphi.
  assert (E : 0 + 1 / sqr (L / phi) = Rsqr (phi / L))
    by (unfold sqr, Rsqr; field; repeat split; lra).
  rewrite E. split.
  - apply Rlt_0_sqr. unfold Rdiv. apply Rmult_integral_contrapositive.
    split; [assumption|]. apply Rinv_neq_0_compat. lra.
  - rewrite sqrt_Rsqr_abs. unfold Rdiv. rewrite Rabs_mult.
    rewrite (Rabs_right (/ L)); [reflexivity|].
    left. apply Rinv_0_lt_compat. assumption.
Qed.

Lemma cos_Rabs (x : R) : cos (Rabs x) = cos x.
Proof.
  unfold Rabs. destruct (Rcase_abs x); [apply cos_neg|reflexivity].
Qed.

Lemma sin_Rabs_ratio (x L : R) :
  0 < L -> x <> 0 ->
  sin (Rabs x) / (Rabs x / L) = L / x * sin x /\
  - (Rabs x / L) * sin (Rabs x) = - (x / L) * sin x.
Proof.
  intros HL Hx. unfold Rabs. destruct (Rcase_abs x).
  - rewrite sin_neg. split; field; repeat split; lra.
  - split; field; repeat split; lra.
Qed.

(** The block of a focusing plane of strength [(phi / L)^2]. *)
Lemma bend_block (L phi : R) (M : matrix) :
  0 < L -> phi <> 0 ->
  Get2by2Matrix L (0 + 1 / sqr (L / phi)) PS_X M
  = mset (mset (mset (mset M (PS_X + 1) (PS_X + 1) (cos phi))
                     PS_X PS_X (cos phi))
               PS_X (PS_X + 1) (L / phi * sin phi))
         (PS_X + 1) PS_X (- (phi / L) * sin phi).
Proof.
  intros HL Hphi. destruct (bend_strength L phi HL Hphi) as [Hpos Hsqrt].
  unfold Get2by2Matrix.
  destruct (Rgt_dec (0 + 1 / sqr (L / phi)) 0) as [_|H]; [|lra].
  rewrite Hsqrt.
  assert (Hne : Rabs phi / L <> 0).
  { unfold Rdiv. apply Rmult_integral_contrapositive. split.
    - apply Rabs_no_R0. assumption.
    - apply Rinv_neq_0_compat. lra. }
  destruct (Rne_dec (Rabs phi / L) 0) as [_|H]; [|contradiction].
  replace (Rabs phi / L * L) with (Rabs phi) by (field; lra).
  destruct (sin_Rabs_ratio phi L HL Hphi) as [E1 E2].
  rewrite cos_Rabs, E1, E2. reflexivity.
Qed.

End SectorBend.

(** X25.  A sector bend without gradient (K = 0 or absent), of positive
    length L (in millimetres) and bend angle phi different from 0, has
    the horizontal block
      cos phi, (L / phi) sin phi; - (phi / L) sin phi, cos phi
    and the vertical block of a drift, 1, L; 0, 1 (real arithmetic). *)
Theorem sbend_without_gradient (c : Config) (indet : nat -> R) (e : Element)
        (l phi : R) :
  ElementSBend_ctor c indet = Ok e ->
  get_double c "L" = Ok l -> get_double c "phi" = Ok phi ->
  get_double_def c "K" 0 = 0 ->
  0 < l * MtoMM -> phi <> 0 ->
  let M := transfer_raw (base e) in
  mget M PS_X PS_X = cos phi /\
  mget M PS_X PS_PX = l * MtoMM / phi * sin phi /\
  mget M PS_PX PS_X = - (phi / (l * MtoMM)) * sin phi /\
  mget M PS_PX PS_PX = cos phi /\
  mget M PS_Y PS_Y = 1 /\ mget M PS_Y PS_PY = l * MtoMM /\
  mget M PS_PY PS_Y = 0 /\ mget M PS_PY PS_PY = 1.
Proof.
  intros H HlL Hphi HK HL Hne.
  unfold ElementSBend_ctor in H.
  destruct (Moment2ElementBase_ctor c indet) as [b|] eqn:Eb;
    cbn [bind] in H; [|discriminate].
  rewrite HlL, Hphi in H. cbn [bind] in H. inversion H; subst e; clear H.
  pose proof (Moment2ElementBase_ctor_inv _ _ _ Eb)
    as (v & f & es & _ & _ & _ & Hb).
  assert (Hraw : transfer_raw b = identity_matrix maxsize)
    by (rewrite Hb; reflexivity).
  cbn [base with_transfer_raw transfer_raw]. rewrite Hraw, HK, zero_div.
  set (L := l * MtoMM) in *.
  rewrite (bend_block L phi _ HL Hne), Ropp_0, Get2by2Matrix_K0.
  cbv zeta. repeat split; reflexivity.
Qed.

Lemma sbend_without_gradient_witness :
  let M := Get2by2Matrix (2 * MtoMM) (- (0 / sqr MtoMM)) PS_Y
             (Get2by2Matrix (2 * MtoMM)
                (0 / sqr MtoMM + 1 / sqr (2 * MtoMM / 1)) PS_X
                (identity_matrix maxsize)) in
  mget M PS_X PS_X = cos 1 /\
  mget M PS_X PS_PX = 2 * MtoMM / 1 * sin 1 /\
  mget M PS_PX PS_X = - (1 / (2 * MtoMM)) * sin 1 /\
  mget M PS_PX PS_PX = cos 1 /\
  mget M PS_Y PS_Y = 1 /\ mget M PS_Y PS_PY = 2 * MtoMM /\
  mget M PS_PY PS_Y = 0 /\ mget M PS_PY PS_PY = 1.
Proof.
  apply (sbend_without_gradient conf_sbend sample_indet
           (ElementSBend
              (with_transfer_raw base_sbend
                 (Get2by2Matrix (2 * MtoMM) (- (0 / sqr MtoMM)) PS_Y
                    (Get2by2Matrix (2 * MtoMM)
                       (0 / sqr MtoMM + 1 / sqr (2 * MtoMM / 1)) PS_X
                       (identity_matrix maxsize))))) 2 1).
  - unfold ElementSBend_ctor.
    rewrite (Moment2ElementBase_ctor_ok conf_sbend sample_indet
               (mkVoid "e1" 0 conf_sbend) 80500000 931494320) by reflexivity.
    reflexivity.
  - reflexivity.
  - reflexivity.
  - reflexivity.
  - unfold MtoMM. lra.
  - lra.
Defined.
